(** * Price indicators and news sentiment: a shallow embedding

    The development follows the two scripts of the repository:

    - [scripts/prepare_indicators.py]: [rsi_wilder], [macd_pandas],
      [process_file];
    - [scripts/sentiment_analysis.py]: the [TextBlob] fallback shim,
      [compute_polarity], [aggregate_daily_sentiment], [prepare_price_df],
      [merge_and_analyze].

    Numbers.  A pandas float column holds IEEE doubles.  They are modelled
    by [float] below: an exact rational, one of the two infinities, or NaN.
    Arithmetic follows the IEEE rules for the special values (a division of
    a non-zero number by zero is an infinity, [0/0] and [inf - inf] are NaN,
    NaN is absorbing) and is exact on finite values: rounding and the sign
    of zero are not represented.  [Double] adds the two ends of the range
    of doubles, overflow and underflow, for [rsi_wilder], where they decide
    what the function returns.

    The operations are defined on every column.  Where a claim speaks of a
    price series, it is stated for a column of observed closes, that is of
    finite numbers ([observed]). *)

From Stdlib Require Import QArith Qcanon Ascii String.
From stdpp Require Import base list strings sorting.

Local Open Scope Qc_scope.

(** ** Floats *)

Inductive float : Type :=
  | Fin (q : Qc)
  | PInf
  | NInf
  | NaN.

Definition Qc_of_nat (n : nat) : Qc := Qc_of_Z (Z.of_nat n).

Definition float_of_Z (z : Z) : float := Fin (Qc_of_Z z).
Definition float_of_nat (n : nat) : float := Fin (Qc_of_nat n).

(** The infinity carrying the sign of [q]; NaN when [q] is zero. *)
Definition signed_inf (q : Qc) : float :=
  match q ?= 0 with
  | Eq => NaN
  | Gt => PInf
  | Lt => NInf
  end.

Definition fneg (x : float) : float :=
  match x with
  | Fin q => Fin (- q)
  | PInf => NInf
  | NInf => PInf
  | NaN => NaN
  end.

Definition fadd (x y : float) : float :=
  match x, y with
  | NaN, _ | _, NaN => NaN
  | PInf, NInf | NInf, PInf => NaN
  | PInf, _ | _, PInf => PInf
  | NInf, _ | _, NInf => NInf
  | Fin a, Fin b => Fin (a + b)
  end.

Definition fsub (x y : float) : float := fadd x (fneg y).

Definition fmul (x y : float) : float :=
  match x, y with
  | NaN, _ | _, NaN => NaN
  | Fin a, Fin b => Fin (a * b)
  | PInf, Fin b | Fin b, PInf => signed_inf b
  | NInf, Fin b | Fin b, NInf => signed_inf (- b)
  | PInf, PInf | NInf, NInf => PInf
  | PInf, NInf | NInf, PInf => NInf
  end.

Definition fdiv (x y : float) : float :=
  match x, y with
  | NaN, _ | _, NaN => NaN
  | Fin a, Fin b => if decide (b = 0) then signed_inf a else Fin (a / b)
  | Fin _, (PInf | NInf) => Fin 0
  | PInf, Fin b => if decide (b < 0) then NInf else PInf
  | NInf, Fin b => if decide (b < 0) then PInf else NInf
  | (PInf | NInf), (PInf | NInf) => NaN
  end.

(** [x == x] on doubles: false exactly for NaN. *)
Definition is_observation (x : float) : bool :=
  match x with NaN => false | _ => true end.

(** The finite value of a cell, if it has one. *)
Definition finite (x : float) : option Qc :=
  match x with Fin q => Some q | _ => None end.

(** * [scripts/prepare_indicators.py] *)

(** ** Columns: the pandas operations the scripts use *)

(** [Series.diff()]: the first entry has no predecessor and is NaN. *)
Definition diff (xs : list float) : list float :=
  imap (fun i x => match i with
                   | O => NaN
                   | S j => fsub x (default NaN (xs !! j))
                   end) xs.

(** [Series.clip(lower=0)] and [Series.clip(upper=0)]; NaN passes through. *)
Definition clip_lower0 (x : float) : float :=
  match x with
  | Fin q => if decide (q < 0) then Fin 0 else x
  | NInf => Fin 0
  | _ => x
  end.

Definition clip_upper0 (x : float) : float :=
  match x with
  | Fin q => if decide (0 < q) then Fin 0 else x
  | PInf => Fin 0
  | _ => x
  end.

(** The trailing window of width [w] that ends at index [i], inclusive. *)
Definition window {A} (w i : nat) (xs : list A) : list A :=
  drop (S i - w) (take (S i) xs).

Definition Qc_sum (qs : list Qc) : Qc := foldr Qcplus 0 qs.

(** [Series.rolling(window=w, min_periods=minp).mean()].  pandas turns
    infinities into NaN before it aggregates, skips NaN, and yields a value
    only when at least [minp] observations are in the window. *)
Definition rolling_mean (w minp : nat) (xs : list float) : list float :=
  imap (fun i _ =>
          let obs := omap finite (window w i xs) in
          if decide (minp ≤ length obs ∧ 0 < length obs)%nat
          then Fin (Qc_sum obs / Qc_of_nat (length obs))
          else NaN) xs.

(** [Series.rolling(window=w).std()], squared: the sample variance
    ([ddof = 1]) of the observations in the window.  The standard deviation
    is its square root, which a rational cannot hold. *)
Definition rolling_var (w minp : nat) (xs : list float) : list float :=
  imap (fun i _ =>
          let obs := omap finite (window w i xs) in
          if decide (minp ≤ length obs ∧ 1 < length obs)%nat
          then
            let m := Qc_sum obs / Qc_of_nat (length obs) in
            Fin (Qc_sum ((λ x, (x - m) * (x - m)) <$> obs)
                 / Qc_of_Z (Z.of_nat (length obs) - 1))
          else NaN) xs.

(** ** [rsi_wilder] *)

(** One pass of the [for i in range(period, len(series))] loop.  The state
    is the pair [prev_gain, prev_loss] and the two columns being updated in
    place through [.iloc[i]]. *)
Record wilder_state : Type := WilderState {
  prev_gain : float;
  prev_loss : float;
  avg_gain : list float;
  avg_loss : list float
}.

(** The value the loop body gives to [prev_gain] (or [prev_loss]) at [i]:
    the rolling mean at [i = period], Wilder's update afterwards. *)
Definition wilder_next (period : nat) (col : list float)
    (prev : float) (avg : list float) (i : nat) : float :=
  if decide (i = period) then default NaN (avg !! i)
  else fdiv (fadd (fmul prev (float_of_Z (Z.of_nat period - 1)))
                  (default NaN (col !! i)))
            (float_of_nat period).

Definition wilder_step (period : nat) (gain loss : list float)
    (st : wilder_state) (i : nat) : wilder_state :=
  let pg := wilder_next period gain (prev_gain st) (avg_gain st) i in
  let pl := wilder_next period loss (prev_loss st) (avg_loss st) i in
  {| prev_gain := pg; prev_loss := pl;
     avg_gain := <[i := pg]> (avg_gain st);
     avg_loss := <[i := pl]> (avg_loss st) |}.

(** The columns [avg_gain] and [avg_loss] when the loop has finished. *)
Definition wilder_averages (series : list float) (period : nat) : wilder_state :=
  let delta := diff series in
  let gain := clip_lower0 <$> delta in
  let loss := fneg <$> (clip_upper0 <$> delta) in
  let st0 := {| prev_gain := NaN; prev_loss := NaN;
                avg_gain := rolling_mean period period gain;
                avg_loss := rolling_mean period period loss |} in
  foldl (wilder_step period gain loss) st0
        (seq period (length series - period)).

(** [rs = avg_gain / avg_loss] and [100 - (100 / (1 + rs))], entry by
    entry. *)
Definition rsi_of_rs (rs : float) : float :=
  fsub (float_of_Z 100) (fdiv (float_of_Z 100) (fadd (Fin 1) rs)).

Definition rsi_of (ag al : float) : float := rsi_of_rs (fdiv ag al).

Definition rsi_wilder (series : list float) (period : nat) : list float :=
  let st := wilder_averages series period in
  zip_with rsi_of (avg_gain st) (avg_loss st).

(** ** [macd_pandas] *)

Global Instance float_eq_dec : EqDecision float.
Proof. solve_decision. Defined.

(** [Series.ewm(span=span, adjust=False).mean()], after the kernel pandas
    runs for it (with the defaults [ignore_na=False], [min_periods=0]).
    The state is the running average [weighted] and the weight [old_wt] it
    carries; a missing value leaves the average as it is and lets its
    weight decay. *)
Definition ewm_alpha (span : nat) : Qc :=
  let com := (Qc_of_nat span - 1) / 2 in
  1 / (1 + com).

Definition ewm_step (alpha : Qc) (st : float * Qc) (cur : float) : float * Qc :=
  let '(weighted, old_wt) := st in
  if is_observation weighted then
    let old_wt := old_wt * (1 - alpha) in
    if is_observation cur then
      (if decide (weighted = cur) then weighted
       else fdiv (fadd (fmul (Fin old_wt) weighted) (fmul (Fin alpha) cur))
                 (Fin (old_wt + alpha)),
       1)
    else (weighted, old_wt)
  else if is_observation cur then (cur, old_wt)
  else (weighted, old_wt).

Fixpoint ewm_run (alpha : Qc) (st : float * Qc) (xs : list float) : list float :=
  match xs with
  | [] => []
  | cur :: rest =>
      let st' := ewm_step alpha st cur in
      st'.1 :: ewm_run alpha st' rest
  end.

Definition ewm_mean (span : nat) (xs : list float) : list float :=
  match xs with
  | [] => []
  | x0 :: rest => x0 :: ewm_run (ewm_alpha span) (x0, 1) rest
  end.

Definition macd_pandas (series : list float) (fast slow signal : nat)
    : list float * list float * list float :=
  let ema_fast := ewm_mean fast series in
  let ema_slow := ewm_mean slow series in
  let macd := zip_with fsub ema_fast ema_slow in
  let macd_signal := ewm_mean signal macd in
  let macd_hist := zip_with fsub macd macd_signal in
  (macd, macd_signal, macd_hist).

(** ** [process_file] *)

(** [Series.pct_change()]: [x / x.shift(1) - 1].  (Older versions of
    pandas first fill missing values forward; on a column without NaN
    there is nothing to fill.) *)
Definition pct_change (xs : list float) : list float :=
  imap (fun i x => match i with
                   | O => NaN
                   | S j => fsub (fdiv x (default NaN (xs !! j))) (Fin 1)
                   end) xs.

(** A row of a price file, its [Date] already parsed to a day number. *)
Record price_bar : Type := PriceBar {
  Date : Z;
  Open : float;
  High : float;
  Low : float;
  Close : float;
  Volume : float
}.

(** A row of the processed file.  In place of [volatility_20d], a rolling
    standard deviation, the row holds its square. *)
Record indicator_row : Type := IndicatorRow {
  bar : price_bar;
  return_ : float;
  MA20 : float;
  MA50 : float;
  volatility_20d_squared : float;
  RSI14 : float;
  MACD : float;
  MACD_signal : float;
  MACD_hist : float
}.

(** A stable sort by a key, as [DataFrame.sort_values] does it. *)
Section sort_by.
Context {A K : Type} (key : A → K) (leb : K → K → bool).

Fixpoint insert_by (x : A) (l : list A) : list A :=
  match l with
  | [] => [x]
  | y :: l' => if leb (key x) (key y) then x :: l else y :: insert_by x l'
  end.

Definition sort_by (l : list A) : list A := foldr insert_by [] l.
End sort_by.

(** The reference branch of [process_file] ([use_talib] false, or ta-lib
    missing): from the rows read to the rows written. *)
Definition process_file (rows : list price_bar) : list indicator_row :=
  let df := sort_by Date Z.leb rows in
  let close := Close <$> df in
  let ret := pct_change close in
  let ma20 := rolling_mean 20 20 close in
  let ma50 := rolling_mean 50 50 close in
  let vol := rolling_var 20 20 ret in
  let rsi := rsi_wilder close 14 in
  let '(macd, signal, hist) := macd_pandas close 12 26 9 in
  imap (fun i b =>
          {| bar := b;
             return_ := default NaN (ret !! i);
             MA20 := default NaN (ma20 !! i);
             MA50 := default NaN (ma50 !! i);
             volatility_20d_squared := default NaN (vol !! i);
             RSI14 := default NaN (rsi !! i);
             MACD := default NaN (macd !! i);
             MACD_signal := default NaN (signal !! i);
             MACD_hist := default NaN (hist !! i) |}) df.

(** A column of observed (finite) values. *)
Definition observed (qs : list Qc) : list float := Fin <$> qs.

(** ** The loop of [rsi_wilder], unrolled *)

(** What the loop leaves at index [period + k] of a column that started as
    [avg0]: the entry of [avg0] at [period] for [k = 0], then one Wilder
    update per step. *)
Fixpoint wilder_rec (period : nat) (col avg0 : list float) (k : nat) : float :=
  match k with
  | O => default NaN (avg0 !! period)
  | S k' =>
      fdiv (fadd (fmul (wilder_rec period col avg0 k')
                       (float_of_Z (Z.of_nat period - 1)))
                 (default NaN (col !! (period + S k')%nat)))
           (float_of_nat period)
  end.

(** The state of one column after [n] passes of the loop: entries from
    [period] to [period + n - 1] rewritten, the others as they were, and
    [prev] the last value written. *)
Definition col_inv (period : nat) (col avg0 : list float)
    (n : nat) (prev : float) (avg : list float) : Prop :=
  length avg = length avg0 ∧
  (∀ j, avg !! j =
        if decide (period ≤ j < period + n)%nat
        then Some (wilder_rec period col avg0 (j - period))
        else avg0 !! j) ∧
  (∀ k, n = S k → prev = wilder_rec period col avg0 k).

(** ** Wilder's RSI as the specification words it

    For a series of observed closes: [delta[t] = close[t] - close[t-1]],
    [gain[t] = max(delta[t], 0)], [loss[t] = max(-delta[t], 0)]; the
    averages are seeded at [t = 14] with the simple means over [1..14] and
    follow [(avg[t-1]*13 + x[t]) / 14] afterwards. *)

Definition Qc_max (a b : Qc) : Qc := if decide (a < b) then b else a.

Definition close_at (closes : list Qc) (t : nat) : Qc := default 0 (closes !! t).

Definition delta_at (closes : list Qc) (t : nat) : Qc :=
  close_at closes t - close_at closes (t - 1).

Definition gain_at (closes : list Qc) (t : nat) : Qc := Qc_max (delta_at closes t) 0.
Definition loss_at (closes : list Qc) (t : nat) : Qc := Qc_max (- delta_at closes t) 0.

(** [wilder_avg x k] is the average at index [14 + k]. *)
Fixpoint wilder_avg (x : nat → Qc) (k : nat) : Qc :=
  match k with
  | O => Qc_sum (x <$> seq 1 14) / Qc_of_Z 14
  | S k' => (wilder_avg x k' * Qc_of_Z 13 + x (14 + S k')%nat) / Qc_of_Z 14
  end.

Definition rsi_spec (closes : list Qc) (t : nat) : float :=
  if decide (t < 14)%nat then NaN
  else
    let ag := Fin (wilder_avg (gain_at closes) (t - 14)) in
    let al := Fin (wilder_avg (loss_at closes) (t - 14)) in
    fsub (float_of_Z 100) (fdiv (float_of_Z 100) (fadd (Fin 1) (fdiv ag al))).

(** ** MACD as the specification words it

    [EMA[0] = x[0]] and [EMA[t] = alpha*x[t] + (1-alpha)*EMA[t-1]] with
    [alpha = 2/(span+1)]; the MACD line is the difference of the EMAs of
    spans 12 and 26, the signal line the EMA of span 9 of the MACD line,
    the histogram their difference. *)

Definition ema_alpha (span : nat) : Qc := 2 / (Qc_of_nat span + 1).

Fixpoint ema_at (span : nat) (x : nat → Qc) (t : nat) : Qc :=
  match t with
  | O => x 0%nat
  | S t' => ema_alpha span * x t + (1 - ema_alpha span) * ema_at span x t'
  end.

Definition macd_at (closes : list Qc) (t : nat) : Qc :=
  ema_at 12 (close_at closes) t - ema_at 26 (close_at closes) t.

Definition signal_at (closes : list Qc) (t : nat) : Qc :=
  ema_at 9 (macd_at closes) t.

Definition hist_at (closes : list Qc) (t : nat) : Qc :=
  macd_at closes t - signal_at closes t.

(** The simple arithmetic mean. *)
Definition mean (qs : list Qc) : Qc := Qc_sum qs / Qc_of_nat (length qs).

(** Rows in date order, no date twice. *)
Fixpoint dates_ascending (ds : list Z) : Prop :=
  match ds with
  | a :: (b :: _) as rest => (a < b)%Z ∧ dates_ascending rest
  | _ => True
  end.

(** [n] closes that start at [c0] and go up by exactly 1 a day. *)
Definition rising (c0 : Qc) (n : nat) : list Qc :=
  (λ t, c0 + Qc_of_nat t) <$> seq 0 n.

(** Every close is above the one before it. *)
Fixpoint strictly_increasing (closes : list Qc) : Prop :=
  match closes with
  | a :: (b :: _) as rest => a < b ∧ strictly_increasing rest
  | _ => True
  end.

(** A 30-day table: day [t] closes at [5 + t]. *)
Definition rising_rows : list price_bar :=
  (λ t, {| Date := Z.of_nat t; Open := NaN; High := NaN; Low := NaN;
           Close := Fin (Qc_of_Z 5 + Qc_of_nat t); Volume := NaN |})
    <$> seq 0 30.

(** * [scripts/sentiment_analysis.py] *)

(** ** Text

    A Python [str] is modelled by a [string] with one character per code
    point, for the code points below 256 (Latin-1). *)

(** What a cell read from a CSV file, or an argument of [compute_polarity],
    can be: [None], the float NaN of an empty cell, or a string. *)
Inductive pyobj : Type :=
  | PyNone
  | PyNaN
  | PyStr (s : string).

(** [str(x)]. *)
Definition py_str (x : pyobj) : string :=
  match x with
  | PyNone => "None"
  | PyNaN => "nan"
  | PyStr s => s
  end.

(** [pd.isna(x)]. *)
Definition is_null (x : pyobj) : bool :=
  match x with PyStr _ => false | _ => true end.

Definition in_range (lo hi : N) (c : ascii) : bool :=
  ((lo <=? N_of_ascii c) && (N_of_ascii c <=? hi))%N.

(** The letters with a lower-case form: A-Z, and in Latin-1 the range
    U+00C0..U+00DE without the multiplication sign U+00D7. *)
Definition is_upper (c : ascii) : bool :=
  in_range 65 90 c || in_range 192 214 c || in_range 216 222 c.

(** The letters whose upper-case form is again below 256: a-z, and
    U+00E0..U+00FE without the division sign U+00F7. *)
Definition is_lower_with_upper (c : ascii) : bool :=
  in_range 97 122 c || in_range 224 246 c || in_range 248 254 c.

Definition lower_char (c : ascii) : ascii :=
  if is_upper c then ascii_of_N (N_of_ascii c + 32) else c.

Definition upper_char (c : ascii) : ascii :=
  if is_lower_with_upper c then ascii_of_N (N_of_ascii c - 32) else c.

Fixpoint map_string (f : ascii → ascii) (s : string) : string :=
  match s with
  | EmptyString => EmptyString
  | String c s' => String (f c) (map_string f s')
  end.

(** [str.lower()]. *)
Definition lower (s : string) : string := map_string lower_char s.

(** [str.upper()]; the sharp s, the micro sign and the y with diaeresis
    are left as they are.  Python gives ["SS"] for the first and a letter
    beyond Latin-1 for the other two: on these three characters the model
    is not the function, and what is stated of tickers is stated for
    ASCII. *)
Definition upper (s : string) : string := map_string upper_char s.

(** What [\w] matches: letters, digits and the underscore, with the
    Latin-1 letters and numerals among them. *)
Definition is_word_char (c : ascii) : bool :=
  in_range 48 57 c || in_range 65 90 c || (N_of_ascii c =? 95)%N
  || in_range 97 122 c
  || (N_of_ascii c =? 170)%N || in_range 178 179 c || (N_of_ascii c =? 181)%N
  || in_range 185 186 c || in_range 188 190 c
  || in_range 192 214 c || in_range 216 246 c || in_range 248 255 c.

(** [re.findall(r"\w+", s)]: the maximal runs of word characters, left to
    right.  [cur] is the run being read, if one is open. *)
Fixpoint findall_words_from (cur : option string) (s : string) : list string :=
  match s with
  | EmptyString => match cur with Some w => [w] | None => [] end
  | String c s' =>
      if is_word_char c then
        findall_words_from (Some (default EmptyString cur +:+ String c EmptyString)) s'
      else
        match cur with
        | Some w => w :: findall_words_from None s'
        | None => findall_words_from None s'
        end
  end.

Definition findall_words (s : string) : list string := findall_words_from None s.

(** ** The [TextBlob] fallback shim *)

Module TextBlob.
Definition _POS : list string :=
  ["good"; "great"; "positive"; "up"; "bull"; "profit"; "gain";
   "beat"; "outperform"; "strong"; "improve"; "increase"; "surge";
   "rise"; "grow"; "growth"].

Definition _NEG : list string :=
  ["bad"; "terrible"; "negative"; "down"; "bear"; "loss"; "drop";
   "miss"; "weak"; "decline"; "decrease"; "fall"; "plunge"].

(** [__init__]: the text kept by the object. *)
Definition init (text : pyobj) : string :=
  match text with
  | PyNone => EmptyString
  | _ => lower (py_str text)
  end.

Definition count_in (lexicon words : list string) : nat :=
  length (filter (λ w, w ∈ lexicon) words).

(** The property [sentiment], reduced to its [polarity]. *)
Definition sentiment (_text : string) : Qc :=
  let words := findall_words _text in
  match words with
  | [] => 0
  | _ =>
      let pos := count_in _POS words in
      let neg := count_in _NEG words in
      Qc_of_Z (Z.of_nat pos - Z.of_nat neg)
      / Qc_of_Z (Z.max 1 (Z.of_nat (length words)))
  end.
End TextBlob.

(** [compute_polarity], with the shim standing for [TextBlob]; the shim
    raises nothing, so the [except] branch is never taken. *)
Definition compute_polarity (text : pyobj) : Qc :=
  TextBlob.sentiment (TextBlob.init (PyStr (py_str text))).

(** The fallback strategy as the specification words it, with a
    tokenizer and counts of its own.  A token is a word between two word
    boundaries: a maximal run of word characters.  [word_tokens] reads
    the text from its end: a word character joins the token that follows
    when the next character is a word character too, and opens a token of
    its own otherwise. *)
Fixpoint word_tokens (s : string) : list string :=
  match s with
  | EmptyString => []
  | String c s' =>
      if is_word_char c then
        match s' with
        | String c' _ =>
            if is_word_char c' then
              match word_tokens s' with
              | w :: ws => String c w :: ws
              | [] => [String c EmptyString]
              end
            else String c EmptyString :: word_tokens s'
        | EmptyString => [String c EmptyString]
        end
      else word_tokens s'
  end.

(** How many of the tokens are words of the lexicon. *)
Fixpoint occurrences (lexicon tokens : list string) : Z :=
  match tokens with
  | [] => 0
  | w :: ws =>
      ((if bool_decide (w ∈ lexicon) then 1 else 0) + occurrences lexicon ws)%Z
  end.

(** Tokens are classified without regard to case, each against the two
    lexicons; the polarity is
    [(pos_count - neg_count) / max(1, token_count)]. *)
Definition polarity_spec (text : string) : Qc :=
  let tokens := lower <$> word_tokens text in
  let pos_count := occurrences TextBlob._POS tokens in
  let neg_count := occurrences TextBlob._NEG tokens in
  Qc_of_Z (pos_count - neg_count)
  / Qc_of_Z (Z.max 1 (Z.of_nat (length tokens))).

(** ** Tables *)

(** A parsed date: the calendar day and the time of day. *)
Record Timestamp : Type := mkTimestamp { ts_day : Z; ts_time : Z }.

Global Instance Timestamp_eq_dec : EqDecision Timestamp.
Proof. solve_decision. Defined.

(** A row of the news file as read. *)
Record news_row : Type := NewsRow {
  date : pyobj;
  stock : pyobj;
  headline : pyobj
}.

(** A row of the daily sentiment table; a missing [Date] is NaT. *)
Record daily_sentiment : Type := DailySentiment {
  s_ticker : string;
  s_Date : option Timestamp;
  avg_sentiment : float;
  min_sentiment : float;
  max_sentiment : float;
  news_count : Z
}.

(** A row of the price file as read, and as [prepare_price_df] returns
    it.  [Other] stands for the columns the script does not look at. *)
Record raw_price_row : Type := RawPriceRow {
  r_Date : pyobj;
  r_ticker : pyobj;
  r_Close : float;
  r_Other : list float
}.

Record price_row : Type := PriceRow {
  p_ticker : string;
  p_Date : option Timestamp;
  p_Close : float;
  p_Other : list float;
  daily_return : float
}.

(** A row of the merged table: the price row and the sentiment columns
    joined to it. *)
Record merged_row : Type := MergedRow {
  m_price : price_row;
  m_avg_sentiment : float;
  m_min_sentiment : float;
  m_max_sentiment : float;
  m_news_count : Z
}.

(** An entry of [per_ticker_corr]. *)
Record corr_entry : Type := CorrEntry {
  pearson_r : option float;
  p_value : option float;
  n : nat
}.

Global Instance price_row_eq_dec : EqDecision price_row.
Proof. solve_decision. Defined.

(** Orders used by [sort_values] and by the sorted group keys. *)
Definition string_leb (a b : string) : bool := String.leb a b.

Definition Timestamp_leb (a b : Timestamp) : bool :=
  (ts_day a <? ts_day b)%Z || ((ts_day a =? ts_day b)%Z && (ts_time a <=? ts_time b)%Z).

(** NaT sorts last. *)
Definition date_leb (a b : option Timestamp) : bool :=
  match a, b with
  | Some x, Some y => Timestamp_leb x y
  | _, None => true
  | None, Some _ => false
  end.

Definition lex_leb {A B} `{EqDecision A} (lebA : A → A → bool) (lebB : B → B → bool)
    (a b : A * B) : bool :=
  if decide (a.1 = b.1) then lebB a.2 b.2 else lebA a.1 b.1.

Definition Qc_min (a b : Qc) : Qc := if decide (b < a) then b else a.

Definition Qc_min_list (qs : list Qc) : Qc :=
  match qs with [] => 0 | q :: rest => foldl Qc_min q rest end.

Definition Qc_max_list (qs : list Qc) : Qc :=
  match qs with [] => 0 | q :: rest => foldl Qc_max q rest end.

(** [Series.fillna(0)]. *)
Definition fillna0 (x : float) : float :=
  match x with NaN => Fin 0 | _ => x end.

Section pipeline.
(** The date parser of pandas on one string; [None] when the string
    cannot be parsed. *)
Variable parse_datetime : string → option Timestamp.
(** The polarity of a headline: [compute_polarity], with [TextBlob] or
    with its shim. *)
Variable polarity_of : pyobj → Qc.
(** [scipy.stats.pearsonr]: the coefficient and its p-value. *)
Variable pearsonr : list float → list float → float * float.

(** [pd.to_datetime(col, errors='coerce')] on one cell: NaT for a
    missing cell and for a string that cannot be parsed. *)
Definition to_datetime_coerce (x : pyobj) : option Timestamp :=
  match x with
  | PyStr s => parse_datetime s
  | _ => None
  end.

(** [pd.to_datetime(col)], whose default is [errors='raise']: NaT for a
    missing cell, an exception ([None]) for a string that cannot be
    parsed. *)
Definition to_datetime_cell (x : pyobj) : option (option Timestamp) :=
  match x with
  | PyStr s =>
      match parse_datetime s with
      | Some t => Some (Some t)
      | None => None
      end
  | _ => Some None
  end.

Definition to_datetime (col : list pyobj) : option (list (option Timestamp)) :=
  mapM to_datetime_cell col.

(** *** [aggregate_daily_sentiment] *)

(** The columns the function adds to a news row. *)
Record scored_news : Type := ScoredNews {
  n_row : news_row;
  n_date : option Timestamp;
  n_ticker : string;
  n_polarity : Qc;
  n_date_only : option Z
}.

(** [astype(str)] is followed as it turns a missing stock into the string
    ["nan"]; later versions of pandas leave it missing, and [groupby] then
    drops the row.  What is stated of tickers is stated for tables without
    a missing stock. *)
Definition score_news (r : news_row) : scored_news :=
  let d := to_datetime_coerce (date r) in
  {| n_row := r;
     n_date := d;
     n_ticker := upper (py_str (stock r));
     n_polarity := polarity_of (headline r);
     n_date_only := ts_day <$> d |}.

(** The key of a row in [groupby(['ticker', 'date_only'])]; a row whose
    [date_only] is NaT has none and is dropped. *)
Definition group_key (r : scored_news) : option (string * Z) :=
  (λ d, (n_ticker r, d)) <$> n_date_only r.

Definition group_keys (rows : list scored_news) : list (string * Z) :=
  sort_by id (lex_leb string_leb Z.leb) (remove_dups (omap group_key rows)).

Definition group_of (rows : list scored_news) (k : string * Z) : list scored_news :=
  filter (λ r, group_key r = Some k) rows.

(** ['count'] counts the cells that are not null. *)
Definition count_headlines (grp : list scored_news) : Z :=
  Z.of_nat (length (filter (λ r, is_null (headline (n_row r)) = false) grp)).

Definition aggregate_group (rows : list scored_news) (k : string * Z) : daily_sentiment :=
  let grp := group_of rows k in
  let pol := n_polarity <$> grp in
  {| s_ticker := k.1;
     s_Date := Some {| ts_day := k.2; ts_time := 0 |};
     avg_sentiment := Fin (mean pol);
     min_sentiment := Fin (Qc_min_list pol);
     max_sentiment := Fin (Qc_max_list pol);
     news_count := count_headlines grp |}.

Definition aggregate_daily_sentiment (news_df : list news_row) : list daily_sentiment :=
  let rows := score_news <$> news_df in
  aggregate_group rows <$> group_keys rows.

(** *** [prepare_price_df] *)

(** The close of the row before, within the same ticker. *)
Fixpoint group_pct_change (seen : list (string * float))
    (rows : list (string * float)) : list float :=
  match rows with
  | [] => []
  | (t, c) :: rest =>
      match list_find (λ e, e.1 = t) seen with
      | Some (_, (_, c0)) => fsub (fdiv c c0) (Fin 1)
      | None => NaN
      end :: group_pct_change ((t, c) :: seen) rest
  end.

Definition prepare_price_df (price_df : list raw_price_row) : option (list price_row) :=
  dates ← to_datetime (r_Date <$> price_df);
  let rows :=
    zip_with (λ r d, {| p_ticker := upper (py_str (r_ticker r));
                        p_Date := d;
                        p_Close := r_Close r;
                        p_Other := r_Other r;
                        daily_return := NaN |}) price_df dates in
  let sorted :=
    sort_by (λ r, (p_ticker r, p_Date r)) (lex_leb string_leb date_leb) rows in
  let ret := group_pct_change [] ((λ r, (p_ticker r, p_Close r)) <$> sorted) in
  Some (zip_with (λ r x, {| p_ticker := p_ticker r;
                            p_Date := p_Date r;
                            p_Close := p_Close r;
                            p_Other := p_Other r;
                            daily_return := x |}) sorted ret).

(** *** [merge_and_analyze] *)

Definition price_key (p : price_row) : string * option Timestamp :=
  (p_ticker p, p_Date p).

Definition sentiment_key (d : daily_sentiment) : string * option Timestamp :=
  (s_ticker d, s_Date d).

Definition matches (p : price_row) (sentiment_df : list daily_sentiment)
    : list daily_sentiment :=
  filter (λ d, sentiment_key d = price_key p) sentiment_df.

(** [price_df.merge(sentiment_df, on=['ticker','Date'], how='left')] for
    one price row: a row for each match, or one row without sentiment. *)
Definition left_join (p : price_row) (sentiment_df : list daily_sentiment)
    : list (price_row * option daily_sentiment) :=
  match matches p sentiment_df with
  | [] => [(p, None)]
  | ms => (λ d, (p, Some d)) <$> ms
  end.

(** The two [fillna] lines; the columns [min_sentiment] and
    [max_sentiment] keep their NaN. *)
Definition fill_row (j : price_row * option daily_sentiment) : merged_row :=
  let '(p, od) := j in
  {| m_price := p;
     m_avg_sentiment := fillna0 (from_option avg_sentiment NaN od);
     m_min_sentiment := from_option min_sentiment NaN od;
     m_max_sentiment := from_option max_sentiment NaN od;
     m_news_count := from_option news_count 0%Z od |}.

Definition merge (price_df : list price_row) (sentiment_df : list daily_sentiment)
    : list merged_row :=
  fill_row <$> (price_df ≫= λ p, left_join p sentiment_df).

(** [dropna(subset=['daily_return'])]. *)
Definition dropna_return (rows : list merged_row) : list merged_row :=
  filter (λ m, is_observation (daily_return (m_price m)) = true) rows.

Definition ticker_group (merged : list merged_row) (t : string) : list merged_row :=
  filter (λ m, p_ticker (m_price m) = t) merged.

Definition correlate (tmp : list merged_row) : corr_entry :=
  if decide (10 ≤ length tmp)%nat then
    let '(r, p) := pearsonr (m_avg_sentiment <$> tmp)
                            ((λ m, daily_return (m_price m)) <$> tmp) in
    {| pearson_r := Some r; p_value := Some p; n := length tmp |}
  else
    {| pearson_r := None; p_value := None; n := length tmp |}.

Definition per_ticker (merged : list merged_row) : list (string * corr_entry) :=
  (λ t, (t, correlate (dropna_return (ticker_group merged t))))
    <$> sort_by id string_leb (remove_dups ((λ m, p_ticker (m_price m)) <$> merged)).

Definition global_corr (merged : list merged_row) : option float * option float :=
  let g := dropna_return merged in
  if decide (10 ≤ length g)%nat then
    let '(r, p) := pearsonr (m_avg_sentiment <$> g)
                            ((λ m, daily_return (m_price m)) <$> g) in
    (Some r, Some p)
  else (None, None).

Definition merge_and_analyze (price_df : list price_row)
    (sentiment_df : list daily_sentiment)
    : list merged_row * list (string * corr_entry) * (option float * option float) :=
  let merged := merge price_df sentiment_df in
  (merged, per_ticker merged, global_corr merged).

(** *** [main], from the two tables read to the three results; [None]
    when a date of the price table ends the run in an exception.  (pandas
    also raises on a news table whose dates carry different UTC offsets;
    the model follows the runs in which the news dates parse.) *)
Definition main (news : list news_row) (prices : list raw_price_row)
    : option (list merged_row * list (string * corr_entry)
              * (option float * option float)) :=
  let sentiment_daily := aggregate_daily_sentiment news in
  prices_prepared ← prepare_price_df prices;
  Some (merge_and_analyze prices_prepared sentiment_daily).
End pipeline.

(** ** A date parser and sample tables

    pandas accepts many date formats; [iso_date] reads the one format
    [YYYY-MM-DD] and stands for the parser where a concrete table is run. *)

Definition digit (c : ascii) : option Z :=
  if in_range 48 57 c then Some (Z.of_N (N_of_ascii c) - 48)%Z else None.

Definition is_leap (y : Z) : bool :=
  ((y mod 4 =? 0) && (negb (y mod 100 =? 0) || (y mod 400 =? 0)))%Z.

Definition days_in_month (y m : Z) : Z :=
  if (m =? 2)%Z then (if is_leap y then 29 else 28)%Z
  else if ((m =? 4) || (m =? 6) || (m =? 9) || (m =? 11))%Z then 30%Z
  else 31%Z.

(** Days since 1970-01-01 of a date of the Gregorian calendar. *)
Definition days_from_civil (y m d : Z) : Z :=
  let y' := (if (m <=? 2)%Z then y - 1 else y)%Z in
  let era := (y' / 400)%Z in
  let yoe := (y' - era * 400)%Z in
  let mp := (if (2 <? m)%Z then m - 3 else m + 9)%Z in
  let doy := ((153 * mp + 2) / 5 + d - 1)%Z in
  let doe := (yoe * 365 + yoe / 4 - yoe / 100 + doy)%Z in
  (era * 146097 + doe - 719468)%Z.

Definition iso_date (s : string) : option Timestamp :=
  match s with
  | String y1 (String y2 (String y3 (String y4 (String "-"
      (String m1 (String m2 (String "-" (String d1 (String d2 EmptyString))))))))) =>
      a ← digit y1; b ← digit y2; c ← digit y3; e ← digit y4;
      f ← digit m1; g ← digit m2; h ← digit d1; i ← digit d2;
      let y := (1000 * a + 100 * b + 10 * c + e)%Z in
      let m := (10 * f + g)%Z in
      let d := (10 * h + i)%Z in
      if ((1 <=? m) && (m <=? 12) && (1 <=? d) && (d <=? days_in_month y m))%Z
      then Some {| ts_day := days_from_civil y m d; ts_time := 0 |}
      else None
  | _ => None
  end.

(** A constant in place of [pearsonr], for running a concrete table. *)
Definition pearsonr_const (xs ys : list float) : float * float := (Fin 0, Fin 1).

(** The same, but NaN on fewer than 10 pairs. *)
Definition pearsonr_guarded (xs ys : list float) : float * float :=
  if decide (10 ≤ length xs)%nat then (Fin 0, Fin 1) else (NaN, NaN).

Definition sample_news : list news_row :=
  [ NewsRow (PyStr "2020-01-02") (PyStr "aapl") (PyStr "Strong growth and profit gain");
    NewsRow (PyStr "2020-01-02") (PyStr "AAPL") (PyStr "weak quarter, shares drop");
    NewsRow (PyStr "someday") (PyStr "AAPL") (PyStr "bad loss");
    NewsRow (PyStr "2020-01-03") (PyStr "MSFT") (PyStr "a good day") ].

(** The daily table of [sample_news], with the shim as scorer. *)
Definition sample_sentiment : list daily_sentiment :=
  aggregate_daily_sentiment iso_date compute_polarity sample_news.

(** One news item, its headline cell empty. *)
Definition news_without_headline : list news_row :=
  [ NewsRow (PyStr "2020-01-02") (PyStr "AAPL") PyNaN ].

Definition sample_prices : list raw_price_row :=
  [ RawPriceRow (PyStr "2020-01-03") (PyStr "aapl") (float_of_Z 110) [];
    RawPriceRow (PyStr "2020-01-02") (PyStr "AAPL") (float_of_Z 100) [];
    RawPriceRow (PyStr "2020-01-03") (PyStr "MSFT") (float_of_Z 50) [];
    RawPriceRow (PyStr "2020-01-06") (PyStr "MSFT") (float_of_Z 55) [] ].

(** The same price table with one date that cannot be parsed. *)
Definition prices_with_bad_date : list raw_price_row :=
  [ RawPriceRow (PyStr "2020-01-02") (PyStr "AAPL") (float_of_Z 100) [];
    RawPriceRow (PyStr "2020-13-45") (PyStr "AAPL") (float_of_Z 110) [] ].

(** Prepared price rows of one ticker: [k] rows from day [d] on, each with
    a return. *)
Definition daily_rows (t : string) (d : Z) (k : nat) : list price_row :=
  (λ i, {| p_ticker := t;
           p_Date := Some {| ts_day := d + Z.of_nat i; ts_time := 0 |};
           p_Close := float_of_Z 100; p_Other := [];
           daily_return := Fin 0 |}) <$> seq 0 k.

(** * [rsi_wilder] within the range of doubles

    [float] has no largest and no smallest number; an IEEE double has both.
    A result whose magnitude reaches [2^1024 - 2^970] overflows to an
    infinity, and one whose magnitude is at most [2^-1075] underflows to
    zero.  [Double] holds the arithmetic with these two limits and, over
    it, [rsi_wilder] once more, line by line as above.  Rounding inside
    the range is not represented here either. *)

Module Double.
Definition huge : Qc := Qc_of_Z (2 ^ 1024 - 2 ^ 970)%Z.
Definition tiny : Qc := / Qc_of_Z (2 ^ 1075)%Z.

Definition Qc_abs (q : Qc) : Qc := if decide (q < 0) then - q else q.

(** What becomes of an exact result when it is stored in a double. *)
Definition fit (x : float) : float :=
  match x with
  | Fin q =>
      if decide (huge ≤ Qc_abs q) then signed_inf q
      else if decide (Qc_abs q ≤ tiny) then Fin 0
      else x
  | _ => x
  end.

Definition add (x y : float) : float := fit (fadd x y).
Definition sub (x y : float) : float := fit (fsub x y).
Definition mul (x y : float) : float := fit (fmul x y).
Definition div (x y : float) : float := fit (fdiv x y).

(** [Series.diff()]. *)
Definition diff (xs : list float) : list float :=
  imap (fun i x => match i with
                   | O => NaN
                   | S j => sub x (default NaN (xs !! j))
                   end) xs.

(** [Series.rolling(window=w, min_periods=minp).mean()]: the observations
    of the window are added up from the oldest to the newest, and the sum
    is divided by their number.  (pandas carries the sum from one window
    to the next; of the means only the one at [period], whose window is
    the first full one, reaches the result of [rsi_wilder].) *)
Definition rolling_mean (w minp : nat) (xs : list float) : list float :=
  imap (fun i _ =>
          let obs := omap finite (window w i xs) in
          if decide (minp ≤ length obs ∧ 0 < length obs)%nat
          then div (foldl add (Fin 0) (Fin <$> obs)) (float_of_nat (length obs))
          else NaN) xs.

Definition wilder_next (period : nat) (col : list float)
    (prev : float) (avg : list float) (i : nat) : float :=
  if decide (i = period) then default NaN (avg !! i)
  else div (add (mul prev (float_of_Z (Z.of_nat period - 1)))
                (default NaN (col !! i)))
           (float_of_nat period).

Definition wilder_step (period : nat) (gain loss : list float)
    (st : wilder_state) (i : nat) : wilder_state :=
  let pg := wilder_next period gain (prev_gain st) (avg_gain st) i in
  let pl := wilder_next period loss (prev_loss st) (avg_loss st) i in
  {| prev_gain := pg; prev_loss := pl;
     avg_gain := <[i := pg]> (avg_gain st);
     avg_loss := <[i := pl]> (avg_loss st) |}.

Definition wilder_averages (series : list float) (period : nat) : wilder_state :=
  let delta := diff series in
  let gain := clip_lower0 <$> delta in
  let loss := fneg <$> (clip_upper0 <$> delta) in
  let st0 := {| prev_gain := NaN; prev_loss := NaN;
                avg_gain := rolling_mean period period gain;
                avg_loss := rolling_mean period period loss |} in
  foldl (wilder_step period gain loss) st0
        (seq period (length series - period)).

Definition rsi_of_rs (rs : float) : float :=
  sub (float_of_Z 100) (div (float_of_Z 100) (add (Fin 1) rs)).

Definition rsi_of (ag al : float) : float := rsi_of_rs (div ag al).

Definition rsi_wilder (series : list float) (period : nat) : list float :=
  let st := wilder_averages series period in
  zip_with rsi_of (avg_gain st) (avg_loss st).
End Double.

Global Arguments Double.huge : simpl never.
Global Arguments Double.tiny : simpl never.
Global Arguments Double.fit : simpl never.

(** A value that the range of doubles leaves as it is. *)
Definition fits (x : float) : Prop := Double.fit x = x.

Global Instance fits_dec x : Decision (fits x).
Proof. unfold fits. apply _. Defined.

(** The intermediate results of Wilder's method at index [t] of a series
    of closes, in exact arithmetic: the difference of the closes; up to
    index 14 the running sums of the gains and of the losses; after 14 the
    products by 13 and the sums of the two updates; from 14 on the two
    averages, their ratio [rs], [1 + rs], [100 / (1 + rs)] and the index
    itself. *)
Definition steps (closes : list Qc) (t : nat) : list float :=
  let g := gain_at closes in
  let l := loss_at closes in
  (if decide (1 ≤ t)%nat then [Fin (delta_at closes t)] else []) ++
  (if decide (1 ≤ t ≤ 14)%nat
   then [Fin (Qc_sum (g <$> seq 1 t)); Fin (Qc_sum (l <$> seq 1 t))]
   else []) ++
  (if decide (14 < t)%nat
   then [Fin (wilder_avg g (t - 15) * Qc_of_Z 13);
         Fin (wilder_avg g (t - 15) * Qc_of_Z 13 + g t);
         Fin (wilder_avg l (t - 15) * Qc_of_Z 13);
         Fin (wilder_avg l (t - 15) * Qc_of_Z 13 + l t)]
   else []) ++
  (if decide (14 ≤ t)%nat
   then let ag := Fin (wilder_avg g (t - 14)) in
        let al := Fin (wilder_avg l (t - 14)) in
        let rs := fdiv ag al in
        [ag; al; rs; fadd (Fin 1) rs;
         fdiv (float_of_Z 100) (fadd (Fin 1) rs);
         fsub (float_of_Z 100) (fdiv (float_of_Z 100) (fadd (Fin 1) rs))]
   else []).

(** A series on which every intermediate result stays within the range
    of doubles. *)
Definition within_double_range (closes : list Qc) : Prop :=
  Forall (λ t, Forall fits (steps closes t)) (seq 0 (length closes)).

(** The closes [1e308, -1e308, 0, ..., 0]: the first difference is beyond
    the range of doubles. *)
Definition overflowing_closes : list Qc :=
  Qc_of_Z (10 ^ 308)%Z :: Qc_of_Z (- 10 ^ 308)%Z :: replicate 14 (Qc_of_Z 0).

(** * Notions used by the further properties *)

(** A rise and a fall somewhere up to index [t]. *)
Definition rises_upto (closes : list Qc) (t : nat) : Prop :=
  ∃ j, (j < t)%nat ∧ close_at closes j < close_at closes (S j).

Definition falls_upto (closes : list Qc) (t : nat) : Prop :=
  ∃ j, (j < t)%nat ∧ close_at closes (S j) < close_at closes j.

(** The sum of a column of integers. *)
Definition Z_sum (l : list Z) : Z := foldr Z.add 0%Z l.

(** A cell that holds a string of ASCII characters: a ticker on which
    [upper] is the upper-casing of Python without exception, and which
    every version of pandas keeps as the string it is ([astype(str)] makes
    the string ["nan"] of a missing cell in some versions and leaves it
    missing in others). *)
Definition is_ascii_str (x : pyobj) : bool :=
  match x with
  | PyStr s => forallb (λ c, (N_of_ascii c <? 128)%N) (list_ascii_of_string s)
  | _ => false
  end.

(** * Facts and claims on [scripts/prepare_indicators.py] *)

(** ** Facts about columns *)

Lemma length_diff xs : length (diff xs) = length xs.
Proof. apply length_imap. Qed.

Lemma length_pct_change xs : length (pct_change xs) = length xs.
Proof. apply length_imap. Qed.

Lemma length_rolling_mean w m xs : length (rolling_mean w m xs) = length xs.
Proof. apply length_imap. Qed.

Lemma length_observed qs : length (observed qs) = length qs.
Proof. apply length_fmap. Qed.

Lemma lookup_observed qs i : observed qs !! i = Fin <$> qs !! i.
Proof. apply list_lookup_fmap. Qed.

Lemma lookup_diff_0 x xs : diff (x :: xs) !! 0%nat = Some NaN.
Proof. reflexivity. Qed.

Lemma lookup_diff_S xs j a b :
  xs !! j = Some a → xs !! S j = Some b → diff xs !! S j = Some (fsub b a).
Proof.
  intros Ha Hb. unfold diff. rewrite list_lookup_imap, Hb. simpl. by rewrite Ha.
Qed.

Lemma lookup_pct_change_S xs j a b :
  xs !! j = Some a → xs !! S j = Some b →
  pct_change xs !! S j = Some (fsub (fdiv b a) (Fin 1)).
Proof.
  intros Ha Hb. unfold pct_change. rewrite list_lookup_imap, Hb. simpl. by rewrite Ha.
Qed.

Lemma lookup_rolling_mean w m xs i :
  (i < length xs)%nat →
  rolling_mean w m xs !! i =
    Some (let obs := omap finite (window w i xs) in
          if decide (m ≤ length obs ∧ 0 < length obs)%nat
          then Fin (Qc_sum obs / Qc_of_nat (length obs))
          else NaN).
Proof.
  intros Hi. unfold rolling_mean. rewrite list_lookup_imap.
  destruct (lookup_lt_is_Some_2 xs i Hi) as [x ->]. reflexivity.
Qed.

Lemma length_window {A} w i (xs : list A) :
  (i < length xs)%nat → length (window w i xs) = Nat.min w (S i).
Proof. intros Hi. unfold window. rewrite length_drop, length_take. lia. Qed.

Lemma length_omap_le {A B} (f : A → option B) l : (length (omap f l) ≤ length l)%nat.
Proof. induction l as [|a l IH]; csimpl; [lia|]. destruct (f a); simpl; lia. Qed.

Lemma omap_finite_observed qs : omap finite (observed qs) = qs.
Proof. induction qs as [|q qs IH]; csimpl; [done|]. by rewrite IH. Qed.

(** A window that holds a NaN has fewer observations than entries. *)
Lemma length_omap_finite_NaN l :
  NaN ∈ l → (length (omap finite l) < length l)%nat.
Proof.
  induction l as [|x l IH]; intros Hin; [by apply elem_of_nil in Hin|].
  apply elem_of_cons in Hin as [<- | Hin]; csimpl.
  - pose proof (length_omap_le finite l). lia.
  - specialize (IH Hin). destruct (finite x); simpl; lia.
Qed.

(** A short window, or one with a NaN in it, gives no mean. *)
Lemma rolling_mean_short w xs i :
  (i < length xs)%nat → (S i < w)%nat → rolling_mean w w xs !! i = Some NaN.
Proof.
  intros Hi Hw. rewrite lookup_rolling_mean by done. simpl.
  pose proof (length_omap_le finite (window w i xs)).
  rewrite length_window in H by done.
  case_decide; [lia | done].
Qed.

Lemma rolling_mean_NaN w xs i :
  (i < length xs)%nat → NaN ∈ window w i xs → rolling_mean w w xs !! i = Some NaN.
Proof.
  intros Hi Hin. rewrite lookup_rolling_mean by done. simpl.
  apply length_omap_finite_NaN in Hin.
  rewrite length_window in Hin by done.
  case_decide; [lia | done].
Qed.

(** A full window of finite values gives their arithmetic mean. *)
Lemma rolling_mean_full w xs i qs :
  (0 < w)%nat → (i < length xs)%nat → window w i xs = observed qs →
  length qs = w →
  rolling_mean w w xs !! i = Some (Fin (Qc_sum qs / Qc_of_nat w)).
Proof.
  intros Hw Hi Hwin Hlen. rewrite lookup_rolling_mean by done. simpl.
  rewrite Hwin, omap_finite_observed, Hlen.
  case_decide; [done | lia].
Qed.

(** ** The loop of [rsi_wilder] *)

Section wilder_loop.
Variables (period : nat) (col avg0 : list float).

Lemma col_inv_0 prev : col_inv period col avg0 0 prev avg0.
Proof.
  split; [done|]. split; [|discriminate].
  intros j. case_decide; [lia | done].
Qed.

Lemma col_inv_S n prev avg :
  (period + n < length avg0)%nat →
  col_inv period col avg0 n prev avg →
  let v := wilder_next period col prev avg (period + n) in
  col_inv period col avg0 (S n) v (<[(period + n)%nat := v]> avg).
Proof.
  intros Hlen (Hl & Hlk & Hprev) v.
  assert (Hv : v = wilder_rec period col avg0 n).
  { subst v. unfold wilder_next. destruct n as [|k].
    - rewrite Nat.add_0_r. rewrite decide_True by done.
      rewrite Hlk. rewrite decide_False by lia. done.
    - rewrite decide_False by lia. rewrite (Hprev k eq_refl). done. }
  split; [by rewrite length_insert|]. split.
  - intros j. destruct (decide (j = period + n)%nat) as [->|Hne].
    + rewrite list_lookup_insert_eq by lia.
      rewrite decide_True by lia. rewrite Hv. f_equal. f_equal. lia.
    + rewrite list_lookup_insert_ne by done. rewrite Hlk.
      repeat case_decide; try lia; done.
  - intros k [= <-]. done.
Qed.
End wilder_loop.

Lemma wilder_loop_inv period gain loss st0 n :
  (period + n ≤ length (avg_gain st0))%nat →
  (period + n ≤ length (avg_loss st0))%nat →
  let st := foldl (wilder_step period gain loss) st0 (seq period n) in
  col_inv period gain (avg_gain st0) n (prev_gain st) (avg_gain st) ∧
  col_inv period loss (avg_loss st0) n (prev_loss st) (avg_loss st).
Proof.
  induction n as [|n IH]; intros Hg Hl st; subst st.
  - split; apply col_inv_0.
  - rewrite seq_S, foldl_app. simpl.
    destruct IH as [IHg IHl]; [lia | lia |].
    split; apply col_inv_S; (lia || done).
Qed.

(** The columns after the loop: untouched below [period], unrolled from
    there on. *)
Lemma wilder_averages_lookup series period j :
  let delta := diff series in
  let gain := clip_lower0 <$> delta in
  let loss := fneg <$> (clip_upper0 <$> delta) in
  let st := wilder_averages series period in
  avg_gain st !! j =
    (if decide (period ≤ j < length series)%nat
     then Some (wilder_rec period gain (rolling_mean period period gain) (j - period))
     else rolling_mean period period gain !! j) ∧
  avg_loss st !! j =
    (if decide (period ≤ j < length series)%nat
     then Some (wilder_rec period loss (rolling_mean period period loss) (j - period))
     else rolling_mean period period loss !! j).
Proof.
  intros delta gain loss st.
  assert (Hlg : length (rolling_mean period period gain) = length series).
  { rewrite length_rolling_mean. unfold gain, delta.
    by rewrite length_fmap, length_diff. }
  assert (Hll : length (rolling_mean period period loss) = length series).
  { rewrite length_rolling_mean. unfold loss, delta.
    by rewrite !length_fmap, length_diff. }
  destruct (decide (period ≤ length series)%nat) as [Hp|Hp].
  - destruct (wilder_loop_inv period gain loss
                {| prev_gain := NaN; prev_loss := NaN;
                   avg_gain := rolling_mean period period gain;
                   avg_loss := rolling_mean period period loss |}
                (length series - period)) as [(_ & Hg & _) (_ & Hl & _)];
      simpl; [lia | lia |].
    simpl in Hg, Hl. subst st. unfold wilder_averages.
    fold delta. fold gain. fold loss. rewrite Hg, Hl.
    split; repeat case_decide; try lia; done.
  - subst st. unfold wilder_averages.
    replace (length series - period)%nat with 0%nat by lia. simpl.
    rewrite !decide_False by lia. done.
Qed.

Lemma length_wilder_averages series period :
  length (avg_gain (wilder_averages series period)) = length series ∧
  length (avg_loss (wilder_averages series period)) = length series.
Proof.
  set (delta := diff series).
  set (gain := clip_lower0 <$> delta).
  set (loss := fneg <$> (clip_upper0 <$> delta)).
  assert (Hlg : length (rolling_mean period period gain) = length series).
  { rewrite length_rolling_mean. unfold gain, delta.
    by rewrite length_fmap, length_diff. }
  assert (Hll : length (rolling_mean period period loss) = length series).
  { rewrite length_rolling_mean. unfold loss, delta.
    by rewrite !length_fmap, length_diff. }
  destruct (decide (period ≤ length series)%nat) as [Hp|Hp].
  - destruct (wilder_loop_inv period gain loss
                {| prev_gain := NaN; prev_loss := NaN;
                   avg_gain := rolling_mean period period gain;
                   avg_loss := rolling_mean period period loss |}
                (length series - period)) as [(Hg & _) (Hl & _)];
      simpl; [lia | lia |].
    simpl in Hg, Hl. unfold wilder_averages.
    fold delta. fold gain. fold loss. by rewrite Hg, Hl.
  - unfold wilder_averages.
    replace (length series - period)%nat with 0%nat by lia. done.
Qed.

Lemma length_rsi_wilder series period :
  length (rsi_wilder series period) = length series.
Proof.
  unfold rsi_wilder. rewrite length_zip_with.
  destruct (length_wilder_averages series period) as [-> ->]. lia.
Qed.

(** ** Gains and losses of a series of observed closes *)

Lemma Qc_of_Z_neq_0 z : z ≠ 0%Z → Qc_of_Z z ≠ 0.
Proof. rewrite <- Z2Qc_inj_0. intros Hz Heq. by apply Z2Qc_inj in Heq. Qed.

Section observed_closes.
Variable closes : list Qc.

Let series := observed closes.
Let delta := diff series.
Let gain := clip_lower0 <$> delta.
Let loss := fneg <$> (clip_upper0 <$> delta).

Lemma delta_lookup_0 : (0 < length closes)%nat → delta !! 0%nat = Some NaN.
Proof.
  unfold delta, series. destruct closes; simpl; [lia | done].
Qed.

Lemma delta_lookup_S t :
  (S t < length closes)%nat →
  delta !! S t = Some (Fin (delta_at closes (S t))).
Proof.
  intros Ht.
  destruct (lookup_lt_is_Some_2 closes t) as [a Ha]; [lia|].
  destruct (lookup_lt_is_Some_2 closes (S t)) as [b Hb]; [lia|].
  unfold delta. rewrite (lookup_diff_S _ t (Fin a) (Fin b)).
  - unfold delta_at, close_at. simpl. rewrite Nat.sub_0_r, Ha, Hb. done.
  - unfold series. by rewrite lookup_observed, Ha.
  - unfold series. by rewrite lookup_observed, Hb.
Qed.

Lemma gain_lookup_0 : (0 < length closes)%nat → gain !! 0%nat = Some NaN.
Proof. intros H. unfold gain. by rewrite list_lookup_fmap, delta_lookup_0. Qed.

Lemma loss_lookup_0 : (0 < length closes)%nat → loss !! 0%nat = Some NaN.
Proof. intros H. unfold loss. by rewrite !list_lookup_fmap, delta_lookup_0. Qed.

Lemma gain_lookup_S t :
  (S t < length closes)%nat → gain !! S t = Some (Fin (gain_at closes (S t))).
Proof.
  intros Ht. unfold gain. rewrite list_lookup_fmap, delta_lookup_S by done.
  simpl. unfold gain_at, Qc_max. by case_decide.
Qed.

Lemma loss_lookup_S t :
  (S t < length closes)%nat → loss !! S t = Some (Fin (loss_at closes (S t))).
Proof.
  intros Ht. unfold loss. rewrite !list_lookup_fmap, delta_lookup_S by done.
  simpl. unfold loss_at, Qc_max.
  assert (Hiff : 0 < delta_at closes (S t) ↔ - delta_at closes (S t) < 0).
  { rewrite (Qclt_minus_iff (- _) 0), Qcopp_involutive, Qcplus_0_l. done. }
  repeat case_decide; simpl; try tauto; done.
Qed.

Lemma length_gain : length gain = length closes.
Proof.
  unfold gain, delta, series.
  by rewrite length_fmap, length_diff, length_observed.
Qed.

Lemma length_loss : length loss = length closes.
Proof.
  unfold loss, delta, series.
  by rewrite !length_fmap, length_diff, length_observed.
Qed.
End observed_closes.

(** ** A column that is NaN at 0 and finite afterwards *)

Lemma fmul_Fin a b : fmul (Fin a) (Fin b) = Fin (a * b).
Proof. done. Qed.

Lemma fadd_Fin a b : fadd (Fin a) (Fin b) = Fin (a + b).
Proof. done. Qed.

Lemma fsub_Fin a b : fsub (Fin a) (Fin b) = Fin (a - b).
Proof. done. Qed.

Lemma fdiv_Fin a b : b ≠ 0 → fdiv (Fin a) (Fin b) = Fin (a / b).
Proof. intros Hb. unfold fdiv. by rewrite decide_False. Qed.

Lemma rsi_of_NaN al : rsi_of NaN al = NaN.
Proof. done. Qed.

Section finite_column.
Variables (col : list float) (x : nat → Qc).
Hypothesis col_0 : (0 < length col)%nat → col !! 0%nat = Some NaN.
Hypothesis col_S :
  ∀ t, (S t < length col)%nat → col !! S t = Some (Fin (x (S t))).

(** The first 14 means are undefined: their windows reach back to the
    NaN at index 0. *)
Lemma rolling_mean_warmup t :
  (t < 14)%nat → (t < length col)%nat →
  rolling_mean 14 14 col !! t = Some NaN.
Proof.
  intros Ht Hlen. apply rolling_mean_NaN; [done|].
  unfold window. replace (S t - 14)%nat with 0%nat by lia. simpl.
  apply elem_of_take. exists 0%nat. split; [apply col_0|]; lia.
Qed.

Lemma window_finite i :
  (14 ≤ i)%nat → (i < length col)%nat →
  window 14 i col = observed (x <$> seq (i - 13) 14).
Proof.
  intros Hi Hlen. unfold window, observed. apply list_eq. intros k.
  rewrite lookup_drop, !list_lookup_fmap.
  destruct (decide (k < 14)%nat) as [Hk|Hk].
  - rewrite lookup_take_lt by lia. rewrite lookup_seq_lt by done.
    replace (S i - 14 + k)%nat with (S (i - 14 + k)) by lia.
    rewrite col_S by lia. simpl. do 3 f_equal. lia.
  - rewrite lookup_take_ge by lia. rewrite lookup_seq_ge by lia. done.
Qed.

(** The seed: the simple mean over indices 1..14. *)
Lemma rolling_mean_seed :
  (14 < length col)%nat →
  rolling_mean 14 14 col !! 14%nat =
    Some (Fin (Qc_sum (x <$> seq 1 14) / Qc_of_Z 14)).
Proof.
  intros Hlen.
  rewrite (rolling_mean_full 14 col 14 (x <$> seq 1 14)); try done; [lia|].
  by rewrite window_finite.
Qed.

Lemma wilder_rec_finite k :
  (14 + k < length col)%nat →
  wilder_rec 14 col (rolling_mean 14 14 col) k = Fin (wilder_avg x k).
Proof.
  induction k as [|k IH]; intros Hlen.
  - simpl. rewrite rolling_mean_seed by lia. done.
  - cbn [wilder_rec wilder_avg]. rewrite IH by lia.
    change (14 + S k)%nat with (S (13 + S k)).
    rewrite col_S by lia. cbn [default from_option id].
    change (float_of_Z (Z.of_nat 14 - 1)) with (Fin (Qc_of_Z 13)).
    change (float_of_nat 14) with (Fin (Qc_of_Z 14)).
    rewrite fmul_Fin, fadd_Fin, fdiv_Fin; [done|].
    by apply Qc_of_Z_neq_0.
Qed.
End finite_column.

(** The two average columns of [rsi_wilder] on observed closes. *)
Lemma wilder_averages_observed closes t :
  (t < length closes)%nat →
  let st := wilder_averages (observed closes) 14 in
  avg_gain st !! t =
    Some (if decide (t < 14)%nat then NaN
          else Fin (wilder_avg (gain_at closes) (t - 14))) ∧
  avg_loss st !! t =
    Some (if decide (t < 14)%nat then NaN
          else Fin (wilder_avg (loss_at closes) (t - 14))).
Proof.
  intros Ht st.
  destruct (wilder_averages_lookup (observed closes) 14 t) as [Hg Hl].
  fold st in Hg, Hl. rewrite Hg, Hl. rewrite length_observed.
  pose proof (length_gain closes) as Hlg.
  pose proof (length_loss closes) as Hll.
  destruct (decide (t < 14)%nat) as [Hlt|Hge].
  - rewrite !decide_False by lia. split.
    + apply rolling_mean_warmup; [|done|by rewrite Hlg].
      intros _. apply gain_lookup_0. clear -Ht. lia.
    + apply rolling_mean_warmup; [|done|by rewrite Hll].
      intros _. apply loss_lookup_0. clear -Ht. lia.
  - rewrite !decide_True by lia. split; f_equal.
    + apply wilder_rec_finite.
      * intros _. apply gain_lookup_0. clear -Ht. lia.
      * intros u Hu. apply gain_lookup_S. by rewrite <- Hlg.
      * rewrite Hlg. clear -Ht Hge. lia.
    + apply wilder_rec_finite.
      * intros _. apply loss_lookup_0. clear -Ht. lia.
      * intros u Hu. apply loss_lookup_S. by rewrite <- Hll.
      * rewrite Hll. clear -Ht Hge. lia.
Qed.

Lemma rsi_wilder_observed closes t :
  (t < length closes)%nat →
  rsi_wilder (observed closes) 14 !! t = Some (rsi_spec closes t).
Proof.
  intros Ht. unfold rsi_wilder. rewrite lookup_zip_with.
  destruct (wilder_averages_observed closes t Ht) as [-> ->]. simpl.
  unfold rsi_spec. by case_decide.
Qed.

(** *** Within the range of doubles *)

Lemma range_at closes t x :
  within_double_range closes → (t < length closes)%nat →
  x ∈ steps closes t → fits x.
Proof.
  intros H Ht Hx. unfold within_double_range in H.
  rewrite Forall_forall in H.
  assert (Hall : Forall fits (steps closes t)) by (apply H, elem_of_seq; lia).
  rewrite Forall_forall in Hall. by apply Hall.
Qed.

Lemma steps_delta closes t :
  (1 ≤ t)%nat → Fin (delta_at closes t) ∈ steps closes t.
Proof.
  intros Ht. unfold steps. rewrite (decide_True (P := (1 ≤ t)%nat)) by done.
  apply elem_of_app. left. apply list_elem_of_here.
Qed.

Lemma steps_sums closes t :
  (1 ≤ t ≤ 14)%nat →
  Fin (Qc_sum (gain_at closes <$> seq 1 t)) ∈ steps closes t ∧
  Fin (Qc_sum (loss_at closes <$> seq 1 t)) ∈ steps closes t.
Proof.
  intros Ht. unfold steps. cbv zeta.
  rewrite (decide_True (P := (1 ≤ t ≤ 14)%nat)) by done.
  rewrite !elem_of_app, !elem_of_cons. tauto.
Qed.

Lemma steps_update closes k :
  let t := (14 + S k)%nat in
  Fin (wilder_avg (gain_at closes) k * Qc_of_Z 13) ∈ steps closes t ∧
  Fin (wilder_avg (gain_at closes) k * Qc_of_Z 13 + gain_at closes t)
    ∈ steps closes t ∧
  Fin (wilder_avg (loss_at closes) k * Qc_of_Z 13) ∈ steps closes t ∧
  Fin (wilder_avg (loss_at closes) k * Qc_of_Z 13 + loss_at closes t)
    ∈ steps closes t.
Proof.
  intros t. unfold steps. cbv zeta.
  rewrite (decide_True (P := (14 < t)%nat)) by (unfold t; lia).
  replace (t - 15)%nat with k by (unfold t; lia).
  rewrite !elem_of_app, !elem_of_cons. tauto.
Qed.

Lemma steps_rsi closes t :
  (14 ≤ t)%nat →
  let ag := Fin (wilder_avg (gain_at closes) (t - 14)) in
  let al := Fin (wilder_avg (loss_at closes) (t - 14)) in
  let rs := fdiv ag al in
  ag ∈ steps closes t ∧ al ∈ steps closes t ∧ rs ∈ steps closes t ∧
  fadd (Fin 1) rs ∈ steps closes t ∧
  fdiv (float_of_Z 100) (fadd (Fin 1) rs) ∈ steps closes t ∧
  fsub (float_of_Z 100) (fdiv (float_of_Z 100) (fadd (Fin 1) rs))
    ∈ steps closes t.
Proof.
  intros Ht ag al rs. unfold steps. cbv zeta.
  rewrite (decide_True (P := (14 ≤ t)%nat)) by done.
  fold ag. fold al. fold rs.
  rewrite !elem_of_app, !elem_of_cons. tauto.
Qed.

Lemma Qc_sum_snoc (qs : list Qc) (a : Qc) : Qc_sum (qs ++ [a]) = Qc_sum qs + a.
Proof.
  induction qs as [|q qs IH]; csimpl; [ring|]. rewrite IH. ring.
Qed.

(** The running sum of a window, as long as it stays in the range. *)
Lemma foldl_add_fits (x : nat → Qc) (n : nat) :
  (∀ k, (1 ≤ k ≤ n)%nat → fits (Fin (Qc_sum (x <$> seq 1 k)))) →
  foldl Double.add (Fin 0) (Fin <$> (x <$> seq 1 n)) =
  Fin (Qc_sum (x <$> seq 1 n)).
Proof.
  induction n as [|n IH]; intros H; [done|].
  rewrite seq_S, !fmap_app, foldl_app, IH by (intros k Hk; apply H; lia).
  cbn [fmap list_fmap foldl]. unfold Double.add. rewrite fadd_Fin.
  rewrite <- Qc_sum_snoc.
  change [x (1 + n)%nat] with (x <$> [(1 + n)%nat]). rewrite <- fmap_app, <- seq_S.
  apply H. lia.
Qed.

Section double_column.
Variables (col : list float) (x : nat → Qc).
Hypothesis col_0 : (0 < length col)%nat → col !! 0%nat = Some NaN.
Hypothesis col_S :
  ∀ t, (S t < length col)%nat → col !! S t = Some (Fin (x (S t))).
Hypothesis sums_fit :
  ∀ k, (1 ≤ k ≤ 14)%nat → fits (Fin (Qc_sum (x <$> seq 1 k))).
Hypothesis avg_fit :
  ∀ k, (14 + k < length col)%nat → fits (Fin (wilder_avg x k)).
Hypothesis update_fit :
  ∀ k, (14 + S k < length col)%nat →
       fits (Fin (wilder_avg x k * Qc_of_Z 13)) ∧
       fits (Fin (wilder_avg x k * Qc_of_Z 13 + x (14 + S k)%nat)).

Lemma Double_rolling_mean_warmup t :
  (t < 14)%nat → (t < length col)%nat →
  Double.rolling_mean 14 14 col !! t = Some NaN.
Proof.
  intros Ht Hlen. unfold Double.rolling_mean. rewrite list_lookup_imap.
  destruct (lookup_lt_is_Some_2 col t Hlen) as [v ->]. simpl. f_equal.
  assert (Hin : NaN ∈ window 14 t col).
  { unfold window. replace (S t - 14)%nat with 0%nat by lia. simpl.
    apply elem_of_take. exists 0%nat. split; [apply col_0|]; lia. }
  apply length_omap_finite_NaN in Hin. rewrite length_window in Hin by done.
  case_decide; [lia|done].
Qed.

Lemma Double_rolling_mean_seed :
  (14 < length col)%nat →
  Double.rolling_mean 14 14 col !! 14%nat = Some (Fin (wilder_avg x 0)).
Proof.
  intros Hlen. unfold Double.rolling_mean. rewrite list_lookup_imap.
  destruct (lookup_lt_is_Some_2 col 14 Hlen) as [v ->]. simpl. f_equal.
  rewrite (window_finite col x col_0 col_S 14) by (done || lia).
  change (14 - 13)%nat with 1%nat.
  rewrite omap_finite_observed, length_fmap, length_seq.
  rewrite decide_True by lia.
  rewrite foldl_add_fits by done.
  unfold Double.div. change (float_of_nat 14) with (Fin (Qc_of_Z 14)).
  rewrite fdiv_Fin by (by apply Qc_of_Z_neq_0).
  apply (avg_fit 0). lia.
Qed.

Lemma wilder_rec_seeded avg0 k :
  avg0 !! 14%nat = Some (Fin (wilder_avg x 0)) →
  (14 + k < length col)%nat →
  wilder_rec 14 col avg0 k = Fin (wilder_avg x k).
Proof.
  intros Hseed. induction k as [|k IH]; intros Hlen.
  - simpl. by rewrite Hseed.
  - cbn [wilder_rec wilder_avg]. rewrite IH by lia.
    change (14 + S k)%nat with (S (13 + S k)).
    rewrite col_S by lia. cbn [default from_option id].
    change (float_of_Z (Z.of_nat 14 - 1)) with (Fin (Qc_of_Z 13)).
    change (float_of_nat 14) with (Fin (Qc_of_Z 14)).
    rewrite fmul_Fin, fadd_Fin, fdiv_Fin; [done|].
    by apply Qc_of_Z_neq_0.
Qed.

(** Within the range one pass of the loop gives what it gives in exact
    arithmetic. *)
Lemma Double_wilder_next n prev avg :
  (14 + n < length col)%nat →
  (∀ k, n = S k → prev = Fin (wilder_avg x k)) →
  Double.wilder_next 14 col prev avg (14 + n) =
  wilder_next 14 col prev avg (14 + n).
Proof.
  intros Hlen Hprev. unfold Double.wilder_next, wilder_next.
  destruct n as [|k]; [by rewrite !decide_True by lia|].
  rewrite !decide_False by lia. rewrite (Hprev k eq_refl).
  change (14 + S k)%nat with (S (13 + S k)).
  rewrite col_S by lia. cbn [default from_option id].
  change (float_of_Z (Z.of_nat 14 - 1)) with (Fin (Qc_of_Z 13)).
  change (float_of_nat 14) with (Fin (Qc_of_Z 14)).
  destruct (update_fit k Hlen) as [Hm Ha].
  unfold Double.div, Double.add, Double.mul.
  rewrite fmul_Fin, Hm, fadd_Fin.
  change (S (13 + S k)) with (14 + S k)%nat. rewrite Ha.
  rewrite fdiv_Fin by (by apply Qc_of_Z_neq_0).
  apply (avg_fit (S k)). lia.
Qed.
End double_column.

Lemma Double_diff_observed closes :
  within_double_range closes →
  Double.diff (observed closes) = diff (observed closes).
Proof.
  intros H. apply list_eq. intros i. unfold Double.diff, diff.
  rewrite !list_lookup_imap, lookup_observed.
  destruct (closes !! i) as [b|] eqn:Hb; [|done]. simpl. f_equal.
  destruct i as [|j]; [done|].
  assert (Hj : (S j < length closes)%nat) by (by eapply lookup_lt_Some).
  destruct (lookup_lt_is_Some_2 closes j) as [a Ha]; [lia|].
  rewrite lookup_observed, Ha.
  assert (Hd : b - a = delta_at closes (S j)).
  { unfold delta_at, close_at. simpl. by rewrite Nat.sub_0_r, Ha, Hb. }
  transitivity (Fin (delta_at closes (S j))); [|by rewrite <- Hd].
  change (Double.fit (Fin (b - a)) = Fin (delta_at closes (S j))). rewrite Hd.
  apply (range_at closes (S j) (Fin (delta_at closes (S j)))); [done|done|].
  apply steps_delta. lia.
Qed.

Section double_closes.
Variable closes : list Qc.
Hypothesis in_range : within_double_range closes.

Let gain := clip_lower0 <$> diff (observed closes).
Let loss := fneg <$> (clip_upper0 <$> diff (observed closes)).
Let st0 := {| prev_gain := NaN; prev_loss := NaN;
              avg_gain := Double.rolling_mean 14 14 gain;
              avg_loss := Double.rolling_mean 14 14 loss |}.

Lemma gain_sums_fit k :
  (14 < length closes)%nat → (1 ≤ k ≤ 14)%nat →
  fits (Fin (Qc_sum (gain_at closes <$> seq 1 k))) ∧
  fits (Fin (Qc_sum (loss_at closes <$> seq 1 k))).
Proof.
  intros Hlen Hk. destruct (steps_sums closes k Hk) as [Hg Hl].
  assert (Hk' : (k < length closes)%nat) by lia.
  split; [exact (range_at closes k _ in_range Hk' Hg)
         |exact (range_at closes k _ in_range Hk' Hl)].
Qed.

Lemma avg_fit_closes k :
  (14 + k < length closes)%nat →
  fits (Fin (wilder_avg (gain_at closes) k)) ∧
  fits (Fin (wilder_avg (loss_at closes) k)).
Proof.
  intros Hlen.
  destruct (steps_rsi closes (14 + k)) as (Hg & Hl & _); [lia|].
  replace (14 + k - 14)%nat with k in Hg, Hl by lia.
  split; [exact (range_at closes (14 + k) _ in_range Hlen Hg)
         |exact (range_at closes (14 + k) _ in_range Hlen Hl)].
Qed.

Lemma update_fit_closes k :
  (14 + S k < length closes)%nat →
  (fits (Fin (wilder_avg (gain_at closes) k * Qc_of_Z 13)) ∧
   fits (Fin (wilder_avg (gain_at closes) k * Qc_of_Z 13
              + gain_at closes (14 + S k)%nat))) ∧
  (fits (Fin (wilder_avg (loss_at closes) k * Qc_of_Z 13)) ∧
   fits (Fin (wilder_avg (loss_at closes) k * Qc_of_Z 13
              + loss_at closes (14 + S k)%nat))).
Proof.
  intros Hlen. destruct (steps_update closes k) as (H1 & H2 & H3 & H4).
  split_and!;
    [exact (range_at closes (14 + S k) _ in_range Hlen H1)
    |exact (range_at closes (14 + S k) _ in_range Hlen H2)
    |exact (range_at closes (14 + S k) _ in_range Hlen H3)
    |exact (range_at closes (14 + S k) _ in_range Hlen H4)].
Qed.

Lemma length_gain_closes : length gain = length closes.
Proof. apply length_gain. Qed.

Lemma length_loss_closes : length loss = length closes.
Proof. apply length_loss. Qed.

Lemma gain_0 : (0 < length gain)%nat → gain !! 0%nat = Some NaN.
Proof. rewrite length_gain_closes. apply gain_lookup_0. Qed.

Lemma loss_0 : (0 < length loss)%nat → loss !! 0%nat = Some NaN.
Proof. rewrite length_loss_closes. apply loss_lookup_0. Qed.

Lemma gain_S t :
  (S t < length gain)%nat → gain !! S t = Some (Fin (gain_at closes (S t))).
Proof. rewrite length_gain_closes. apply gain_lookup_S. Qed.

Lemma loss_S t :
  (S t < length loss)%nat → loss !! S t = Some (Fin (loss_at closes (S t))).
Proof. rewrite length_loss_closes. apply loss_lookup_S. Qed.

Lemma gain_avg_fit k :
  (14 + k < length gain)%nat → fits (Fin (wilder_avg (gain_at closes) k)).
Proof.
  rewrite length_gain_closes. intros Hk. exact (proj1 (avg_fit_closes k Hk)).
Qed.

Lemma loss_avg_fit k :
  (14 + k < length loss)%nat → fits (Fin (wilder_avg (loss_at closes) k)).
Proof.
  rewrite length_loss_closes. intros Hk. exact (proj2 (avg_fit_closes k Hk)).
Qed.

Lemma gain_update_fit k :
  (14 + S k < length gain)%nat →
  fits (Fin (wilder_avg (gain_at closes) k * Qc_of_Z 13)) ∧
  fits (Fin (wilder_avg (gain_at closes) k * Qc_of_Z 13
             + gain_at closes (14 + S k)%nat)).
Proof.
  rewrite length_gain_closes. intros Hk. exact (proj1 (update_fit_closes k Hk)).
Qed.

Lemma loss_update_fit k :
  (14 + S k < length loss)%nat →
  fits (Fin (wilder_avg (loss_at closes) k * Qc_of_Z 13)) ∧
  fits (Fin (wilder_avg (loss_at closes) k * Qc_of_Z 13
             + loss_at closes (14 + S k)%nat)).
Proof.
  rewrite length_loss_closes. intros Hk. exact (proj2 (update_fit_closes k Hk)).
Qed.

Lemma Double_seed :
  (14 < length closes)%nat →
  avg_gain st0 !! 14%nat = Some (Fin (wilder_avg (gain_at closes) 0)) ∧
  avg_loss st0 !! 14%nat = Some (Fin (wilder_avg (loss_at closes) 0)).
Proof.
  intros Hlen. unfold st0. cbn [avg_gain avg_loss]. split.
  - apply (Double_rolling_mean_seed gain (gain_at closes) gain_0 gain_S).
    + intros k Hk. exact (proj1 (gain_sums_fit k Hlen Hk)).
    + apply gain_avg_fit.
    + by rewrite length_gain_closes.
  - apply (Double_rolling_mean_seed loss (loss_at closes) loss_0 loss_S).
    + intros k Hk. exact (proj2 (gain_sums_fit k Hlen Hk)).
    + apply loss_avg_fit.
    + by rewrite length_loss_closes.
Qed.

Lemma length_st0 :
  length (avg_gain st0) = length closes ∧ length (avg_loss st0) = length closes.
Proof.
  unfold st0. cbn [avg_gain avg_loss].
  unfold Double.rolling_mean. rewrite !length_imap.
  by rewrite length_gain_closes, length_loss_closes.
Qed.

Lemma wilder_rec_gain k :
  (14 + k < length closes)%nat →
  wilder_rec 14 gain (avg_gain st0) k = Fin (wilder_avg (gain_at closes) k).
Proof.
  intros Hk. destruct Double_seed as [Hsg _]; [lia|].
  apply (wilder_rec_seeded gain (gain_at closes) gain_0 gain_S); [done|].
  by rewrite length_gain_closes.
Qed.

Lemma wilder_rec_loss k :
  (14 + k < length closes)%nat →
  wilder_rec 14 loss (avg_loss st0) k = Fin (wilder_avg (loss_at closes) k).
Proof.
  intros Hk. destruct Double_seed as [_ Hsl]; [lia|].
  apply (wilder_rec_seeded loss (loss_at closes) loss_0 loss_S); [done|].
  by rewrite length_loss_closes.
Qed.

(** Within the range the loop over doubles is the loop in exact
    arithmetic, from the same columns. *)
Lemma Double_loop n :
  (14 + n ≤ length closes)%nat →
  foldl (Double.wilder_step 14 gain loss) st0 (seq 14 n) =
  foldl (wilder_step 14 gain loss) st0 (seq 14 n).
Proof.
  induction n as [|n IH]; intros Hn; [done|].
  rewrite seq_S, !foldl_app, IH by lia. cbn [foldl].
  destruct length_st0 as [Hlg Hll].
  destruct (wilder_loop_inv 14 gain loss st0 n) as [(_ & _ & Hpg) (_ & _ & Hpl)];
    [lia|lia|].
  set (st := foldl (wilder_step 14 gain loss) st0 (seq 14 n)) in *.
  unfold Double.wilder_step, wilder_step.
  rewrite (Double_wilder_next gain (gain_at closes) gain_0 gain_S
             gain_avg_fit gain_update_fit n (prev_gain st) (avg_gain st)).
  - rewrite (Double_wilder_next loss (loss_at closes) loss_0 loss_S
               loss_avg_fit loss_update_fit n (prev_loss st) (avg_loss st)).
    + done.
    + rewrite length_loss_closes. lia.
    + intros k ->. rewrite (Hpl k eq_refl). apply wilder_rec_loss. lia.
  - rewrite length_gain_closes. lia.
  - intros k ->. rewrite (Hpg k eq_refl). apply wilder_rec_gain. lia.
Qed.

(** The two average columns over doubles, within the range. *)
Lemma Double_wilder_averages t :
  (t < length closes)%nat →
  let st := Double.wilder_averages (observed closes) 14 in
  avg_gain st !! t =
    Some (if decide (t < 14)%nat then NaN
          else Fin (wilder_avg (gain_at closes) (t - 14))) ∧
  avg_loss st !! t =
    Some (if decide (t < 14)%nat then NaN
          else Fin (wilder_avg (loss_at closes) (t - 14))).
Proof.
  intros Ht st. subst st. unfold Double.wilder_averages.
  rewrite Double_diff_observed by done. fold gain. fold loss. fold st0.
  rewrite length_observed.
  destruct length_st0 as [Hlg Hll].
  assert (Hwg : (t < 14)%nat → avg_gain st0 !! t = Some NaN).
  { intros Hlt. unfold st0. cbn [avg_gain].
    apply (Double_rolling_mean_warmup gain gain_0); [done|].
    by rewrite length_gain_closes. }
  assert (Hwl : (t < 14)%nat → avg_loss st0 !! t = Some NaN).
  { intros Hlt. unfold st0. cbn [avg_loss].
    apply (Double_rolling_mean_warmup loss loss_0); [done|].
    by rewrite length_loss_closes. }
  destruct (decide (14 ≤ length closes)%nat) as [Hp|Hp].
  - rewrite Double_loop by lia.
    destruct (wilder_loop_inv 14 gain loss st0 (length closes - 14))
      as [(_ & Hg & _) (_ & Hl & _)]; [lia|lia|].
    rewrite Hg, Hl.
    destruct (decide (t < 14)%nat) as [Hlt|Hge].
    + rewrite !decide_False by lia. split; [by apply Hwg|by apply Hwl].
    + rewrite !decide_True by lia.
      rewrite wilder_rec_gain, wilder_rec_loss by lia. done.
  - replace (length closes - 14)%nat with 0%nat by lia. cbn [seq foldl].
    rewrite !decide_True by lia. split; [apply Hwg|apply Hwl]; lia.
Qed.

Lemma Double_rsi_wilder_lookup t :
  (t < length closes)%nat →
  Double.rsi_wilder (observed closes) 14 !! t = Some (rsi_spec closes t).
Proof.
  intros Ht. unfold Double.rsi_wilder. rewrite lookup_zip_with.
  destruct (Double_wilder_averages t Ht) as [-> ->]. simpl. f_equal.
  unfold rsi_spec. case_decide as Hlt; [done|].
  destruct (steps_rsi closes t) as (_ & _ & H1 & H2 & H3 & H4); [lia|].
  cbv zeta in H1, H2, H3, H4.
  apply (range_at closes t _ in_range Ht) in H1, H2, H3, H4.
  unfold Double.rsi_of, Double.rsi_of_rs, Double.sub, Double.div, Double.add.
  unfold fits in H1, H2, H3, H4. by rewrite H1, H2, H3, H4.
Qed.
End double_closes.

Lemma length_Double_rsi_wilder series period :
  length (Double.rsi_wilder series period) = length series.
Proof.
  unfold Double.rsi_wilder, Double.wilder_averages.
  set (gain := clip_lower0 <$> Double.diff series).
  set (loss := fneg <$> (clip_upper0 <$> Double.diff series)).
  set (st0 := {| prev_gain := NaN; prev_loss := NaN;
                 avg_gain := Double.rolling_mean period period gain;
                 avg_loss := Double.rolling_mean period period loss |}).
  assert (Hlen : ∀ l st,
            length (avg_gain (foldl (Double.wilder_step period gain loss) st l))
              = length (avg_gain st) ∧
            length (avg_loss (foldl (Double.wilder_step period gain loss) st l))
              = length (avg_loss st)).
  { induction l as [|i l IH]; intros st; [done|]. cbn [foldl].
    destruct (IH (Double.wilder_step period gain loss st i)) as [-> ->].
    simpl. by rewrite !length_insert. }
  rewrite length_zip_with. destruct (Hlen (seq period (length series - period)) st0)
    as [-> ->].
  simpl. unfold Double.rolling_mean, gain, loss, Double.diff.
  rewrite !length_imap, !length_fmap, !length_imap. lia.
Qed.

(** ** Claims on [rsi_wilder] *)

(** C2, as stated, fails beyond the range of doubles.  On the closes
    [1e308, -1e308, 0, ..., 0] the first difference overflows, the loss it
    gives is an infinity, the rolling mean leaves it out and has no seed:
    every value of the index is NaN, where Wilder's formulas give [100/3]
    at index 14. *)
Lemma rsi_wilder_overflow :
  Double.rsi_wilder (observed overflowing_closes) 14 = replicate 16 NaN ∧
  rsi_spec overflowing_closes 14 = Fin (Qc_of_Z 100 / Qc_of_Z 3) ∧
  Double.rsi_wilder (observed overflowing_closes) 14 ≠
    rsi_spec overflowing_closes <$> seq 0 (length overflowing_closes).
Proof.
  assert (H1 : Double.rsi_wilder (observed overflowing_closes) 14 = replicate 16 NaN)
    by (vm_compute; reflexivity).
  assert (H2 : rsi_spec overflowing_closes 14 = Fin (Qc_of_Z 100 / Qc_of_Z 3)).
  { unfold rsi_spec. rewrite decide_False by lia.
    assert (Hq : ∀ q q' : Qc, q = q' → Fin q = Fin q') by (by intros ?? ->).
    vm_compute. apply Hq. apply Qc_is_canon. reflexivity. }
  split_and!; [done|done|].
  intros Heq. apply (f_equal (λ l, l !! 14%nat)) in Heq.
  rewrite H1 in Heq. rewrite list_lookup_fmap in Heq.
  change (seq 0 (length overflowing_closes) !! 14%nat) with (Some 14%nat) in Heq.
  simpl in Heq. rewrite H2 in Heq. discriminate Heq.
Qed.

(** C2, as amended.  On every series of observed closes on which the
    intermediate results stay within the range of doubles, [rsi_wilder]
    computes Wilder's RSI as [rsi_spec] words it: no value below index 14,
    averages seeded at 14 with the simple means of the gains and losses at
    1..14, the update [(avg*13 + x)/14] afterwards, and
    [100 - 100/(1 + avg_gain/avg_loss)]. *)
Theorem rsi_wilder_within_range (closes : list Qc) :
  within_double_range closes →
  Double.rsi_wilder (observed closes) 14 = rsi_spec closes <$> seq 0 (length closes).
Proof.
  intros Hrange. apply list_eq. intros t. rewrite list_lookup_fmap.
  destruct (decide (t < length closes)%nat) as [Ht|Ht].
  - rewrite Double_rsi_wilder_lookup by done. by rewrite lookup_seq_lt.
  - rewrite lookup_seq_ge by lia. simpl. apply lookup_ge_None.
    rewrite length_Double_rsi_wilder, length_observed. lia.
Qed.

Lemma rsi_wilder_within_range_witness :
  Double.rsi_wilder (observed (rising (Qc_of_Z 5) 30)) 14 =
  rsi_spec (rising (Qc_of_Z 5) 30) <$> seq 0 (length (rising (Qc_of_Z 5) 30)).
Proof.
  apply (rsi_wilder_within_range (rising (Qc_of_Z 5) 30)).
  apply (bool_decide_unpack _). vm_compute. exact I.
Defined.

Lemma strictly_increasing_lookup closes i a b :
  strictly_increasing closes →
  closes !! i = Some a → closes !! S i = Some b → a < b.
Proof.
  revert i. induction closes as [|c [|d rest] IH]; intros i Hinc Ha Hb;
    try done.
  destruct Hinc as [Hcd Hrest]. destruct i as [|i].
  - simpl in Ha, Hb. by simplify_eq.
  - apply (IH i); done.
Qed.

Lemma Qc_sum_zero (x : nat → Qc) l :
  (∀ t, t ∈ l → x t = 0) → Qc_sum (x <$> l) = 0.
Proof.
  induction l as [|a l IH]; intros H; csimpl; [done|].
  rewrite (H a) by apply list_elem_of_here.
  rewrite IH; [ring|]. intros t Ht. apply H. by apply list_elem_of_further.
Qed.

Lemma Qc_sum_nonneg (x : nat → Qc) l :
  (∀ t, t ∈ l → 0 ≤ x t) → 0 ≤ Qc_sum (x <$> l).
Proof.
  induction l as [|a l IH]; intros H; csimpl; [done|].
  apply Qcplus_nonneg_nonneg.
  - apply H, list_elem_of_here.
  - apply IH. intros t Ht. apply H. by apply list_elem_of_further.
Qed.

Lemma Qc_sum_pos (x : nat → Qc) a l :
  (∀ t, t ∈ a :: l → 0 < x t) → 0 < Qc_sum (x <$> a :: l).
Proof.
  intros H. csimpl. apply Qcplus_pos_nonneg.
  - apply H, list_elem_of_here.
  - apply Qc_sum_nonneg. intros t Ht. apply Qclt_le_weak, H.
    by apply list_elem_of_further.
Qed.

Lemma Qc_of_Z_pos z : (0 < z)%Z → 0 < Qc_of_Z z.
Proof. intros Hz. apply (Z2Qc_inj_lt 0 z) in Hz. by rewrite Z2Qc_inj_0 in Hz. Qed.

Lemma Qcdiv_pos a b : 0 < a → 0 < b → 0 < a / b.
Proof. intros Ha Hb. apply Qcmult_pos_pos; [done|]. by apply Qcinv_pos. Qed.

Lemma wilder_avg_zero (x : nat → Qc) k :
  (∀ t, (1 ≤ t ≤ 14 + k)%nat → x t = 0) → wilder_avg x k = 0.
Proof.
  induction k as [|k IH]; intros H.
  - cbn [wilder_avg]. rewrite Qc_sum_zero; [unfold Qcdiv; ring|].
    intros t Ht. apply elem_of_seq in Ht. apply H. lia.
  - cbn [wilder_avg]. rewrite IH, H; [unfold Qcdiv; ring | lia |].
    intros t Ht. apply H. lia.
Qed.

Lemma wilder_avg_pos (x : nat → Qc) k :
  (∀ t, (1 ≤ t ≤ 14 + k)%nat → 0 < x t) → 0 < wilder_avg x k.
Proof.
  induction k as [|k IH]; intros H.
  - cbn [wilder_avg]. apply Qcdiv_pos; [|by apply Qc_of_Z_pos].
    apply (Qc_sum_pos x 1%nat (seq 2 13)).
    intros t Ht. apply (elem_of_seq 1 14) in Ht. apply H. lia.
  - cbn [wilder_avg]. apply Qcdiv_pos; [|by apply Qc_of_Z_pos].
    apply Qcplus_pos_pos; [|apply H; lia].
    apply Qcmult_pos_pos; [|by apply Qc_of_Z_pos].
    apply IH. intros t Ht. apply H. lia.
Qed.

(** An infinite ratio of either sign gives exactly 100, so the sign of
    the zero that divides does not matter. *)
Lemma rsi_of_rs_inf :
  rsi_of_rs PInf = float_of_Z 100 ∧ rsi_of_rs NInf = float_of_Z 100.
Proof.
  unfold rsi_of_rs, float_of_Z.
  change (fadd (Fin 1) PInf) with PInf. change (fadd (Fin 1) NInf) with NInf.
  change (fdiv (Fin (Qc_of_Z 100)) PInf) with (Fin 0).
  change (fdiv (Fin (Qc_of_Z 100)) NInf) with (Fin 0).
  rewrite fsub_Fin. split; f_equal; ring.
Qed.

(** With a positive average gain and no average loss the ratio is
    [+inf], and the index is exactly 100. *)
Lemma rsi_of_all_gain g : 0 < g → rsi_of (Fin g) (Fin 0) = float_of_Z 100.
Proof.
  intros Hg. unfold rsi_of, rsi_of_rs, fdiv at 2. rewrite decide_True by done.
  unfold signed_inf. replace (g ?= 0) with Gt by (symmetry; by apply Qcgt_alt).
  unfold float_of_Z.
  change (fadd (Fin 1) PInf) with PInf.
  change (fdiv (Fin (Qc_of_Z 100)) PInf) with (Fin 0).
  rewrite fsub_Fin. f_equal. ring.
Qed.

Section all_gains.
Variable closes : list Qc.
Hypothesis increasing : strictly_increasing closes.

Lemma delta_at_pos t :
  (S t < length closes)%nat → 0 < delta_at closes (S t).
Proof.
  intros Ht.
  destruct (lookup_lt_is_Some_2 closes t) as [a Ha]; [lia|].
  destruct (lookup_lt_is_Some_2 closes (S t)) as [b Hb]; [lia|].
  pose proof (strictly_increasing_lookup closes t a b increasing Ha Hb) as Hab.
  unfold delta_at, close_at. simpl. rewrite Nat.sub_0_r, Ha, Hb. simpl.
  apply Qclt_minus_iff in Hab. done.
Qed.

Lemma gain_at_pos t : (S t < length closes)%nat → 0 < gain_at closes (S t).
Proof.
  intros Ht. pose proof (delta_at_pos t Ht) as Hd.
  unfold gain_at, Qc_max. case_decide; [|done].
  exfalso. by eapply Qclt_not_le; [|apply Qclt_le_weak].
Qed.

Lemma loss_at_zero t : (S t < length closes)%nat → loss_at closes (S t) = 0.
Proof.
  intros Ht. pose proof (delta_at_pos t Ht) as Hd.
  unfold loss_at, Qc_max. case_decide; [done|].
  exfalso. apply H. apply Qclt_minus_iff.
  by rewrite Qcopp_involutive, Qcplus_0_l.
Qed.
End all_gains.

(** The averages behind an all-gain series. *)
Lemma wilder_avg_increasing closes t :
  strictly_increasing closes → (t < length closes)%nat → (14 ≤ t)%nat →
  wilder_avg (loss_at closes) (t - 14) = 0 ∧
  0 < wilder_avg (gain_at closes) (t - 14).
Proof.
  intros Hinc Ht Hge. split.
  - apply wilder_avg_zero. intros [|u] Hu; [lia|].
    apply loss_at_zero; [done|lia].
  - apply wilder_avg_pos. intros [|u] Hu; [lia|].
    apply gain_at_pos; [done|lia].
Qed.

Lemma rsi_wilder_increasing closes t :
  strictly_increasing closes → (t < length closes)%nat →
  rsi_wilder (observed closes) 14 !! t =
    Some (if decide (t < 14)%nat then NaN else float_of_Z 100).
Proof.
  intros Hinc Ht. rewrite rsi_wilder_observed by done. f_equal.
  unfold rsi_spec. case_decide; [done|]. cbv zeta.
  destruct (wilder_avg_increasing closes t) as [-> Hg]; [done|done|lia|].
  by apply rsi_of_all_gain.
Qed.



(** ** Claims on [macd_pandas] *)

Lemma Qc_of_nat_nonneg n : 0 ≤ Qc_of_nat n.
Proof.
  assert (H : (0 ≤ Z.of_nat n)%Z) by lia.
  apply (Z2Qc_inj_le 0 (Z.of_nat n)) in H. by rewrite Z2Qc_inj_0 in H.
Qed.

Lemma Qc_of_nat_succ_neq_0 n : Qc_of_nat n + 1 ≠ 0.
Proof.
  intros Heq. pose proof (Qc_of_nat_nonneg n) as Hn.
  assert (H1 : 0 < Qc_of_nat n + 1) by (by apply Qcplus_nonneg_pos).
  rewrite Heq in H1. by apply Qclt_not_eq in H1.
Qed.

(** pandas derives the smoothing factor from the centre of mass
    [(span - 1)/2]; it is [2/(span + 1)]. *)
Lemma ewm_alpha_spec span : ewm_alpha span = ema_alpha span.
Proof.
  unfold ewm_alpha, ema_alpha.
  pose proof (Qc_of_nat_succ_neq_0 span) as Hs.
  field. split; [exact Hs | discriminate].
Qed.

(** On two observations the kernel's step is the recurrence. *)
Lemma ewm_step_Fin alpha w c :
  ewm_step alpha (Fin w, 1) (Fin c) = (Fin (alpha * c + (1 - alpha) * w), 1).
Proof.
  unfold ewm_step. cbn [is_observation]. f_equal.
  case_decide as Heq.
  - injection Heq as ->. f_equal. ring.
  - assert (Hc : 1 * (1 - alpha) + alpha = 1) by ring.
    rewrite Hc, !fmul_Fin, fadd_Fin, fdiv_Fin by discriminate.
    f_equal. field. discriminate.
Qed.

Lemma ewm_run_observed span (x : nat → Qc) k n :
  ewm_run (ema_alpha span) (Fin (ema_at span x k), 1)
          (observed (x <$> seq (S k) n)) =
  observed (ema_at span x <$> seq (S k) n).
Proof.
  revert k. induction n as [|n IH]; intros k; [done|].
  cbn [seq]. unfold observed in *. rewrite !fmap_cons. cbn [ewm_run].
  rewrite ewm_step_Fin. cbn [fst]. f_equal. apply (IH (S k)).
Qed.

Lemma ewm_mean_observed span (x : nat → Qc) n :
  ewm_mean span (observed (x <$> seq 0 n)) =
  observed (ema_at span x <$> seq 0 n).
Proof.
  destruct n as [|n]; [done|].
  cbn [seq]. unfold observed. rewrite !fmap_cons. cbn [ewm_mean].
  rewrite ewm_alpha_spec. f_equal. apply (ewm_run_observed span x 0 n).
Qed.

Lemma zip_with_fsub_observed (f g : nat → Qc) l :
  zip_with fsub (observed (f <$> l)) (observed (g <$> l)) =
  observed ((λ t, f t - g t) <$> l).
Proof.
  induction l as [|a l IH]; [done|].
  unfold observed in *. rewrite !fmap_cons. cbn [zip_with].
  by rewrite fsub_Fin, IH.
Qed.

Lemma closes_tabulate (closes : list Qc) :
  closes = close_at closes <$> seq 0 (length closes).
Proof.
  apply list_eq. intros t. rewrite list_lookup_fmap. unfold close_at.
  destruct (decide (t < length closes)%nat) as [Ht|Ht].
  - rewrite lookup_seq_lt by done. simpl.
    destruct (lookup_lt_is_Some_2 closes t Ht) as [a ->]. done.
  - rewrite lookup_seq_ge by lia. by apply lookup_ge_None_2; lia.
Qed.

(** The histogram is the difference of the two lines on any column, NaN
    and infinities included. *)
Lemma macd_hist_exact (series : list float) (fast slow signal : nat) :
  let '(macd, macd_signal, macd_hist) := macd_pandas series fast slow signal in
  macd_hist = zip_with fsub macd macd_signal.
Proof. reflexivity. Qed.

(** C7.  On every series of observed closes the three MACD columns have a
    finite value at every index from 0 on; they are the recursively
    smoothed averages seeded with the first value, with [alpha = 2/(span+1)]
    for the spans 12, 26 and 9; and the histogram is the MACD line minus
    the signal line, entry by entry. *)
Theorem macd_pandas_refines_spec (closes : list Qc) :
  let idx := seq 0 (length closes) in
  macd_pandas (observed closes) 12 26 9 =
    (observed (macd_at closes <$> idx),
     observed (signal_at closes <$> idx),
     observed ((λ t, macd_at closes t - signal_at closes t) <$> idx)).
Proof.
  intros idx. unfold macd_pandas.
  assert (Hxs : observed closes = observed (close_at closes <$> idx))
    by (f_equal; apply closes_tabulate).
  rewrite Hxs. unfold idx.
  rewrite !ewm_mean_observed, zip_with_fsub_observed.
  change (λ t, ema_at 12 (close_at closes) t - ema_at 26 (close_at closes) t)
    with (macd_at closes).
  rewrite ewm_mean_observed, zip_with_fsub_observed. done.
Qed.

(** ** [process_file]: the columns it writes *)

Lemma sort_by_ascending (rows : list price_bar) :
  dates_ascending (Date <$> rows) → sort_by Date Z.leb rows = rows.
Proof.
  induction rows as [|a [|b rest] IH]; intros Hasc; [done..|].
  destruct Hasc as [Hab Hrest].
  change (sort_by Date Z.leb (a :: b :: rest))
    with (insert_by Date Z.leb a (sort_by Date Z.leb (b :: rest))).
  rewrite IH by done. cbn [insert_by].
  destruct (Z.leb_spec (Date a) (Date b)); [done | lia].
Qed.

Lemma length_sort_by {A K} (key : A → K) leb (l : list A) :
  length (sort_by key leb l) = length l.
Proof.
  assert (Hins : ∀ x l', length (insert_by key leb x l') = S (length l')).
  { intros x l'. induction l' as [|y l' IH]; [done|].
    cbn [insert_by]. destruct (leb (key x) (key y)); simpl; [done|].
    by rewrite IH. }
  induction l as [|a l IH]; [done|].
  change (sort_by key leb (a :: l)) with (insert_by key leb a (sort_by key leb l)).
  rewrite Hins, IH. done.
Qed.

Lemma length_ewm_run alpha st xs : length (ewm_run alpha st xs) = length xs.
Proof.
  revert st. induction xs as [|x xs IH]; intros st; [done|].
  cbn [ewm_run length]. by rewrite IH.
Qed.

Lemma length_ewm_mean span xs : length (ewm_mean span xs) = length xs.
Proof. destruct xs; [done|]. cbn [ewm_mean length]. by rewrite length_ewm_run. Qed.

(** A column read back out of the rows built by [imap]. *)
Lemma column_of_imap {A} (df : list A) (col : list float)
    (mk : nat → A → indicator_row) (get : indicator_row → float) :
  length col = length df →
  (∀ i b, get (mk i b) = default NaN (col !! i)) →
  get <$> imap mk df = col.
Proof.
  intros Hlen Hget. apply list_eq. intros i.
  rewrite list_lookup_fmap, list_lookup_imap.
  destruct (df !! i) as [b|] eqn:Hb; simpl.
  - rewrite Hget.
    destruct (lookup_lt_is_Some_2 col i) as [v ->]; [|done].
    rewrite Hlen. by eapply lookup_lt_Some.
  - symmetry. apply lookup_ge_None. rewrite Hlen. by apply lookup_ge_None.
Qed.

Section process_file_columns.
Variable rows : list price_bar.
Let close := Close <$> sort_by Date Z.leb rows.

Lemma process_file_return : return_ <$> process_file rows = pct_change close.
Proof.
  unfold process_file. destruct (macd_pandas _ 12 26 9) as [[m sg] h].
  apply column_of_imap; [|done].
  unfold close. by rewrite length_pct_change, length_fmap.
Qed.

Lemma process_file_MA20 : MA20 <$> process_file rows = rolling_mean 20 20 close.
Proof.
  unfold process_file. destruct (macd_pandas _ 12 26 9) as [[m sg] h].
  apply column_of_imap; [|done].
  unfold close. by rewrite length_rolling_mean, length_fmap.
Qed.

Lemma process_file_RSI14 : RSI14 <$> process_file rows = rsi_wilder close 14.
Proof.
  unfold process_file. destruct (macd_pandas _ 12 26 9) as [[m sg] h].
  apply column_of_imap; [|done].
  unfold close. by rewrite length_rsi_wilder, length_fmap.
Qed.
End process_file_columns.

(** ** The rising series *)

Lemma strictly_increasing_tabulate (f : nat → Qc) k n :
  (∀ t, f t < f (S t)) → strictly_increasing (f <$> seq k n).
Proof.
  intros Hf. revert k. induction n as [|[|n] IH]; intros k; [done..|].
  split; [apply Hf | apply (IH (S k))].
Qed.

Lemma Qc_of_nat_S t : Qc_of_nat (S t) = Qc_of_nat t + 1.
Proof.
  unfold Qc_of_nat. rewrite Nat2Z.inj_succ, <- Z.add_1_r, Z2Qc_inj_add.
  by rewrite Z2Qc_inj_1.
Qed.

Lemma Qclt_succ a : a < a + 1.
Proof.
  apply Qclt_minus_iff. replace (a + 1 + - a) with (1 : Qc) by ring. done.
Qed.

Lemma rising_increasing c0 n : strictly_increasing (rising c0 n).
Proof.
  apply strictly_increasing_tabulate. intros t.
  rewrite Qc_of_nat_S, Qcplus_assoc. apply Qclt_succ.
Qed.

Lemma length_rising c0 n : length (rising c0 n) = n.
Proof. unfold rising. by rewrite length_fmap, length_seq. Qed.

Lemma lookup_rising c0 n t :
  (t < n)%nat → rising c0 n !! t = Some (c0 + Qc_of_nat t).
Proof.
  intros Ht. unfold rising. by rewrite list_lookup_fmap, lookup_seq_lt.
Qed.

(** One day's return when the close went up by 1. *)
Lemma return_of_unit_step a :
  fsub (fdiv (Fin (a + 1)) (Fin a)) (Fin 1) = fdiv (Fin 1) (Fin a).
Proof.
  unfold fdiv. case_decide as Ha.
  - subst a. done.
  - rewrite fsub_Fin. f_equal. by field.
Qed.

(** ** Claims on [process_file] *)

Lemma window_observed w i qs : window w i (observed qs) = observed (window w i qs).
Proof. unfold window, observed. by rewrite fmap_drop, fmap_take. Qed.

(** C8, as amended.  For 30 rows in date order whose close goes up by
    exactly 1 a day: MA20 has no value below index 19 and is the mean of
    the first 20 closes at 19; RSI14 has no value below index 14 (index 13
    included) and is 100 from 14 on; the return has no value at 0 and is
    [1/close[t-1]] from 1 on. *)
Theorem process_file_rising (rows : list price_bar) (c0 : Qc) :
  dates_ascending (Date <$> rows) →
  Close <$> rows = observed (rising c0 30) →
  let out := process_file rows in
  (∀ t, (t < 19)%nat → (MA20 <$> out) !! t = Some NaN) ∧
  (MA20 <$> out) !! 19%nat = Some (Fin (mean (take 20 (rising c0 30)))) ∧
  (∀ t, (t < 14)%nat → (RSI14 <$> out) !! t = Some NaN) ∧
  (∀ t, (14 ≤ t < 30)%nat → (RSI14 <$> out) !! t = Some (float_of_Z 100)) ∧
  (return_ <$> out) !! 0%nat = Some NaN ∧
  (∀ t, (1 ≤ t < 30)%nat →
        (return_ <$> out) !! t =
          Some (fdiv (Fin 1) (Fin (close_at (rising c0 30) (t - 1))))).
Proof.
  intros Hasc Hclose out. subst out.
  rewrite process_file_MA20, process_file_RSI14, process_file_return.
  rewrite sort_by_ascending, Hclose by done.
  assert (Hlen : length (observed (rising c0 30)) = 30%nat)
    by (by rewrite length_observed, length_rising).
  split_and!.
  - intros t Ht. apply rolling_mean_short; [rewrite Hlen|]; lia.
  - rewrite (rolling_mean_full 20 _ 19 (take 20 (rising c0 30))).
    + unfold mean. rewrite length_take, length_rising. done.
    + lia.
    + rewrite Hlen. lia.
    + rewrite window_observed. done.
    + rewrite length_take, length_rising. done.
  - intros t Ht. rewrite rsi_wilder_increasing.
    + by rewrite decide_True.
    + apply rising_increasing.
    + rewrite length_rising. lia.
  - intros t Ht. rewrite rsi_wilder_increasing.
    + rewrite decide_False by lia. done.
    + apply rising_increasing.
    + rewrite length_rising. lia.
  - reflexivity.
  - intros t [Ht1 Ht2]. destruct t as [|j]; [lia|].
    rewrite (lookup_pct_change_S _ j (Fin (c0 + Qc_of_nat j))
               (Fin (c0 + Qc_of_nat j + 1))).
    + rewrite return_of_unit_step. unfold close_at.
      replace (S j - 1)%nat with j by lia.
      rewrite lookup_rising by lia. done.
    + rewrite lookup_observed, lookup_rising by lia. done.
    + rewrite lookup_observed, lookup_rising by lia. simpl.
      by rewrite Qc_of_nat_S, Qcplus_assoc.
Qed.

Lemma process_file_rising_witness :
  (RSI14 <$> process_file rising_rows) !! 29%nat = Some (float_of_Z 100) ∧
  (return_ <$> process_file rising_rows) !! 1%nat =
    Some (fdiv (Fin 1) (Fin (close_at (rising (Qc_of_Z 5) 30) 0))).
Proof.
  destruct (process_file_rising rising_rows (Qc_of_Z 5))
    as (_ & _ & _ & Hrsi & _ & Hret).
  - repeat split.
  - reflexivity.
  - split; [apply Hrsi | apply Hret]; lia.
Defined.

(** C8 as first stated asks for RSI14 = 100 from index 13 on; at index 13
    the pipeline has no value yet. *)
Lemma process_file_rising_index_13 :
  (RSI14 <$> process_file rising_rows) !! 13%nat = Some NaN ∧
  ¬ (∀ t, (13 ≤ t < 30)%nat →
          (RSI14 <$> process_file rising_rows) !! t = Some (float_of_Z 100)).
Proof.
  assert (H13 : (RSI14 <$> process_file rising_rows) !! 13%nat = Some NaN)
    by (vm_compute; reflexivity).
  split; [exact H13|].
  intros Hall. specialize (Hall 13%nat). rewrite H13 in Hall.
  discriminate Hall. lia.
Qed.

(** * Claims on [scripts/sentiment_analysis.py] *)

(** ** The fallback scorer *)

Lemma Qc_ratio_bounds (a b : Z) :
  (0 < b)%Z → (- b ≤ a ≤ b)%Z →
  - (1) ≤ Qc_of_Z a / Qc_of_Z b ∧ Qc_of_Z a / Qc_of_Z b ≤ 1.
Proof.
  intros Hb [Hlo Hhi].
  pose proof (Qc_of_Z_pos b Hb) as HB.
  pose proof (Qcinv_pos _ HB) as Hinv.
  assert (Hone : Qc_of_Z b * / Qc_of_Z b = 1).
  { apply Qcmult_inv_r. intros Heq. rewrite Heq in HB. by apply Qclt_not_eq in HB. }
  apply (Z2Qc_inj_le (- b) a) in Hlo. apply (Z2Qc_inj_le a b) in Hhi.
  unfold Qcdiv. split.
  - replace (- (1)) with (Qc_of_Z (- b) * / Qc_of_Z b).
    + by apply Qcmult_le_mono_nonneg_r; [apply Qclt_le_weak|].
    + rewrite Z2Qc_inj_opp.
      replace (- Qc_of_Z b * / Qc_of_Z b) with (- (Qc_of_Z b * / Qc_of_Z b)) by ring.
      by rewrite Hone.
  - rewrite <- Hone. by apply Qcmult_le_mono_nonneg_r; [apply Qclt_le_weak|].
Qed.

Lemma count_in_le lexicon words :
  (TextBlob.count_in lexicon words ≤ length words)%nat.
Proof. apply length_filter. Qed.

(** The early return of the shim on a text without tokens agrees with the
    formula. *)
Lemma sentiment_formula (text : string) :
  TextBlob.sentiment text =
    Qc_of_Z (Z.of_nat (TextBlob.count_in TextBlob._POS (findall_words text))
             - Z.of_nat (TextBlob.count_in TextBlob._NEG (findall_words text)))
    / Qc_of_Z (Z.max 1 (Z.of_nat (length (findall_words text)))).
Proof.
  unfold TextBlob.sentiment. by destruct (findall_words text).
Qed.

Lemma sentiment_bounds (text : string) :
  - (1) ≤ TextBlob.sentiment text ∧ TextBlob.sentiment text ≤ 1.
Proof.
  rewrite sentiment_formula.
  pose proof (count_in_le TextBlob._POS (findall_words text)).
  pose proof (count_in_le TextBlob._NEG (findall_words text)).
  apply Qc_ratio_bounds; lia.
Qed.

Lemma string_app_cons c (a b : string) : String c a +:+ b = String c (a +:+ b).
Proof. reflexivity. Qed.

Lemma string_app_nil_l (b : string) : EmptyString +:+ b = b.
Proof. reflexivity. Qed.

Lemma string_app_nil_r (s : string) : s +:+ EmptyString = s.
Proof.
  induction s as [|c s IH]; [done|]. by rewrite string_app_cons, IH.
Qed.

Lemma string_app_assoc (a b c : string) : (a +:+ b) +:+ c = a +:+ (b +:+ c).
Proof.
  induction a as [|x a IH]; [done|]. by rewrite !string_app_cons, IH.
Qed.

(** The tokenizer of the code and the tokens of the specification. *)
Lemma findall_words_from_word_tokens (s : string) :
  findall_words_from None s = word_tokens s ∧
  ∀ w, findall_words_from (Some w) s =
       match s with
       | String c _ =>
           if is_word_char c then
             match word_tokens s with
             | t :: ts => (w +:+ t) :: ts
             | [] => [w]
             end
           else w :: word_tokens s
       | EmptyString => [w]
       end.
Proof.
  induction s as [|c s [IHn IHs]]; [done|].
  cbn [findall_words_from word_tokens].
  destruct (is_word_char c) eqn:Hc.
  - split.
    + cbn [default from_option id]. rewrite string_app_nil_l, IHs.
      destruct s as [|c' s']; [done|].
      destruct (is_word_char c'); [|done].
      by destruct (word_tokens (String c' s')).
    + intros w. cbn [default from_option id]. rewrite IHs.
      destruct s as [|c' s']; [done|].
      destruct (is_word_char c').
      * destruct (word_tokens (String c' s'));
          by rewrite ?string_app_assoc, ?string_app_cons, ?string_app_nil_l.
      * by rewrite ?string_app_assoc, ?string_app_cons, ?string_app_nil_l.
  - split; [done|]. intros w. by rewrite IHn.
Qed.

Lemma is_word_char_lower c : is_word_char (lower_char c) = is_word_char c.
Proof. destruct c as [[] [] [] [] [] [] [] []]; reflexivity. Qed.

(** Folding the case of the text and folding the case of its tokens give
    the same tokens. *)
Lemma word_tokens_lower (s : string) :
  word_tokens (lower s) = lower <$> word_tokens s.
Proof.
  unfold lower. induction s as [|c s IH]; [done|].
  cbn [map_string word_tokens]. rewrite is_word_char_lower.
  destruct (is_word_char c); [|done].
  destruct s as [|c' s']; [done|].
  cbn [map_string] in *. rewrite is_word_char_lower.
  destruct (is_word_char c').
  - rewrite IH. by destruct (word_tokens (String c' s')).
  - by rewrite IH.
Qed.

Lemma count_in_occurrences lexicon words :
  Z.of_nat (TextBlob.count_in lexicon words) = occurrences lexicon words.
Proof.
  unfold TextBlob.count_in. induction words as [|w ws IH]; [done|].
  cbn [occurrences]. rewrite <- IH.
  destruct (decide (w ∈ lexicon)) as [Hw|Hw].
  - rewrite filter_cons_True, bool_decide_true by done. simpl length. lia.
  - rewrite filter_cons_False, bool_decide_false by done. lia.
Qed.

(** C5.  The fallback scorer is a function of the text alone; its value
    lies in [-1, 1]; it is [(pos_count - neg_count) / max(1, token_count)]
    over the word tokens of the text, classified without regard to case,
    as [polarity_spec] counts them; [None], the empty string and an empty
    cell all score exactly 0; a headline with four positive words among
    five scores 4/5, and one with two negative words among four -1/2. *)
Theorem compute_polarity_contract (text : pyobj) :
  (- (1) ≤ compute_polarity text ∧ compute_polarity text ≤ 1) ∧
  compute_polarity text = polarity_spec (py_str text) ∧
  compute_polarity PyNone = 0 ∧
  compute_polarity (PyStr EmptyString) = 0 ∧
  compute_polarity PyNaN = 0 ∧
  compute_polarity (PyStr "Strong growth and profit gain")
    = Qc_of_Z 4 / Qc_of_Z 5 ∧
  compute_polarity (PyStr "weak quarter, shares DROP")
    = Qc_of_Z (-1) / Qc_of_Z 2.
Proof.
  split_and!; try reflexivity.
  - apply sentiment_bounds.
  - apply sentiment_bounds.
  - unfold compute_polarity, polarity_spec. cbn [TextBlob.init py_str].
    rewrite sentiment_formula. unfold findall_words.
    rewrite (proj1 (findall_words_from_word_tokens _)), word_tokens_lower.
    by rewrite !count_in_occurrences.
  - apply Qc_is_canon. reflexivity.
Qed.

(** The headline of the end-to-end example: four of its five tokens are in
    the positive lexicon. *)
Example compute_polarity_headline :
  this (compute_polarity (PyStr "strong growth and profit gain")) = (4 # 5)%Q.
Proof. reflexivity. Qed.

(** ** Sorting keeps the elements *)

Lemma insert_by_Permutation {A K} (key : A → K) leb x (l : list A) :
  insert_by key leb x l ≡ₚ x :: l.
Proof.
  induction l as [|y l IH]; [done|].
  cbn [insert_by]. destruct (leb (key x) (key y)); [done|].
  rewrite IH. apply Permutation_swap.
Qed.

Lemma sort_by_Permutation {A K} (key : A → K) leb (l : list A) :
  sort_by key leb l ≡ₚ l.
Proof.
  induction l as [|a l IH]; [done|].
  change (sort_by key leb (a :: l)) with (insert_by key leb a (sort_by key leb l)).
  by rewrite insert_by_Permutation, IH.
Qed.

Lemma elem_of_sort_by {A K} (key : A → K) leb (l : list A) x :
  x ∈ sort_by key leb l ↔ x ∈ l.
Proof. by rewrite sort_by_Permutation. Qed.

Lemma NoDup_sort_by {A K} (key : A → K) leb (l : list A) :
  NoDup l → NoDup (sort_by key leb l).
Proof. by rewrite sort_by_Permutation. Qed.

(** ** [aggregate_daily_sentiment] *)

Lemma filter_all {A} (P : A → Prop) `{∀ x, Decision (P x)} (l : list A) :
  (∀ x, x ∈ l → P x) → filter P l = l.
Proof.
  induction l as [|a l IH]; intros Hall; [done|].
  rewrite filter_cons_True by apply Hall, list_elem_of_here.
  f_equal. apply IH. intros x Hx. by apply Hall, list_elem_of_further.
Qed.

Lemma filter_none {A} (P : A → Prop) `{∀ x, Decision (P x)} (l : list A) :
  (∀ x, x ∈ l → ¬ P x) → filter P l = [].
Proof.
  induction l as [|a l IH]; intros Hall; [done|].
  rewrite filter_cons_False by apply Hall, list_elem_of_here.
  apply IH. intros x Hx. by apply Hall, list_elem_of_further.
Qed.

Section aggregate.
Variable parse_datetime : string → option Timestamp.
Variable polarity_of : pyobj → Qc.

Let score := score_news parse_datetime polarity_of.
Let aggregate := aggregate_daily_sentiment parse_datetime polarity_of.

Lemma NoDup_group_keys rows : NoDup (group_keys rows).
Proof. apply NoDup_sort_by, NoDup_remove_dups. Qed.

Lemma elem_of_group_keys rows k :
  k ∈ group_keys rows ↔ ∃ r, r ∈ rows ∧ group_key r = Some k.
Proof.
  unfold group_keys. rewrite elem_of_sort_by, elem_of_remove_dups.
  rewrite list_elem_of_omap. done.
Qed.

Lemma sentiment_key_aggregate_group rows k :
  sentiment_key (aggregate_group rows k) =
    (k.1, Some {| ts_day := k.2; ts_time := 0 |}).
Proof. done. Qed.

(** One record per key, and the keys differ. *)
Lemma NoDup_aggregate_keys news : NoDup (sentiment_key <$> aggregate news).
Proof.
  unfold aggregate, aggregate_daily_sentiment. rewrite <- list_fmap_compose.
  apply NoDup_fmap_2_strong; [|apply NoDup_group_keys].
  intros [t1 d1] [t2 d2] _ _ Heq.
  simpl in Heq. rewrite !sentiment_key_aggregate_group in Heq.
  simpl in Heq. by simplify_eq.
Qed.

(** A record stands for the news items of its ticker and day, at least
    one, and counts those with a headline. *)
Lemma aggregate_record news d :
  d ∈ aggregate news →
  ∃ k, d = aggregate_group (score <$> news) k ∧
       group_of (score <$> news) k ≠ [] ∧
       news_count d = count_headlines (group_of (score <$> news) k).
Proof.
  unfold aggregate, aggregate_daily_sentiment, score. intros Hd.
  apply list_elem_of_fmap in Hd as (k & -> & Hk).
  exists k. split_and!; try done.
  apply elem_of_group_keys in Hk as (r & Hr & Hkey).
  intros Hnil.
  assert (Hin : r ∈ group_of (score_news parse_datetime polarity_of <$> news) k)
    by (by apply list_elem_of_filter).
  rewrite Hnil in Hin. by apply elem_of_nil in Hin.
Qed.

Lemma count_headlines_pos grp :
  grp ≠ [] → (∀ r, r ∈ grp → is_null (headline (n_row r)) = false) →
  (0 < count_headlines grp)%Z.
Proof.
  intros Hne Hall. unfold count_headlines.
  rewrite filter_all by done.
  destruct grp; [done|]. simpl. lia.
Qed.
End aggregate.

(** C6, as amended.  The output has at most one record per (ticker, day).
    Every record stands for at least one news item of that ticker and day
    (a pair without items has no record), and its [news_count] is the
    number of those items whose headline cell is not empty; so it is
    positive when no headline is missing. *)
Theorem aggregate_daily_sentiment_records
    (parse_datetime : string → option Timestamp) (polarity_of : pyobj → Qc)
    (news : list news_row) :
  let rows := score_news parse_datetime polarity_of <$> news in
  let out := aggregate_daily_sentiment parse_datetime polarity_of news in
  NoDup (sentiment_key <$> out) ∧
  (∀ d, d ∈ out →
     ∃ k, d = aggregate_group rows k ∧
          group_of rows k ≠ [] ∧
          news_count d = count_headlines (group_of rows k)) ∧
  ((∀ r, r ∈ news → is_null (headline r) = false) →
   ∀ d, d ∈ out → (0 < news_count d)%Z).
Proof.
  intros rows out. split_and!.
  - apply NoDup_aggregate_keys.
  - intros d Hd. by apply aggregate_record.
  - intros Hall d Hd.
    destruct (aggregate_record _ _ _ _ Hd) as (k & _ & Hne & ->).
    apply count_headlines_pos; [done|].
    intros r Hr. apply list_elem_of_filter in Hr as [_ Hr].
    apply list_elem_of_fmap in Hr as (r0 & -> & Hr0). by apply Hall.
Qed.

Lemma aggregate_daily_sentiment_records_witness :
  Forall (λ d, (0 < news_count d)%Z)
         (aggregate_daily_sentiment iso_date compute_polarity sample_news).
Proof.
  apply Forall_forall.
  apply (aggregate_daily_sentiment_records iso_date compute_polarity sample_news).
  intros r Hr. repeat (apply elem_of_cons in Hr as [-> | Hr]; [reflexivity|]).
  by apply elem_of_nil in Hr.
Defined.

(** C6 as first stated: a news item whose headline cell is empty still
    forms its group, and the record of that group counts no headline. *)
Lemma aggregate_daily_sentiment_zero_count :
  news_count <$> aggregate_daily_sentiment iso_date compute_polarity
                   news_without_headline = [0%Z] ∧
  ¬ (∀ d, d ∈ aggregate_daily_sentiment iso_date compute_polarity
                news_without_headline → news_count d ≠ 0%Z).
Proof.
  assert (H : news_count <$> aggregate_daily_sentiment iso_date compute_polarity
                news_without_headline = [0%Z]) by (vm_compute; reflexivity).
  split; [exact H|]. intros Hall.
  destruct (aggregate_daily_sentiment iso_date compute_polarity
              news_without_headline) as [|d [|? ?]] eqn:Hout; try discriminate.
  injection H as H. apply (Hall d); [apply list_elem_of_here | exact H].
Qed.

(** ** The left join of [merge_and_analyze] *)

Lemma m_price_fill_row p od : m_price (fill_row (p, od)) = p.
Proof. done. Qed.

Lemma left_join_fst p sentiment_df j :
  j ∈ left_join p sentiment_df → j.1 = p.
Proof.
  unfold left_join. destruct (matches p sentiment_df) as [|d ms].
  - intros Hj. apply list_elem_of_singleton in Hj. by subst.
  - intros Hj. apply list_elem_of_fmap in Hj as (d' & -> & _). done.
Qed.

(** Unique keys leave at most one match for a price row. *)
Lemma matches_unique p sentiment_df :
  NoDup (sentiment_key <$> sentiment_df) →
  (length (matches p sentiment_df) ≤ 1)%nat.
Proof.
  unfold matches. induction sentiment_df as [|d l IH]; intros Hnd; [simpl; lia|].
  rewrite fmap_cons in Hnd. apply NoDup_cons in Hnd as [Hd Hnd].
  destruct (decide (sentiment_key d = price_key p)) as [Heq|Hne].
  - rewrite filter_cons_True by done.
    rewrite filter_none; [simpl; lia|].
    intros d' Hin Hd'. apply Hd. rewrite Heq, <- Hd'.
    by apply list_elem_of_fmap_2.
  - rewrite filter_cons_False by done. by apply IH.
Qed.

Lemma left_join_unique p sentiment_df :
  NoDup (sentiment_key <$> sentiment_df) →
  ∃ od, left_join p sentiment_df = [(p, od)].
Proof.
  intros Hnd. pose proof (matches_unique p sentiment_df Hnd) as Hlen.
  unfold left_join. destruct (matches p sentiment_df) as [|d [|d' ms]].
  - by exists None.
  - by exists (Some d).
  - simpl in Hlen. lia.
Qed.

Lemma merge_cons p price_df sentiment_df :
  merge (p :: price_df) sentiment_df =
    (fill_row <$> left_join p sentiment_df) ++ merge price_df sentiment_df.
Proof. unfold merge. by rewrite bind_cons, fmap_app. Qed.

Lemma elem_of_merge price_df sentiment_df m :
  m ∈ merge price_df sentiment_df ↔
  ∃ p od, p ∈ price_df ∧ (p, od) ∈ left_join p sentiment_df ∧ m = fill_row (p, od).
Proof.
  unfold merge. rewrite list_elem_of_fmap. split.
  - intros ([p od] & -> & Hj). apply list_elem_of_bind in Hj as (p' & Hj & Hp').
    pose proof (left_join_fst _ _ _ Hj) as Heq. simpl in Heq. subst p'.
    by exists p, od.
  - intros (p & od & Hp & Hj & ->). exists (p, od). split; [done|].
    apply list_elem_of_bind. by exists p.
Qed.

(** C10.  When the keys of the sentiment table are unique, the merged
    table has exactly one row for each price row, in the order of the
    price table, and the row carries its price row unchanged, with the
    return computed before; the merge adds the sentiment columns only. *)
Theorem merge_keeps_price_rows
    (pearsonr : list float → list float → float * float)
    (price_df : list price_row) (sentiment_df : list daily_sentiment) :
  NoDup (sentiment_key <$> sentiment_df) →
  m_price <$> (merge_and_analyze pearsonr price_df sentiment_df).1.1 = price_df.
Proof.
  intros Hnd. cbn [merge_and_analyze fst].
  induction price_df as [|p price_df IH]; [done|].
  rewrite merge_cons, fmap_app, IH.
  destruct (left_join_unique p sentiment_df Hnd) as [od ->]. done.
Qed.

Lemma merge_keeps_price_rows_witness :
  let sentiment_df := aggregate_daily_sentiment iso_date compute_polarity sample_news in
  let price_df := daily_rows "AAPL" 18262 3 in
  m_price <$> (merge_and_analyze pearsonr_const price_df sentiment_df).1.1 = price_df.
Proof.
  intros sentiment_df price_df.
  apply (merge_keeps_price_rows pearsonr_const price_df sentiment_df).
  apply (bool_decide_unpack _). vm_compute. exact I.
Defined.

(** C4.  A price row without a sentiment record of its ticker and date
    appears in the merged table as one row: its own columns, the return
    among them, are unchanged, [avg_sentiment] is 0 and [news_count] is 0.
    The zero is a value of its own: whether the return of the row is
    defined is read from the price row alone. *)
Theorem merge_unmatched_row
    (pearsonr : list float → list float → float * float)
    (price_df : list price_row) (sentiment_df : list daily_sentiment)
    (p : price_row) :
  p ∈ price_df →
  (∀ d, d ∈ sentiment_df → sentiment_key d ≠ price_key p) →
  let merged := (merge_and_analyze pearsonr price_df sentiment_df).1.1 in
  (∃ m, m ∈ merged ∧ m_price m = p) ∧
  (∀ m, m ∈ merged → m_price m = p →
        m_avg_sentiment m = Fin 0 ∧ m_news_count m = 0%Z ∧
        daily_return (m_price m) = daily_return p ∧
        is_observation (m_avg_sentiment m) = true).
Proof.
  intros Hp Hnone merged. subst merged. cbn [merge_and_analyze fst].
  assert (Hjoin : left_join p sentiment_df = [(p, None)]).
  { unfold left_join, matches.
    rewrite filter_none; [done|]. intros d Hin Hd. by apply (Hnone d). }
  split.
  - exists (fill_row (p, None)). split; [|done].
    apply elem_of_merge. exists p, None. rewrite Hjoin.
    split_and!; [done|apply list_elem_of_here|done].
  - intros m Hm Hmp. apply elem_of_merge in Hm as (p' & od & _ & Hj & ->).
    rewrite m_price_fill_row in Hmp. subst p'.
    rewrite Hjoin in Hj. apply list_elem_of_singleton in Hj.
    injection Hj as ->. done.
Qed.

Lemma merge_unmatched_row_witness :
  let price_df := daily_rows "AAPL" 18262 3 in
  let sentiment_df := aggregate_daily_sentiment iso_date compute_polarity sample_news in
  ∃ m, m ∈ (merge_and_analyze pearsonr_const price_df sentiment_df).1.1 ∧
       m_price m = {| p_ticker := "AAPL";
                      p_Date := Some {| ts_day := 18262; ts_time := 0 |};
                      p_Close := float_of_Z 100; p_Other := [];
                      daily_return := Fin 0 |}.
Proof.
  intros price_df sentiment_df.
  apply (merge_unmatched_row pearsonr_const price_df sentiment_df).
  - apply list_elem_of_here.
  - apply Forall_forall. apply (bool_decide_unpack _). vm_compute. exact I.
Defined.

(** ** The sample-size threshold of [merge_and_analyze] *)

Section threshold.
Variables pearsonr pearsonr' : list float → list float → float * float.
Hypothesis same_from_10 :
  ∀ xs ys, (10 ≤ length xs)%nat → pearsonr' xs ys = pearsonr xs ys.

Lemma correlate_same tmp : correlate pearsonr' tmp = correlate pearsonr tmp.
Proof.
  unfold correlate. case_decide; [|done].
  rewrite same_from_10; [done|]. by rewrite length_fmap.
Qed.

Lemma global_corr_same merged :
  global_corr pearsonr' merged = global_corr pearsonr merged.
Proof.
  unfold global_corr. case_decide; [|done].
  rewrite same_from_10; [done|]. by rewrite length_fmap.
Qed.

Lemma merge_and_analyze_same price_df sentiment_df :
  merge_and_analyze pearsonr' price_df sentiment_df =
  merge_and_analyze pearsonr price_df sentiment_df.
Proof.
  unfold merge_and_analyze. rewrite global_corr_same. f_equal. f_equal.
  unfold per_ticker. apply list_fmap_ext. intros _ t _.
  by rewrite correlate_same.
Qed.
End threshold.

Lemma correlate_entry pearsonr tmp :
  let e := correlate pearsonr tmp in
  n e = length tmp ∧
  (pearson_r e = None ↔ (length tmp < 10)%nat) ∧
  (p_value e = None ↔ (length tmp < 10)%nat).
Proof.
  unfold correlate. case_decide.
  - destruct (pearsonr _ _) as [r p]. simpl.
    split_and!; [done| |]; split; (discriminate || lia).
  - simpl. split_and!; [done| |]; split; (done || lia).
Qed.

Lemma global_corr_entry pearsonr merged :
  let g := global_corr pearsonr merged in
  (g.1 = None ↔ (length (dropna_return merged) < 10)%nat) ∧
  (g.2 = None ↔ (length (dropna_return merged) < 10)%nat).
Proof.
  unfold global_corr. case_decide.
  - destruct (pearsonr _ _) as [r p]. simpl.
    split; split; (discriminate || lia).
  - simpl. split; split; (done || lia).
Qed.

Lemma elem_of_per_ticker pearsonr merged t e :
  (t, e) ∈ per_ticker pearsonr merged ↔
  (∃ m, m ∈ merged ∧ p_ticker (m_price m) = t) ∧
  e = correlate pearsonr (dropna_return (ticker_group merged t)).
Proof.
  unfold per_ticker. rewrite list_elem_of_fmap. split.
  - intros (t' & Heq & Ht'). injection Heq as -> ->. split; [|done].
    apply elem_of_sort_by, elem_of_remove_dups, list_elem_of_fmap in Ht'
      as (m & -> & Hm). by exists m.
  - intros [(m & Hm & <-) ->]. eexists. split; [done|].
    apply elem_of_sort_by, elem_of_remove_dups, list_elem_of_fmap. by exists m.
Qed.

Lemma per_ticker_keys pearsonr merged :
  (per_ticker pearsonr merged).*1 =
    sort_by id string_leb (remove_dups ((λ m, p_ticker (m_price m)) <$> merged)).
Proof.
  unfold per_ticker.
  induction (sort_by id string_leb _) as [|t l IH]; [done|].
  rewrite !fmap_cons. by rewrite IH.
Qed.

(** C3, as amended.  Per ticker, the entry reports [pearson_r] and
    [p_value] as undefined exactly when the number [n] of rows of that
    ticker with a defined return is below 10, and reports that count in
    either case; every ticker of the merged table has one such entry.  The
    global result is the pair of [r] and [p] alone, undefined exactly when
    the pooled count is below 10.  [pearsonr] is never run on fewer than 10
    pairs: what it would answer there does not reach any result. *)
Theorem merge_and_analyze_threshold
    (pearsonr : list float → list float → float * float)
    (price_df : list price_row) (sentiment_df : list daily_sentiment) :
  let res := merge_and_analyze pearsonr price_df sentiment_df in
  let merged := res.1.1 in
  NoDup (res.1.2).*1 ∧
  (∀ m, m ∈ merged → ∃ e, (p_ticker (m_price m), e) ∈ res.1.2) ∧
  (∀ t e, (t, e) ∈ res.1.2 →
     n e = length (dropna_return (ticker_group merged t)) ∧
     (pearson_r e = None ↔ (n e < 10)%nat) ∧
     (p_value e = None ↔ (n e < 10)%nat)) ∧
  (res.2.1 = None ↔ (length (dropna_return merged) < 10)%nat) ∧
  (res.2.2 = None ↔ (length (dropna_return merged) < 10)%nat) ∧
  (∀ pearsonr' : list float → list float → float * float,
     (∀ xs ys, (10 ≤ length xs)%nat → pearsonr' xs ys = pearsonr xs ys) →
     merge_and_analyze pearsonr' price_df sentiment_df = res).
Proof.
  intros res merged. subst merged res. cbn [merge_and_analyze fst snd].
  split_and!.
  - rewrite per_ticker_keys. apply NoDup_sort_by, NoDup_remove_dups.
  - intros m Hm. eexists. apply elem_of_per_ticker. split; [|done]. by exists m.
  - intros t e [_ ->]%elem_of_per_ticker.
    destruct (correlate_entry pearsonr
                (dropna_return (ticker_group (merge price_df sentiment_df) t)))
      as (Hn & Hr & Hp).
    rewrite Hn. done.
  - apply global_corr_entry.
  - apply global_corr_entry.
  - intros pearsonr' Hsame. by apply merge_and_analyze_same.
Qed.

Lemma merge_and_analyze_threshold_witness :
  merge_and_analyze pearsonr_guarded (daily_rows "AAPL" 18262 12) sample_sentiment =
  merge_and_analyze pearsonr_const (daily_rows "AAPL" 18262 12) sample_sentiment.
Proof.
  apply (merge_and_analyze_threshold pearsonr_const
           (daily_rows "AAPL" 18262 12) sample_sentiment).
  intros xs ys Hlen. unfold pearsonr_guarded, pearsonr_const.
  destruct (decide (10 ≤ length xs)%nat); [reflexivity | lia].
Defined.

(** C3 as first stated has the count reported for the global pool too.
    The global result carries no count: tables with 3 and with 5 defined
    returns give the same global result. *)
Lemma global_result_without_count :
  let res3 := merge_and_analyze pearsonr_const (daily_rows "AAPL" 18262 3)
                sample_sentiment in
  let res5 := merge_and_analyze pearsonr_const (daily_rows "AAPL" 18262 5)
                sample_sentiment in
  res3.2 = res5.2 ∧
  length (dropna_return res3.1.1) = 3%nat ∧
  length (dropna_return res5.1.1) = 5%nat ∧
  ¬ (∃ count : option float * option float → nat,
       count res3.2 = length (dropna_return res3.1.1) ∧
       count res5.2 = length (dropna_return res5.1.1)).
Proof.
  intros res3 res5.
  assert (H2 : res3.2 = res5.2) by (vm_compute; reflexivity).
  assert (H3 : length (dropna_return res3.1.1) = 3%nat) by (vm_compute; reflexivity).
  assert (H5 : length (dropna_return res5.1.1) = 5%nat) by (vm_compute; reflexivity).
  split_and!; try done.
  intros (count & Hc3 & Hc5). rewrite H2, Hc5, H5 in Hc3. rewrite H3 in Hc3.
  discriminate.
Qed.

(** ** Dates that cannot be parsed *)

(** The price path parses strictly: one bad date ends [prepare_price_df]
    with an exception. *)
Lemma to_datetime_raises parse_datetime col s :
  PyStr s ∈ col → parse_datetime s = None →
  to_datetime parse_datetime col = None.
Proof.
  intros Hin Hs. unfold to_datetime. apply mapM_None.
  apply Exists_exists. exists (PyStr s). split; [done|].
  simpl. by rewrite Hs.
Qed.

Lemma prepare_price_df_raises parse_datetime price_df r s :
  r ∈ price_df → r_Date r = PyStr s → parse_datetime s = None →
  prepare_price_df parse_datetime price_df = None.
Proof.
  intros Hr Hd Hs. unfold prepare_price_df.
  rewrite (to_datetime_raises parse_datetime _ s); [done| |done].
  rewrite <- Hd. by apply list_elem_of_fmap_2.
Qed.

(** The news path coerces: a row whose date cannot be parsed has no group
    key, and the daily table is the one of the other rows. *)
Lemma score_news_unparsable parse_datetime polarity_of r s :
  date r = PyStr s → parse_datetime s = None →
  group_key (score_news parse_datetime polarity_of r) = None.
Proof.
  intros Hd Hs. unfold group_key, score_news, to_datetime_coerce. simpl.
  by rewrite Hd, Hs.
Qed.

Lemma aggregate_drops_keyless parse_datetime polarity_of news r :
  group_key (score_news parse_datetime polarity_of r) = None →
  aggregate_daily_sentiment parse_datetime polarity_of (r :: news) =
  aggregate_daily_sentiment parse_datetime polarity_of news.
Proof.
  intros Hkey. unfold aggregate_daily_sentiment. rewrite fmap_cons.
  unfold group_keys at 1. cbn [omap list_omap]. rewrite Hkey.
  fold (omap group_key (score_news parse_datetime polarity_of <$> news)).
  fold (group_keys (score_news parse_datetime polarity_of <$> news)).
  apply list_fmap_ext. intros _ k _. unfold aggregate_group, group_of.
  rewrite filter_cons_False; [done|]. by rewrite Hkey.
Qed.

(** C9 on the code.  With a date that cannot be parsed in the price
    table, [prepare_price_df] raises and the run ends without a result;
    the same kind of row in the news table is dropped and the daily table
    is built. *)
Theorem unparsable_price_date_aborts :
  iso_date "2020-13-45" = None ∧
  prepare_price_df iso_date prices_with_bad_date = None ∧
  main iso_date compute_polarity pearsonr_const sample_news prices_with_bad_date
    = None ∧
  iso_date "someday" = None ∧
  length (aggregate_daily_sentiment iso_date compute_polarity sample_news) = 2%nat.
Proof. split_and!; reflexivity. Qed.


(** * Further properties of [scripts/prepare_indicators.py] *)

(** ** [rsi_wilder]: warm-up, range and boundary values *)

Lemma clip_gain_0 (series : list float) :
  (0 < length series)%nat →
  (clip_lower0 <$> diff series) !! 0%nat = Some NaN ∧
  (fneg <$> (clip_upper0 <$> diff series)) !! 0%nat = Some NaN.
Proof.
  intros Hlen. destruct series as [|x xs]; [simpl in Hlen; lia|].
  rewrite !list_lookup_fmap, lookup_diff_0. done.
Qed.

Lemma rolling_mean_first_NaN (col : list float) t :
  col !! 0%nat = Some NaN → (t < 14)%nat → (t < length col)%nat →
  rolling_mean 14 14 col !! t = Some NaN.
Proof.
  intros H0 Ht Hlen. apply rolling_mean_NaN; [done|].
  unfold window. replace (S t - 14)%nat with 0%nat by lia. simpl.
  apply elem_of_take. exists 0%nat. split; [done | lia].
Qed.

(** Whatever the column holds, NaN and infinities included, the result
    has one entry per input entry and no value below index 14; a column of
    fewer than 15 entries gets no value at all. *)
Theorem rsi_wilder_warmup (series : list float) :
  length (rsi_wilder series 14) = length series ∧
  (∀ t, (t < 14)%nat → (t < length series)%nat →
        rsi_wilder series 14 !! t = Some NaN) ∧
  ((length series ≤ 14)%nat →
   rsi_wilder series 14 = replicate (length series) NaN).
Proof.
  assert (Hwarm : ∀ t, (t < 14)%nat → (t < length series)%nat →
                       rsi_wilder series 14 !! t = Some NaN).
  { intros t Ht Hlen. unfold rsi_wilder. rewrite lookup_zip_with.
    destruct (wilder_averages_lookup series 14 t) as [Hg Hl].
    rewrite Hg, Hl. rewrite !decide_False by lia.
    destruct (clip_gain_0 series) as [Hg0 Hl0]; [lia|].
    rewrite !rolling_mean_first_NaN; try done.
    - by rewrite length_fmap, length_diff.
    - by rewrite !length_fmap, length_diff. }
  split_and!; [apply length_rsi_wilder | exact Hwarm |].
  intros Hshort. apply list_eq. intros t.
  destruct (decide (t < length series)%nat) as [Ht|Ht].
  - rewrite Hwarm by lia. symmetry. by apply lookup_replicate_2.
  - rewrite (proj2 (lookup_ge_None _ _)) by (rewrite length_rsi_wilder; lia).
    symmetry. apply lookup_ge_None. rewrite length_replicate. lia.
Qed.

Lemma rsi_wilder_warmup_witness :
  rsi_wilder [Fin 1; NaN; PInf] 14 = replicate 3 NaN.
Proof.
  apply (rsi_wilder_warmup [Fin 1; NaN; PInf]). simpl. lia.
Defined.

Lemma Qc_max_0_nonneg a : 0 ≤ Qc_max a 0.
Proof.
  unfold Qc_max. case_decide; [apply Qcle_refl|]. by apply Qcnot_lt_le.
Qed.

Lemma gain_at_nonneg closes t : 0 ≤ gain_at closes t.
Proof. apply Qc_max_0_nonneg. Qed.

Lemma loss_at_nonneg closes t : 0 ≤ loss_at closes t.
Proof. apply Qc_max_0_nonneg. Qed.

Lemma Qc_max_0_pos a : 0 < Qc_max a 0 ↔ 0 < a.
Proof.
  unfold Qc_max. case_decide as H; [|done]. split.
  - intros H0. by apply Qclt_not_eq in H0.
  - intros Ha. exfalso. apply (Qclt_not_eq 0 0); [|done].
    by eapply Qclt_trans.
Qed.


Lemma delta_at_S closes j :
  delta_at closes (S j) = close_at closes (S j) - close_at closes j.
Proof. unfold delta_at. simpl. by rewrite Nat.sub_0_r. Qed.

Lemma gain_at_pos_iff closes j :
  0 < gain_at closes (S j) ↔ close_at closes j < close_at closes (S j).
Proof.
  unfold gain_at. rewrite Qc_max_0_pos, delta_at_S.
  symmetry. apply Qclt_minus_iff.
Qed.

Lemma loss_at_pos_iff closes j :
  0 < loss_at closes (S j) ↔ close_at closes (S j) < close_at closes j.
Proof.
  unfold loss_at. rewrite Qc_max_0_pos, delta_at_S.
  replace (- (close_at closes (S j) - close_at closes j))
    with (close_at closes j + - close_at closes (S j)) by ring.
  symmetry. apply Qclt_minus_iff.
Qed.

Lemma Qc_sum_pos_exists (x : nat → Qc) l :
  (∀ t, t ∈ l → 0 ≤ x t) → (∃ t, t ∈ l ∧ 0 < x t) → 0 < Qc_sum (x <$> l).
Proof.
  induction l as [|a l IH]; intros Hnn (t & Ht & Hpos).
  - by apply elem_of_nil in Ht.
  - csimpl. apply elem_of_cons in Ht as [-> | Ht].
    + apply Qcplus_pos_nonneg; [done|]. apply Qc_sum_nonneg.
      intros u Hu. by apply Hnn, list_elem_of_further.
    + apply Qcplus_nonneg_pos; [apply Hnn, list_elem_of_here|].
      apply IH; [|by exists t]. intros u Hu. by apply Hnn, list_elem_of_further.
Qed.

Lemma Qcdiv_nonneg a b : 0 ≤ a → 0 < b → 0 ≤ a / b.
Proof.
  intros Ha Hb. apply Qcmult_nonneg_nonneg; [done|].
  by apply Qclt_le_weak, Qcinv_pos.
Qed.

Section wilder_avg_sign.
Variable x : nat → Qc.
Hypothesis x_nonneg : ∀ t, 0 ≤ x t.

Lemma wilder_avg_nonneg k : 0 ≤ wilder_avg x k.
Proof.
  induction k as [|k IH]; cbn [wilder_avg].
  - apply Qcdiv_nonneg; [|by apply Qc_of_Z_pos].
    apply Qc_sum_nonneg. intros t _. apply x_nonneg.
  - apply Qcdiv_nonneg; [|by apply Qc_of_Z_pos].
    apply Qcplus_nonneg_nonneg; [|apply x_nonneg].
    apply Qcmult_nonneg_nonneg; [done|]. by apply Qclt_le_weak, Qc_of_Z_pos.
Qed.

(** Every observation since index 1 keeps a positive weight in the
    average. *)
Lemma wilder_avg_pos_exists k :
  (∃ t, (1 ≤ t ≤ 14 + k)%nat ∧ 0 < x t) → 0 < wilder_avg x k.
Proof.
  induction k as [|k IH]; intros (t & Ht & Hpos); cbn [wilder_avg].
  - apply Qcdiv_pos; [|by apply Qc_of_Z_pos].
    apply Qc_sum_pos_exists; [intros u _; apply x_nonneg|].
    exists t. split; [|done]. apply elem_of_seq. lia.
  - apply Qcdiv_pos; [|by apply Qc_of_Z_pos].
    destruct (decide (t = 14 + S k)%nat) as [->|Hne].
    + apply Qcplus_nonneg_pos; [|done].
      apply Qcmult_nonneg_nonneg; [apply wilder_avg_nonneg|].
      by apply Qclt_le_weak, Qc_of_Z_pos.
    + apply Qcplus_pos_nonneg; [|apply x_nonneg].
      apply Qcmult_pos_pos; [|by apply Qc_of_Z_pos].
      apply IH. exists t. split; [lia | done].
Qed.

Lemma wilder_avg_zero_iff k :
  wilder_avg x k = 0 ↔ ∀ t, (1 ≤ t ≤ 14 + k)%nat → x t = 0.
Proof.
  split; [|apply wilder_avg_zero].
  intros Hz t Ht.
  destruct (Qcle_lt_or_eq _ _ (x_nonneg t)) as [Hpos|Heq]; [|done].
  exfalso. assert (Hp : 0 < wilder_avg x k)
    by (apply wilder_avg_pos_exists; by exists t).
  rewrite Hz in Hp. by apply Qclt_not_eq in Hp.
Qed.

Lemma wilder_avg_pos_iff k :
  0 < wilder_avg x k ↔ ∃ t, (1 ≤ t ≤ 14 + k)%nat ∧ 0 < x t.
Proof.
  split; [|apply wilder_avg_pos_exists].
  intros Hp.
  destruct (decide (Exists (λ t, 0 < x t) (seq 1 (14 + k)))) as [Hex|Hno].
  - apply Exists_exists in Hex as (t & Ht & Hpos). exists t.
    apply elem_of_seq in Ht. split; [lia | done].
  - exfalso. assert (Hz : wilder_avg x k = 0).
    { apply wilder_avg_zero. intros t Ht.
      destruct (Qcle_lt_or_eq _ _ (x_nonneg t)) as [Hpos|Heq]; [|done].
      exfalso. apply Hno. apply Exists_exists. exists t. split; [|done].
      apply elem_of_seq. lia. }
    rewrite Hz in Hp. by apply Qclt_not_eq in Hp.
Qed.
End wilder_avg_sign.

(** The index from the two averages, case by case. *)
Lemma rsi_of_flat : rsi_of (Fin 0) (Fin 0) = NaN.
Proof. reflexivity. Qed.

Lemma rsi_of_some_loss g l :
  0 ≤ g → 0 < l →
  rsi_of (Fin g) (Fin l) = Fin (Qc_of_Z 100 * (g / (g + l))) ∧
  0 ≤ g / (g + l) ∧ g / (g + l) < 1.
Proof.
  intros Hg Hl.
  assert (Hl0 : l ≠ 0) by (intros ->; by apply Qclt_not_eq in Hl).
  assert (Hgl : 0 < g + l) by (by apply Qcplus_nonneg_pos).
  assert (Hgl0 : g + l ≠ 0) by (intros Heq; rewrite Heq in Hgl; by apply Qclt_not_eq in Hgl).
  assert (H1 : 1 + g / l = (g + l) / l) by (by field).
  assert (H10 : 1 + g / l ≠ 0).
  { rewrite H1. intros Heq. assert (Hp : 0 < (g + l) / l) by (by apply Qcdiv_pos).
    rewrite Heq in Hp. by apply Qclt_not_eq in Hp. }
  split_and!.
  - unfold rsi_of, rsi_of_rs, float_of_Z.
    rewrite (fdiv_Fin g l) by done. rewrite fadd_Fin.
    rewrite fdiv_Fin by done. rewrite fsub_Fin. f_equal.
    field. by split.
  - by apply Qcdiv_nonneg.
  - assert (Hone : (g + l) * / (g + l) = 1) by (by apply Qcmult_inv_r).
    rewrite <- Hone. unfold Qcdiv. apply Qcmult_lt_compat_r; [by apply Qcinv_pos|].
    apply Qclt_minus_iff. by replace (g + l + - g) with l by ring.
Qed.

Lemma avg_gain_pos_iff closes t :
  (14 ≤ t)%nat →
  0 < wilder_avg (gain_at closes) (t - 14) ↔ rises_upto closes t.
Proof.
  intros Ht. rewrite wilder_avg_pos_iff by apply gain_at_nonneg.
  unfold rises_upto. split.
  - intros ([|j] & Hj & Hpos); [lia|]. exists j.
    split; [lia|]. by apply gain_at_pos_iff.
  - intros (j & Hj & Hlt). exists (S j). split; [lia|]. by apply gain_at_pos_iff.
Qed.

Lemma avg_loss_pos_iff closes t :
  (14 ≤ t)%nat →
  0 < wilder_avg (loss_at closes) (t - 14) ↔ falls_upto closes t.
Proof.
  intros Ht. rewrite wilder_avg_pos_iff by apply loss_at_nonneg.
  unfold falls_upto. split.
  - intros ([|j] & Hj & Hpos); [lia|]. exists j.
    split; [lia|]. by apply loss_at_pos_iff.
  - intros (j & Hj & Hlt). exists (S j). split; [lia|]. by apply loss_at_pos_iff.
Qed.

Lemma Qc_nonneg_cases a : 0 ≤ a → a = 0 ∨ 0 < a.
Proof.
  intros Ha. destruct (Qcle_lt_or_eq _ _ Ha) as [H|H]; [by right | by left].
Qed.

Lemma Qc_pos_not_zero a : 0 < a → a ≠ 0.
Proof. intros Ha ->. by apply Qclt_not_eq in Ha. Qed.

(** The three regimes of the index from index 14 on: no move at all, rises
    only, or at least one fall. *)
Lemma rsi_wilder_regimes closes t :
  (14 ≤ t)%nat → (t < length closes)%nat →
  (¬ rises_upto closes t ∧ ¬ falls_upto closes t ∧
   rsi_wilder (observed closes) 14 !! t = Some NaN) ∨
  (rises_upto closes t ∧ ¬ falls_upto closes t ∧
   rsi_wilder (observed closes) 14 !! t = Some (float_of_Z 100)) ∨
  (falls_upto closes t ∧
   ∃ r, rsi_wilder (observed closes) 14 !! t = Some (Fin (Qc_of_Z 100 * r)) ∧
        0 ≤ r ∧ r < 1 ∧ (r = 0 ↔ ¬ rises_upto closes t)).
Proof.
  intros H14 Hlen. rewrite rsi_wilder_observed by done.
  unfold rsi_spec. rewrite decide_False by lia. cbv zeta.
  fold (rsi_of_rs (fdiv (Fin (wilder_avg (gain_at closes) (t - 14)))
                        (Fin (wilder_avg (loss_at closes) (t - 14))))).
  fold (rsi_of (Fin (wilder_avg (gain_at closes) (t - 14)))
               (Fin (wilder_avg (loss_at closes) (t - 14)))).
  pose proof (avg_gain_pos_iff closes t H14) as Hgi.
  pose proof (avg_loss_pos_iff closes t H14) as Hli.
  pose proof (wilder_avg_nonneg _ (gain_at_nonneg closes) (t - 14)) as Hg.
  pose proof (wilder_avg_nonneg _ (loss_at_nonneg closes) (t - 14)) as Hl.
  set (g := wilder_avg (gain_at closes) (t - 14)) in *.
  set (l := wilder_avg (loss_at closes) (t - 14)) in *.
  destruct (Qc_nonneg_cases l Hl) as [Hl0|Hlpos].
  - assert (Hnf : ¬ falls_upto closes t).
    { intros Hf. apply Hli in Hf. rewrite Hl0 in Hf. by apply Qclt_not_eq in Hf. }
    rewrite Hl0. destruct (Qc_nonneg_cases g Hg) as [Hg0|Hgpos].
    + left. split_and!; [|done|by rewrite Hg0].
      intros Hr. apply Hgi in Hr. rewrite Hg0 in Hr. by apply Qclt_not_eq in Hr.
    + right. left. split_and!; [by apply Hgi|done|].
      by rewrite rsi_of_all_gain.
  - right. right. split; [by apply Hli|].
    destruct (rsi_of_some_loss g l Hg Hlpos) as (Hv & Hr0 & Hr1).
    exists (g / (g + l)). split_and!; try done; [by rewrite Hv|].
    assert (Hgl : g + l ≠ 0) by (by apply Qc_pos_not_zero, Qcplus_nonneg_pos).
    split.
    + intros Hz Hr. apply Hgi in Hr.
      assert (Hg0 : g = 0).
      { replace g with (g / (g + l) * (g + l)) by (by field). rewrite Hz. ring. }
      rewrite Hg0 in Hr. by apply Qclt_not_eq in Hr.
    + intros Hnr. destruct (Qc_nonneg_cases g Hg) as [->|Hgpos].
      * unfold Qcdiv. ring.
      * exfalso. by apply Hnr, Hgi.
Qed.

Lemma Some_Fin_inj a b : Some (Fin a) = Some (Fin b) → a = b.
Proof. intros H. by injection H. Qed.

(** On observed closes every value of the index is NaN or lies between 0
    and 100. *)
Theorem rsi_wilder_range (closes : list Qc) :
  Forall (λ v, v = NaN ∨ ∃ q, v = Fin q ∧ 0 ≤ q ∧ q ≤ Qc_of_Z 100)
         (rsi_wilder (observed closes) 14).
Proof.
  apply Forall_lookup. intros t v Hv.
  assert (Hlen : (t < length closes)%nat).
  { apply lookup_lt_Some in Hv. by rewrite length_rsi_wilder, length_observed in Hv. }
  destruct (decide (t < 14)%nat) as [Ht|Ht].
  - left. rewrite rsi_wilder_observed in Hv by done. unfold rsi_spec in Hv.
    rewrite decide_True in Hv by done. by injection Hv.
  - destruct (rsi_wilder_regimes closes t) as
      [(_ & _ & H)|[(_ & _ & H)|(_ & r & H & Hr0 & Hr1 & _)]];
      [lia|done|..]; rewrite H in Hv; injection Hv as <-.
    + by left.
    + right. eexists. split; [done|]. split; [|apply Qcle_refl].
      by apply Qclt_le_weak, Qc_of_Z_pos.
    + right. eexists. split; [done|]. split.
      * apply Qcmult_nonneg_nonneg; [|done]. by apply Qclt_le_weak, Qc_of_Z_pos.
      * replace (Qc_of_Z 100) with (Qc_of_Z 100 * 1) at 2 by ring.
        apply Qcmult_le_mono_nonneg_l; [by apply Qclt_le_weak, Qc_of_Z_pos|].
        by apply Qclt_le_weak.
Qed.

(** A series that has not moved at all up to an index from 14 on has no
    value of the index there: both averages are 0, and their ratio is
    [0/0]. *)
Theorem rsi_wilder_flat (closes : list Qc) (t : nat) :
  (14 ≤ t)%nat → (t < length closes)%nat →
  (∀ j, (j < t)%nat → close_at closes (S j) = close_at closes j) →
  rsi_wilder (observed closes) 14 !! t = Some NaN.
Proof.
  intros H14 Hlen Hflat.
  destruct (rsi_wilder_regimes closes t H14 Hlen) as
    [(_ & _ & H)|[((j & Hj & Hlt) & _)|((j & Hj & Hlt) & _)]]; [done| |];
    rewrite Hflat in Hlt by done; by apply Qclt_not_eq in Hlt.
Qed.

Lemma rsi_wilder_flat_witness :
  rsi_wilder (observed (replicate 20 (Qc_of_Z 7))) 14 !! 17%nat = Some NaN.
Proof.
  apply (rsi_wilder_flat (replicate 20 (Qc_of_Z 7)) 17).
  - lia.
  - simpl. lia.
  - intros j Hj. unfold close_at.
    rewrite !lookup_replicate_2 by lia. reflexivity.
Defined.

(** Within the range of doubles, a series that has risen at least once and
    never fallen up to an index from 14 on has the index exactly 100
    there: the average loss is 0 and the ratio an infinity. *)
Theorem rsi_wilder_no_fall (closes : list Qc) (t : nat) :
  within_double_range closes →
  (14 ≤ t)%nat → (t < length closes)%nat →
  rises_upto closes t → ¬ falls_upto closes t →
  Double.rsi_wilder (observed closes) 14 !! t = Some (float_of_Z 100).
Proof.
  intros Hrange H14 Hlen Hr Hnf.
  rewrite Double_rsi_wilder_lookup by done.
  rewrite <- rsi_wilder_observed by done.
  destruct (rsi_wilder_regimes closes t H14 Hlen) as
    [(Hnr & _)|[(_ & _ & H)|(Hf & _)]]; done.
Qed.

Lemma rsi_wilder_no_fall_witness :
  Double.rsi_wilder (observed (Qc_of_nat <$> seq 5 20)) 14 !! 16%nat =
    Some (float_of_Z 100).
Proof.
  apply (rsi_wilder_no_fall (Qc_of_nat <$> seq 5 20) 16).
  - apply (bool_decide_unpack _). vm_compute. exact I.
  - lia.
  - simpl. lia.
  - exists 0%nat. split; [lia | reflexivity].
  - intros (j & Hj & Hlt).
    do 16 (destruct j as [|j]; [vm_compute in Hlt; discriminate Hlt|]). lia.
Defined.

(** Within the range of doubles, a series that has fallen at least once
    and never risen up to an index from 14 on has the index exactly 0
    there. *)
Theorem rsi_wilder_no_rise (closes : list Qc) (t : nat) :
  within_double_range closes →
  (14 ≤ t)%nat → (t < length closes)%nat →
  falls_upto closes t → ¬ rises_upto closes t →
  Double.rsi_wilder (observed closes) 14 !! t = Some (Fin 0).
Proof.
  intros Hrange H14 Hlen Hf Hnr.
  rewrite Double_rsi_wilder_lookup by done.
  rewrite <- rsi_wilder_observed by done.
  destruct (rsi_wilder_regimes closes t H14 Hlen) as
    [(_ & Hnf & _)|[(Hr & _)|(_ & r & H & _ & _ & Hz)]]; [done|done|].
  rewrite H. apply Hz in Hnr. rewrite Hnr.
  by replace (Qc_of_Z 100 * 0) with (0 : Qc) by ring.
Qed.

Lemma rsi_wilder_no_rise_witness :
  Double.rsi_wilder
    (observed ((λ i, Qc_of_Z 50 - Qc_of_nat i) <$> seq 0 20)) 14 !! 16%nat =
    Some (Fin 0).
Proof.
  apply (rsi_wilder_no_rise ((λ i, Qc_of_Z 50 - Qc_of_nat i) <$> seq 0 20) 16).
  - apply (bool_decide_unpack _). vm_compute. exact I.
  - lia.
  - simpl. lia.
  - exists 0%nat. split; [lia | reflexivity].
  - intros (j & Hj & Hlt).
    do 16 (destruct j as [|j]; [vm_compute in Hlt; discriminate Hlt|]). lia.
Defined.

(** ** [rsi_wilder] and [macd_pandas] under a change of unit *)

Lemma close_at_fmap (f : Qc → Qc) closes j :
  (j < length closes)%nat → close_at (f <$> closes) j = f (close_at closes j).
Proof.
  intros Hj. unfold close_at. rewrite list_lookup_fmap.
  destruct (lookup_lt_is_Some_2 closes j Hj) as [a ->]. done.
Qed.


Section affine_closes.
Variables (c b : Qc) (closes : list Qc).
Hypothesis c_pos : 0 < c.




End affine_closes.









(** ** [macd_pandas]: constant series, bounds, change of unit *)

(** The three columns on observed closes, by index. *)
Lemma macd_pandas_observed (closes : list Qc) :
  macd_pandas (observed closes) 12 26 9 =
    (observed (macd_at closes <$> seq 0 (length closes)),
     observed (signal_at closes <$> seq 0 (length closes)),
     observed (hist_at closes <$> seq 0 (length closes))).
Proof.
  unfold macd_pandas.
  assert (Hxs : observed closes =
                observed (close_at closes <$> seq 0 (length closes)))
    by (f_equal; apply closes_tabulate).
  rewrite Hxs.
  rewrite !ewm_mean_observed, zip_with_fsub_observed.
  change (λ t, ema_at 12 (close_at closes) t - ema_at 26 (close_at closes) t)
    with (macd_at closes).
  rewrite ewm_mean_observed, zip_with_fsub_observed. done.
Qed.

Lemma ema_at_ext span (x y : nat → Qc) t :
  (∀ j, (j ≤ t)%nat → x j = y j) → ema_at span x t = ema_at span y t.
Proof.
  induction t as [|t IH]; intros H; cbn [ema_at]; [by apply H|].
  rewrite IH by (intros j Hj; apply H; lia). rewrite H by lia. done.
Qed.

Lemma ema_at_affine span (c b : Qc) (x : nat → Qc) t :
  ema_at span (λ j, c * x j + b) t = c * ema_at span x t + b.
Proof.
  induction t as [|t IH]; cbn [ema_at]; [done|]. rewrite IH. ring.
Qed.

Lemma fmap_seq_ext {A} (f g : nat → A) k m :
  (∀ j, (k ≤ j < k + m)%nat → f j = g j) → f <$> seq k m = g <$> seq k m.
Proof.
  intros H. apply list_eq. intros i. rewrite !list_lookup_fmap.
  destruct (decide (i < m)%nat) as [Hi|Hi].
  - rewrite lookup_seq_lt by done. simpl. f_equal. apply H. lia.
  - by rewrite lookup_seq_ge by lia.
Qed.

Lemma observed_scale (c : Qc) (f : nat → Qc) l :
  observed ((λ t, c * f t) <$> l) = fmul (Fin c) <$> observed (f <$> l).
Proof.
  unfold observed. rewrite <- !list_fmap_compose. done.
Qed.

(** The MACD columns do not see a shift of the prices, and scale with
    them: after every close is multiplied by [c] and shifted by [b], each of
    the three columns is [c] times what it was. *)
Theorem macd_pandas_affine (c b : Qc) (closes : list Qc) :
  macd_pandas (observed ((λ q, c * q + b) <$> closes)) 12 26 9 =
  (fmul (Fin c) <$> (macd_pandas (observed closes) 12 26 9).1.1,
   fmul (Fin c) <$> (macd_pandas (observed closes) 12 26 9).1.2,
   fmul (Fin c) <$> (macd_pandas (observed closes) 12 26 9).2).
Proof.
  rewrite !macd_pandas_observed. cbn [fst snd]. rewrite length_fmap.
  rewrite <- !observed_scale.
  assert (Hm : ∀ t, (t < length closes)%nat →
                    macd_at ((λ q, c * q + b) <$> closes) t = c * macd_at closes t).
  { intros t Ht. unfold macd_at.
    rewrite !(ema_at_ext _ (close_at ((λ q, c * q + b) <$> closes))
                (λ j, c * close_at closes j + b))
      by (intros j Hj; apply close_at_fmap; lia).
    rewrite !ema_at_affine. ring. }
  assert (Hs : ∀ t, (t < length closes)%nat →
                    signal_at ((λ q, c * q + b) <$> closes) t = c * signal_at closes t).
  { intros t Ht. unfold signal_at.
    rewrite (ema_at_ext _ (macd_at ((λ q, c * q + b) <$> closes))
               (λ j, c * macd_at closes j + 0))
      by (intros j Hj; rewrite Hm by lia; ring).
    rewrite ema_at_affine. ring. }
  f_equal; [f_equal|]; f_equal; apply fmap_seq_ext; intros t Ht.
  - apply Hm. lia.
  - apply Hs. lia.
  - unfold hist_at. rewrite Hm, Hs by lia. ring.
Qed.

Lemma ema_at_const span (a : Qc) t : ema_at span (λ _, a) t = a.
Proof. induction t as [|t IH]; cbn [ema_at]; [done|]. rewrite IH. ring. Qed.

(** On a series that never moves the MACD line, the signal line and the
    histogram are exactly 0 at every index. *)
Theorem macd_pandas_constant (a : Qc) (m : nat) :
  macd_pandas (observed (replicate m a)) 12 26 9 =
  (replicate m (Fin 0), replicate m (Fin 0), replicate m (Fin 0)).
Proof.
  rewrite macd_pandas_observed, length_replicate.
  assert (Hc : ∀ t, (t < m)%nat → close_at (replicate m a) t = a).
  { intros t Ht. unfold close_at. by rewrite lookup_replicate_2. }
  assert (Hm : ∀ t, (t < m)%nat → macd_at (replicate m a) t = 0).
  { intros t Ht. unfold macd_at.
    rewrite !(ema_at_ext _ (close_at (replicate m a)) (λ _, a))
      by (intros j Hj; apply Hc; lia).
    rewrite !ema_at_const. ring. }
  assert (Hs : ∀ t, (t < m)%nat → signal_at (replicate m a) t = 0).
  { intros t Ht. unfold signal_at.
    rewrite (ema_at_ext _ (macd_at (replicate m a)) (λ _, 0))
      by (intros j Hj; apply Hm; lia).
    apply ema_at_const. }
  assert (Hrep : replicate m (Fin 0) = observed ((λ _, 0) <$> seq 0 m)).
  { unfold observed. rewrite <- list_fmap_compose.
    apply list_eq. intros i. rewrite list_lookup_fmap.
    destruct (decide (i < m)%nat).
    - by rewrite lookup_replicate_2, lookup_seq_lt.
    - rewrite lookup_seq_ge by lia. apply lookup_ge_None.
      rewrite length_replicate. lia. }
  rewrite Hrep. f_equal; [f_equal|]; f_equal; apply fmap_seq_ext; intros t Ht.
  - apply Hm. lia.
  - apply Hs. lia.
  - unfold hist_at. rewrite Hm, Hs by lia. ring.
Qed.

Lemma ema_alpha_range span :
  (1 ≤ span)%nat → 0 ≤ ema_alpha span ∧ 0 ≤ 1 - ema_alpha span.
Proof.
  intros Hs. unfold ema_alpha.
  assert (Hs1 : (1 ≤ Z.of_nat span)%Z) by lia.
  apply (Z2Qc_inj_le 1 (Z.of_nat span)) in Hs1.
  rewrite Z2Qc_inj_1 in Hs1. fold (Qc_of_nat span) in Hs1.
  assert (Hden : 0 < Qc_of_nat span + 1).
  { apply Qcplus_nonneg_pos; [apply Qc_of_nat_nonneg | done]. }
  pose proof (Qc_pos_not_zero _ Hden) as Hden0.
  split.
  - apply Qcdiv_nonneg; [done | done].
  - replace (1 - 2 / (Qc_of_nat span + 1))
      with ((Qc_of_nat span - 1) / (Qc_of_nat span + 1)) by (by field).
    apply Qcdiv_nonneg; [|done].
    apply Qcle_minus_iff in Hs1. done.
Qed.

(** A weighted mean of two values between [lo] and [hi] is between them. *)
Lemma convex_between (al x e lo hi : Qc) :
  0 ≤ al → 0 ≤ 1 - al → lo ≤ x → x ≤ hi → lo ≤ e → e ≤ hi →
  lo ≤ al * x + (1 - al) * e ∧ al * x + (1 - al) * e ≤ hi.
Proof.
  intros Ha H1a Hlx Hxh Hle Heh. split.
  - replace lo with (al * lo + (1 - al) * lo) by ring.
    apply Qcplus_le_compat; by apply Qcmult_le_mono_nonneg_l.
  - replace hi with (al * hi + (1 - al) * hi) by ring.
    apply Qcplus_le_compat; by apply Qcmult_le_mono_nonneg_l.
Qed.

Lemma ema_at_between span (x : nat → Qc) (lo hi : Qc) t :
  (1 ≤ span)%nat → (∀ j, (j ≤ t)%nat → lo ≤ x j ∧ x j ≤ hi) →
  lo ≤ ema_at span x t ∧ ema_at span x t ≤ hi.
Proof.
  intros Hs. destruct (ema_alpha_range span Hs) as [Ha H1a].
  induction t as [|t IH]; intros H; cbn [ema_at]; [apply H; lia|].
  destruct IH as [IH1 IH2]; [intros j Hj; apply H; lia|].
  destruct (H (S t)) as [Hx1 Hx2]; [lia|].
  by apply convex_between.
Qed.

Lemma close_at_between closes lo hi j :
  Forall (λ q, lo ≤ q ∧ q ≤ hi) closes → (j < length closes)%nat →
  lo ≤ close_at closes j ∧ close_at closes j ≤ hi.
Proof.
  intros Hall Hj. unfold close_at.
  destruct (lookup_lt_is_Some_2 closes j Hj) as [a Ha]. rewrite Ha. simpl.
  by apply (Forall_lookup_1 _ _ _ _ Hall Ha).
Qed.

Lemma Qc_diff_between (a b lo hi : Qc) :
  lo ≤ a → a ≤ hi → lo ≤ b → b ≤ hi →
  - (hi - lo) ≤ a - b ∧ a - b ≤ hi - lo.
Proof.
  intros Ha1 Ha2 Hb1 Hb2. split.
  - replace (- (hi - lo)) with (lo + - hi) by ring. unfold Qcminus.
    apply Qcplus_le_compat; [done|]. by apply Qcopp_le_compat.
  - unfold Qcminus. apply Qcplus_le_compat; [done|]. by apply Qcopp_le_compat.
Qed.

(** When every close lies between [lo] and [hi], the MACD line and the
    signal line never leave the band from [-(hi - lo)] to [hi - lo]. *)
Theorem macd_pandas_band (closes : list Qc) (lo hi : Qc) :
  Forall (λ q, lo ≤ q ∧ q ≤ hi) closes →
  let band := λ v, ∃ q, v = Fin q ∧ - (hi - lo) ≤ q ∧ q ≤ hi - lo in
  Forall band (macd_pandas (observed closes) 12 26 9).1.1 ∧
  Forall band (macd_pandas (observed closes) 12 26 9).1.2.
Proof.
  intros Hall band. rewrite macd_pandas_observed. cbn [fst snd].
  assert (Hm : ∀ t, (t < length closes)%nat →
                    - (hi - lo) ≤ macd_at closes t ∧ macd_at closes t ≤ hi - lo).
  { intros t Ht. unfold macd_at.
    destruct (ema_at_between 12 (close_at closes) lo hi t) as [? ?];
      [lia | intros j Hj; apply close_at_between; [done|lia] |].
    destruct (ema_at_between 26 (close_at closes) lo hi t) as [? ?];
      [lia | intros j Hj; apply close_at_between; [done|lia] |].
    by apply Qc_diff_between. }
  split; apply Forall_fmap, Forall_fmap, Forall_forall;
    intros t Ht%elem_of_seq; simpl; eexists; (split; [done|]).
  - apply Hm. lia.
  - unfold signal_at. apply ema_at_between; [lia|].
    intros j Hj. apply Hm. lia.
Qed.

Lemma macd_pandas_band_witness :
  Forall (λ v, ∃ q, v = Fin q ∧
                    - (Qc_of_Z 20 - Qc_of_Z 5) ≤ q ∧ q ≤ Qc_of_Z 20 - Qc_of_Z 5)
         (macd_pandas (observed (Qc_of_nat <$> [5; 9; 20; 7; 12]%nat)) 12 26 9).1.1.
Proof.
  apply (macd_pandas_band (Qc_of_nat <$> [5; 9; 20; 7; 12]%nat)
           (Qc_of_Z 5) (Qc_of_Z 20)).
  repeat constructor; discriminate.
Defined.

(** ** [process_file]: the rows it writes *)

Section sort_by_sorted.
Context {A K : Type} (key : A → K) (leb : K → K → bool).
Hypothesis leb_total : ∀ a b, leb a b = false → leb b a = true.

Let R (x y : A) : Prop := leb (key x) (key y) = true.

Lemma HdRel_insert_by x a l :
  R a x → HdRel R a l → HdRel R a (insert_by key leb x l).
Proof.
  intros Hax Hl. destruct l as [|y l]; cbn [insert_by]; [by constructor|].
  destruct (leb (key x) (key y)); constructor; [done|].
  by inversion Hl.
Qed.

Lemma Sorted_insert_by x l : Sorted R l → Sorted R (insert_by key leb x l).
Proof.
  induction l as [|y l IH]; intros Hl; cbn [insert_by].
  - repeat constructor.
  - destruct (leb (key x) (key y)) eqn:Hxy.
    + constructor; [done|]. by constructor.
    + apply Sorted_inv in Hl as [Hl Hhd]. constructor; [by apply IH|].
      apply HdRel_insert_by; [|done]. by apply leb_total.
Qed.

Lemma Sorted_sort_by l : Sorted R (sort_by key leb l).
Proof.
  induction l as [|a l IH]; [constructor|].
  change (sort_by key leb (a :: l)) with (insert_by key leb a (sort_by key leb l)).
  by apply Sorted_insert_by.
Qed.
End sort_by_sorted.

Lemma Sorted_weaken {A} (R R' : A → A → Prop) l :
  (∀ a b, R a b → R' a b) → Sorted R l → Sorted R' l.
Proof.
  intros Himp. induction 1 as [|a l Hl IH Hhd]; constructor; [done|].
  destruct Hhd; constructor. by apply Himp.
Qed.

Lemma Sorted_sort_by_Date (l : list price_bar) :
  Sorted (λ a b, (Date a ≤ Date b)%Z) (sort_by Date Z.leb l).
Proof.
  eapply Sorted_weaken; [|apply (Sorted_sort_by Date Z.leb)].
  - intros a b Hab. by apply Z.leb_le.
  - intros a b Hab. apply Z.leb_le. apply Z.leb_gt in Hab. lia.
Qed.

Lemma bar_process_file rows : bar <$> process_file rows = sort_by Date Z.leb rows.
Proof.
  unfold process_file. destruct (macd_pandas _ 12 26 9) as [[m sg] h].
  apply list_eq. intros i. rewrite list_lookup_fmap, list_lookup_imap.
  by destruct (sort_by Date Z.leb rows !! i).
Qed.

(** The processed table has the rows of the price table, each once, in the
    order of their dates. *)
Theorem process_file_rows (rows : list price_bar) :
  bar <$> process_file rows ≡ₚ rows ∧
  Sorted (λ a b, (Date a ≤ Date b)%Z) (bar <$> process_file rows) ∧
  length (process_file rows) = length rows.
Proof.
  rewrite bar_process_file. split_and!.
  - apply sort_by_Permutation.
  - apply Sorted_sort_by_Date.
  - rewrite <- (length_fmap bar), bar_process_file. apply length_sort_by.
Qed.

Lemma NoDup_fmap_elem {A B} (f : A → B) (l : list A) x y :
  NoDup (f <$> l) → x ∈ l → y ∈ l → f x = f y → x = y.
Proof.
  intros Hnd Hx Hy Hf.
  apply list_elem_of_lookup in Hx as [i Hi]. apply list_elem_of_lookup in Hy as [j Hj].
  assert (Hij : i = j).
  { apply (NoDup_lookup _ i j (f x) Hnd).
    - by rewrite list_lookup_fmap, Hi.
    - by rewrite list_lookup_fmap, Hj, Hf. }
  subst j. by simplify_eq.
Qed.

Lemma sort_by_Date_unique (rows rows' : list price_bar) :
  rows ≡ₚ rows' → NoDup (Date <$> rows) →
  sort_by Date Z.leb rows = sort_by Date Z.leb rows'.
Proof.
  intros Hperm Hnd.
  assert (HT : Transitive (λ a b : price_bar, (Date a ≤ Date b)%Z))
    by (intros a b c ? ?; lia).
  apply (Sorted_unique_strong (λ a b : price_bar, (Date a ≤ Date b)%Z));
    try done; try apply Sorted_sort_by_Date.
  - intros x1 x2 Hx1 Hx2 H12 H21.
    apply elem_of_sort_by in Hx1. apply elem_of_sort_by in Hx2.
    rewrite <- Hperm in Hx2.
    apply (NoDup_fmap_elem Date rows); [done..|lia].
  - by rewrite !sort_by_Permutation.
Qed.

(** When no date occurs twice, the processed table does not depend on the
    order of the rows in the price file. *)
Theorem process_file_order_independent (rows rows' : list price_bar) :
  rows ≡ₚ rows' → NoDup (Date <$> rows) →
  process_file rows = process_file rows'.
Proof.
  intros Hperm Hnd. unfold process_file.
  by rewrite (sort_by_Date_unique rows rows' Hperm Hnd).
Qed.

Lemma process_file_order_independent_witness :
  process_file (reverse rising_rows) = process_file rising_rows.
Proof.
  apply process_file_order_independent.
  - apply reverse_Permutation.
  - apply (bool_decide_unpack _). vm_compute. exact I.
Defined.

(** ** [process_file]: moving averages and returns on observed closes *)







(** ** The volatility column of [process_file] *)












(** * Further properties of [scripts/sentiment_analysis.py] *)

(** ** The tokens of [re.findall(r"\w+", text)] *)

Lemma list_ascii_app (a b : string) :
  list_ascii_of_string (a +:+ b) = list_ascii_of_string a ++ list_ascii_of_string b.
Proof.
  induction a as [|x a IH]; [done|]. rewrite string_app_cons. simpl. by f_equal.
Qed.

(** A run of word characters is read as one token, joined to the run that
    is open. *)
Lemma findall_words_from_run cur (w : string) :
  Forall (λ c, is_word_char c = true) (list_ascii_of_string w) →
  (cur = None → w ≠ EmptyString) →
  findall_words_from cur w = [default EmptyString cur +:+ w].
Proof.
  revert cur. induction w as [|c w IH]; intros cur Hall Hne.
  - destruct cur as [u|]; [|by destruct Hne]. simpl. by rewrite string_app_nil_r.
  - simpl in Hall. apply Forall_cons in Hall as [Hc Hall].
    cbn [findall_words_from]. rewrite Hc. rewrite IH; [|done|done].
    simpl. by rewrite string_app_assoc, string_app_cons, string_app_nil_l.
Qed.

(** A character that is not a word character closes the run that is open
    and starts afresh. *)
Lemma findall_words_from_sep cur (s1 s2 : string) c :
  is_word_char c = false →
  findall_words_from cur (s1 +:+ String c s2) =
  findall_words_from cur s1 ++ findall_words s2.
Proof.
  intros Hc. revert cur. induction s1 as [|a s1 IH]; intros cur.
  - rewrite string_app_nil_l. simpl. rewrite Hc. by destruct cur.
  - rewrite string_app_cons. simpl. destruct (is_word_char a); [apply IH|].
    destruct cur; simpl; by rewrite IH.
Qed.

(** The tokenizer is fixed by three equations: the empty text has no
    token; a non-empty text of word characters is its own single token; and
    a character that is not a word character splits the text into what is
    before it and what is after it. *)
Theorem findall_words_equations :
  findall_words EmptyString = [] ∧
  (∀ w, w ≠ EmptyString →
        Forall (λ c, is_word_char c = true) (list_ascii_of_string w) →
        findall_words w = [w]) ∧
  (∀ s1 s2 c, is_word_char c = false →
        findall_words (s1 +:+ String c s2) = findall_words s1 ++ findall_words s2).
Proof.
  split_and!; [done| |].
  - intros w Hne Hall. unfold findall_words.
    by rewrite findall_words_from_run.
  - intros s1 s2 c Hc. by apply findall_words_from_sep.
Qed.

Lemma findall_words_equations_witness :
  findall_words ("up" +:+ String "," "down") =
  findall_words "up" ++ findall_words "down".
Proof.
  apply findall_words_equations. reflexivity.
Defined.

Lemma findall_words_from_tokens cur s :
  (∀ u, cur = Some u →
        u ≠ EmptyString ∧ Forall (λ c, is_word_char c = true) (list_ascii_of_string u)) →
  Forall (λ w, w ≠ EmptyString ∧
               Forall (λ c, is_word_char c = true) (list_ascii_of_string w))
         (findall_words_from cur s) ∧
  mjoin (list_ascii_of_string <$> findall_words_from cur s) =
    list_ascii_of_string (default EmptyString cur)
    ++ filter (λ c, is_word_char c = true) (list_ascii_of_string s).
Proof.
  revert cur. induction s as [|c s IH]; intros cur Hcur.
  - destruct cur as [u|]; simpl.
    + split; [constructor; [by apply Hcur | constructor]|].
      by rewrite !app_nil_r.
    + split; [constructor | done].
  - cbn [findall_words_from]. simpl (list_ascii_of_string (String c s)).
    destruct (is_word_char c) eqn:Hc.
    + rewrite filter_cons_True by done.
      destruct (IH (Some (default EmptyString cur +:+ String c EmptyString))) as [H1 H2].
      { intros u [= <-]. split.
        - destruct cur as [v|]; simpl; [|done]. by destruct v.
        - rewrite list_ascii_app. apply Forall_app. split.
          + destruct cur as [v|]; simpl; [by apply Hcur | constructor].
          + simpl. by repeat constructor. }
      split; [done|]. rewrite H2. simpl. rewrite list_ascii_app. simpl.
      by rewrite <- app_assoc.
    + rewrite filter_cons_False by (by rewrite Hc).
      destruct (IH None) as [H1 H2]; [done|].
      destruct cur as [u|]; csimpl.
      * split; [constructor; [by apply Hcur | done]|]. by rewrite H2.
      * split; [done|]. by rewrite H2.
Qed.

(** Every token is a non-empty string of word characters, and the tokens
    put end to end are the text without its other characters: tokenizing
    drops separators and nothing else. *)
Theorem findall_words_tokens (s : string) :
  Forall (λ w, w ≠ EmptyString ∧
               Forall (λ c, is_word_char c = true) (list_ascii_of_string w))
         (findall_words s) ∧
  mjoin (list_ascii_of_string <$> findall_words s) =
    filter (λ c, is_word_char c = true) (list_ascii_of_string s).
Proof.
  destruct (findall_words_from_tokens None s) as [H1 H2]; [done|].
  unfold findall_words. split; [done|]. by rewrite H2.
Qed.

(** ** The extreme scores of the fallback scorer *)

Lemma Qc_ratio_eq (a b c : Z) :
  (0 < b)%Z → Qc_of_Z a / Qc_of_Z b = Qc_of_Z c ↔ a = (c * b)%Z.
Proof.
  intros Hb. pose proof (Qc_of_Z_neq_0 b ltac:(lia)) as Hb0. split.
  - intros Heq. apply Z2Qc_inj. rewrite Z2Qc_inj_mul, <- Heq. by field.
  - intros ->. rewrite Z2Qc_inj_mul. by field.
Qed.

Lemma length_filter_all {A} (P : A → Prop) `{∀ x, Decision (P x)} (l : list A) :
  length (filter P l) = length l ↔ Forall P l.
Proof.
  split.
  - induction l as [|a l IH]; intros Hlen; [constructor|].
    destruct (decide (P a)) as [Ha|Ha].
    + rewrite filter_cons_True in Hlen by done. simpl in Hlen.
      constructor; [done|]. apply IH. lia.
    + rewrite filter_cons_False in Hlen by done.
      pose proof (length_filter P l). simpl in Hlen. lia.
  - intros Hall. by rewrite filter_all by (by apply Forall_forall).
Qed.

Lemma length_filter_none {A} (P : A → Prop) `{∀ x, Decision (P x)} (l : list A) :
  length (filter P l) = 0%nat ↔ Forall (λ x, ¬ P x) l.
Proof.
  split.
  - induction l as [|a l IH]; intros Hlen; [constructor|].
    destruct (decide (P a)) as [Ha|Ha].
    + rewrite filter_cons_True in Hlen by done. simpl in Hlen. lia.
    + rewrite filter_cons_False in Hlen by done. constructor; [done|]. by apply IH.
  - intros Hall. by rewrite filter_none by (by apply Forall_forall).
Qed.

(** No word is in both lexicons. *)
Lemma lexicons_disjoint w : w ∈ TextBlob._POS → w ∈ TextBlob._NEG → False.
Proof.
  intros Hp Hn.
  assert (Hall : Forall (λ w, w ∉ TextBlob._NEG) TextBlob._POS)
    by (apply (bool_decide_unpack _); vm_compute; exact I).
  by apply (proj1 (Forall_forall _ _) Hall w).
Qed.

(** The score is 1 exactly when the text has a token and every token is a
    positive word, and -1 exactly when it has a token and every token is a
    negative word; a text without a word of either lexicon scores 0. *)
Theorem compute_polarity_extremes (text : pyobj) :
  let tokens := findall_words (lower (py_str text)) in
  ((compute_polarity text = 1) ↔
   tokens ≠ [] ∧ Forall (λ w, w ∈ TextBlob._POS) tokens) ∧
  ((compute_polarity text = - (1)) ↔
   tokens ≠ [] ∧ Forall (λ w, w ∈ TextBlob._NEG) tokens) ∧
  (Forall (λ w, (w ∉ TextBlob._POS) ∧ (w ∉ TextBlob._NEG)) tokens →
   compute_polarity text = 0).
Proof.
  intros tokens. unfold compute_polarity. cbn [TextBlob.init py_str].
  fold tokens. rewrite sentiment_formula. fold tokens.
  pose proof (count_in_le TextBlob._POS tokens) as Hp.
  pose proof (count_in_le TextBlob._NEG tokens) as Hn.
  assert (Hlen : tokens ≠ [] ↔ (0 < length tokens)%nat).
  { destruct tokens; simpl; split; (done || lia). }
  assert (Hpos : length (filter (λ w, w ∈ TextBlob._POS) tokens) = length tokens ↔
                 Forall (λ w, w ∈ TextBlob._POS) tokens) by apply length_filter_all.
  assert (Hneg : length (filter (λ w, w ∈ TextBlob._NEG) tokens) = length tokens ↔
                 Forall (λ w, w ∈ TextBlob._NEG) tokens) by apply length_filter_all.
  assert (Hp0 : Forall (λ w, w ∈ TextBlob._NEG) tokens →
                TextBlob.count_in TextBlob._POS tokens = 0%nat).
  { intros Hall. apply length_filter_none. eapply Forall_impl; [exact Hall|].
    intros w Hw Hw'. by apply (lexicons_disjoint w). }
  assert (Hn0 : Forall (λ w, w ∈ TextBlob._POS) tokens →
                TextBlob.count_in TextBlob._NEG tokens = 0%nat).
  { intros Hall. apply length_filter_none. eapply Forall_impl; [exact Hall|].
    intros w Hw Hw'. by apply (lexicons_disjoint w). }
  unfold TextBlob.count_in in *.
  split_and!.
  - rewrite <- Z2Qc_inj_1, Qc_ratio_eq by lia. rewrite Hlen. split.
    + intros Heq. assert (0 < length tokens)%nat by lia.
      split; [done|]. apply Hpos. lia.
    + intros [Hl Hall]. specialize (Hn0 Hall). apply Hpos in Hall. lia.
  - replace (- (1)) with (Qc_of_Z (-1)) by (apply Qc_is_canon; reflexivity).
    rewrite Qc_ratio_eq by lia. rewrite Hlen. split.
    + intros Heq. assert (0 < length tokens)%nat by lia.
      split; [done|]. apply Hneg. lia.
    + intros [Hl Hall]. specialize (Hp0 Hall). apply Hneg in Hall. lia.
  - intros Hall. rewrite <- Z2Qc_inj_0. apply Qc_ratio_eq; [lia|].
    assert (H1 : length (filter (λ w, w ∈ TextBlob._POS) tokens) = 0%nat).
    { apply length_filter_none. eapply Forall_impl; [exact Hall|]. by intros w [? ?]. }
    assert (H2 : length (filter (λ w, w ∈ TextBlob._NEG) tokens) = 0%nat).
    { apply length_filter_none. eapply Forall_impl; [exact Hall|]. by intros w [? ?]. }
    lia.
Qed.

Lemma compute_polarity_extremes_witness :
  compute_polarity (PyStr "Profit, GROWTH; gain!") = 1.
Proof.
  apply (compute_polarity_extremes (PyStr "Profit, GROWTH; gain!")).
  split; [discriminate|].
  apply (bool_decide_unpack _). vm_compute. exact I.
Defined.

(** ** Letter case *)

Lemma lower_upper_char c : lower_char (upper_char c) = lower_char c.
Proof. destruct c as [[] [] [] [] [] [] [] []]; reflexivity. Qed.

Lemma lower_lower_char c : lower_char (lower_char c) = lower_char c.
Proof. destruct c as [[] [] [] [] [] [] [] []]; reflexivity. Qed.

Lemma map_string_compose (f g : ascii → ascii) s :
  map_string f (map_string g s) = map_string (λ c, f (g c)) s.
Proof. induction s as [|c s IH]; [done|]. simpl. by rewrite IH. Qed.

Lemma map_string_ext (f g : ascii → ascii) s :
  (∀ c, f c = g c) → map_string f s = map_string g s.
Proof. intros H. induction s as [|c s IH]; [done|]. simpl. by rewrite H, IH. Qed.

(** The score of a text of ASCII characters does not depend on the case of
    its letters: the text in upper case and the text in lower case score as
    the text itself.  (The statement is kept to ASCII, where [upper] is the
    upper-casing of Python without exception.) *)
Theorem compute_polarity_ignores_case (s : string) :
  Forall (λ c, (N_of_ascii c < 128)%N) (list_ascii_of_string s) →
  compute_polarity (PyStr (upper s)) = compute_polarity (PyStr s) ∧
  compute_polarity (PyStr (lower s)) = compute_polarity (PyStr s).
Proof.
  intros _. unfold compute_polarity. cbn [TextBlob.init py_str].
  unfold lower, upper. rewrite !map_string_compose.
  rewrite (map_string_ext _ lower_char s lower_upper_char).
  by rewrite (map_string_ext (λ c, lower_char (lower_char c)) lower_char s lower_lower_char).
Qed.

Lemma compute_polarity_ignores_case_witness :
  compute_polarity (PyStr (upper "Strong growth")) =
  compute_polarity (PyStr "Strong growth").
Proof.
  apply (compute_polarity_ignores_case "Strong growth").
  apply (bool_decide_unpack _). vm_compute. exact I.
Defined.

(** ** [aggregate_daily_sentiment]: what a record holds *)

Lemma foldl_Qc_min_spec (a : Qc) l :
  foldl Qc_min a l ∈ a :: l ∧ ∀ x, x ∈ a :: l → foldl Qc_min a l ≤ x.
Proof.
  revert a. induction l as [|b l IH]; intros a.
  - simpl. split; [apply list_elem_of_here|].
    intros x Hx. apply list_elem_of_singleton in Hx as ->. apply Qcle_refl.
  - cbn [foldl]. destruct (IH (Qc_min a b)) as [Hin Hle]. split.
    + apply elem_of_cons in Hin as [Heq|Hin].
      * rewrite Heq. unfold Qc_min. case_decide.
        -- apply list_elem_of_further, list_elem_of_here.
        -- apply list_elem_of_here.
      * by do 2 apply list_elem_of_further.
    + assert (Hm : Qc_min a b ≤ a ∧ Qc_min a b ≤ b).
      { unfold Qc_min. case_decide as H.
        - split; [by apply Qclt_le_weak | apply Qcle_refl].
        - split; [apply Qcle_refl | by apply Qcnot_lt_le]. }
      intros x Hx. apply elem_of_cons in Hx as [->|Hx].
      * eapply Qcle_trans; [apply Hle, list_elem_of_here | apply Hm].
      * apply elem_of_cons in Hx as [->|Hx].
        -- eapply Qcle_trans; [apply Hle, list_elem_of_here | apply Hm].
        -- by apply Hle, list_elem_of_further.
Qed.

Lemma foldl_Qc_max_spec (a : Qc) l :
  foldl Qc_max a l ∈ a :: l ∧ ∀ x, x ∈ a :: l → x ≤ foldl Qc_max a l.
Proof.
  revert a. induction l as [|b l IH]; intros a.
  - simpl. split; [apply list_elem_of_here|].
    intros x Hx. apply list_elem_of_singleton in Hx as ->. apply Qcle_refl.
  - cbn [foldl]. destruct (IH (Qc_max a b)) as [Hin Hle]. split.
    + apply elem_of_cons in Hin as [Heq|Hin].
      * rewrite Heq. unfold Qc_max. case_decide.
        -- apply list_elem_of_further, list_elem_of_here.
        -- apply list_elem_of_here.
      * by do 2 apply list_elem_of_further.
    + assert (Hm : a ≤ Qc_max a b ∧ b ≤ Qc_max a b).
      { unfold Qc_max. case_decide as H.
        - split; [by apply Qclt_le_weak | apply Qcle_refl].
        - split; [apply Qcle_refl | by apply Qcnot_lt_le]. }
      intros x Hx. apply elem_of_cons in Hx as [->|Hx].
      * eapply Qcle_trans; [apply Hm | apply Hle, list_elem_of_here].
      * apply elem_of_cons in Hx as [->|Hx].
        -- eapply Qcle_trans; [apply Hm | apply Hle, list_elem_of_here].
        -- by apply Hle, list_elem_of_further.
Qed.

Lemma Qc_sum_bounds (lo hi : Qc) l :
  (∀ x, x ∈ l → lo ≤ x ∧ x ≤ hi) →
  Qc_of_nat (length l) * lo ≤ Qc_sum l ∧ Qc_sum l ≤ Qc_of_nat (length l) * hi.
Proof.
  induction l as [|a l IH]; intros H.
  - simpl. change (Qc_of_nat 0) with (Qc_of_Z 0). rewrite Z2Qc_inj_0.
    replace (0 * lo) with (0 : Qc) by ring. replace (0 * hi) with (0 : Qc) by ring.
    split; apply Qcle_refl.
  - destruct IH as [IH1 IH2]; [intros x Hx; by apply H, list_elem_of_further|].
    destruct (H a) as [Ha1 Ha2]; [apply list_elem_of_here|].
    cbn [length Qc_sum foldr]. rewrite Qc_of_nat_S. fold (Qc_sum l). split.
    + replace ((Qc_of_nat (length l) + 1) * lo)
        with (lo + Qc_of_nat (length l) * lo) by ring.
      by apply Qcplus_le_compat.
    + replace ((Qc_of_nat (length l) + 1) * hi)
        with (hi + Qc_of_nat (length l) * hi) by ring.
      by apply Qcplus_le_compat.
Qed.

Lemma mean_between (lo hi : Qc) l :
  l ≠ [] → (∀ x, x ∈ l → lo ≤ x ∧ x ≤ hi) → lo ≤ mean l ∧ mean l ≤ hi.
Proof.
  intros Hne H. destruct (Qc_sum_bounds lo hi l H) as [H1 H2].
  assert (Hn : 0 < Qc_of_nat (length l)).
  { apply Qc_of_Z_pos. destruct l; [done|]. simpl. lia. }
  pose proof (Qc_pos_not_zero _ Hn) as Hn0.
  pose proof (Qcinv_pos _ Hn) as Hinv. apply Qclt_le_weak in Hinv.
  unfold mean, Qcdiv. split.
  - replace lo with (Qc_of_nat (length l) * lo * / Qc_of_nat (length l)) by (by field).
    by apply Qcmult_le_mono_nonneg_r.
  - replace hi with (Qc_of_nat (length l) * hi * / Qc_of_nat (length l)) by (by field).
    by apply Qcmult_le_mono_nonneg_r.
Qed.

(** In every record the minimum and the maximum are polarities of news
    items of the table, the minimum not above the maximum: both are picked
    among the values, not computed from them. *)
Theorem aggregate_daily_sentiment_min_max
    (parse_datetime : string → option Timestamp) (polarity_of : pyobj → Qc)
    (news : list news_row) :
  Forall (λ d, ∃ lo hi,
            min_sentiment d = Fin lo ∧ max_sentiment d = Fin hi ∧ lo ≤ hi ∧
            lo ∈ (λ r, polarity_of (headline r)) <$> news ∧
            hi ∈ (λ r, polarity_of (headline r)) <$> news)
         (aggregate_daily_sentiment parse_datetime polarity_of news).
Proof.
  apply Forall_forall. intros d Hd.
  destruct (aggregate_record _ _ _ _ Hd) as (k & -> & Hne & _).
  set (grp := group_of (score_news parse_datetime polarity_of <$> news) k) in *.
  set (pol := n_polarity <$> grp).
  assert (Hsub : ∀ x, x ∈ pol → x ∈ (λ r, polarity_of (headline r)) <$> news).
  { intros x Hx. apply list_elem_of_fmap in Hx as (r & -> & Hr).
    apply list_elem_of_filter in Hr as [_ Hr].
    apply list_elem_of_fmap in Hr as (r0 & -> & Hr0).
    apply list_elem_of_fmap. by exists r0. }
  assert (Hpol : ∃ q rest, pol = q :: rest).
  { unfold pol. destruct grp as [|r grp']; [done|]. by eexists _, _. }
  destruct Hpol as (q & rest & Hpol).
  exists (Qc_min_list pol), (Qc_max_list pol).
  split; [done|]. split; [done|]. split; [|split].
  - rewrite Hpol. cbn [Qc_min_list Qc_max_list].
    apply Qcle_trans with q.
    + apply foldl_Qc_min_spec, list_elem_of_here.
    + apply foldl_Qc_max_spec, list_elem_of_here.
  - apply Hsub. rewrite Hpol. apply (foldl_Qc_min_spec q rest).
  - apply Hsub. rewrite Hpol. apply (foldl_Qc_max_spec q rest).
Qed.

(** ** [aggregate_daily_sentiment]: which records there are *)

Lemma group_key_score parse_datetime polarity_of r :
  group_key (score_news parse_datetime polarity_of r) =
    (λ ts, (upper (py_str (stock r)), ts_day ts))
      <$> to_datetime_coerce parse_datetime (date r).
Proof.
  unfold group_key, score_news. simpl.
  by destruct (to_datetime_coerce parse_datetime (date r)).
Qed.

(** On a table whose stocks are strings of ASCII characters: every
    record belongs to a news item with a date that parses; it has the
    upper-cased stock of the item as ticker and the midnight of its day as
    date.  Every such item has its record, and only one. *)
Theorem aggregate_daily_sentiment_keys
    (parse_datetime : string → option Timestamp) (polarity_of : pyobj → Qc)
    (news : list news_row) :
  Forall (λ r, is_ascii_str (stock r) = true) news →
  let out := aggregate_daily_sentiment parse_datetime polarity_of news in
  (∀ d, d ∈ out →
     ∃ r ts, r ∈ news ∧ to_datetime_coerce parse_datetime (date r) = Some ts ∧
             s_ticker d = upper (py_str (stock r)) ∧
             s_Date d = Some {| ts_day := ts_day ts; ts_time := 0 |}) ∧
  (∀ r ts, r ∈ news → to_datetime_coerce parse_datetime (date r) = Some ts →
     ∃ d, d ∈ out ∧
          s_ticker d = upper (py_str (stock r)) ∧
          s_Date d = Some {| ts_day := ts_day ts; ts_time := 0 |} ∧
          ∀ d', d' ∈ out → sentiment_key d' = sentiment_key d → d' = d).
Proof.
  intros _ out. subst out. split.
  - intros d Hd. unfold aggregate_daily_sentiment in Hd.
    apply list_elem_of_fmap in Hd as (k & -> & Hk).
    apply elem_of_group_keys in Hk as (sr & Hsr & Hkey).
    apply list_elem_of_fmap in Hsr as (r & -> & Hr).
    rewrite group_key_score in Hkey.
    destruct (to_datetime_coerce parse_datetime (date r)) as [ts|] eqn:Hts;
      [|discriminate].
    simpl in Hkey. injection Hkey as <-. by exists r, ts.
  - intros r ts Hr Hts.
    set (k := (upper (py_str (stock r)), ts_day ts)).
    assert (Hk : k ∈ group_keys (score_news parse_datetime polarity_of <$> news)).
    { apply elem_of_group_keys. exists (score_news parse_datetime polarity_of r).
      split; [by apply list_elem_of_fmap_2|]. by rewrite group_key_score, Hts. }
    exists (aggregate_group (score_news parse_datetime polarity_of <$> news) k).
    split_and!; try done.
    + unfold aggregate_daily_sentiment. by apply list_elem_of_fmap_2.
    + intros d' Hd' Hkey.
      eapply (NoDup_fmap_elem sentiment_key); [apply NoDup_aggregate_keys|done| |done].
      unfold aggregate_daily_sentiment. by apply list_elem_of_fmap_2.
Qed.

Lemma aggregate_daily_sentiment_keys_witness :
  ∃ d, d ∈ aggregate_daily_sentiment iso_date compute_polarity sample_news ∧
       s_ticker d = upper (py_str (PyStr "aapl")) ∧
       s_Date d = Some {| ts_day := ts_day {| ts_day := 18263; ts_time := 0 |};
                          ts_time := 0 |} ∧
       ∀ d', d' ∈ aggregate_daily_sentiment iso_date compute_polarity sample_news →
             sentiment_key d' = sentiment_key d → d' = d.
Proof.
  destruct (aggregate_daily_sentiment_keys iso_date compute_polarity sample_news)
    as [_ H]; [repeat constructor|].
  apply (H (NewsRow (PyStr "2020-01-02") (PyStr "aapl")
                    (PyStr "Strong growth and profit gain"))
           {| ts_day := 18263; ts_time := 0 |}).
  - apply list_elem_of_here.
  - reflexivity.
Defined.

(** ** [aggregate_daily_sentiment]: the counts add up *)

Lemma length_filter_or {A} (P Q : A → Prop)
    `{∀ x, Decision (P x)} `{∀ x, Decision (Q x)} (l : list A) :
  (∀ x, P x → Q x → False) →
  length (filter (λ x, P x ∨ Q x) l) = (length (filter P l) + length (filter Q l))%nat.
Proof.
  intros Hdis. induction l as [|a l IH]; [done|].
  destruct (decide (P a)) as [HP|HP]; destruct (decide (Q a)) as [HQ|HQ].
  - by destruct (Hdis a).
  - rewrite (filter_cons_True (λ x, P x ∨ Q x)) by (by left).
    rewrite (filter_cons_True P), (filter_cons_False Q) by done. simpl. lia.
  - rewrite (filter_cons_True (λ x, P x ∨ Q x)) by (by right).
    rewrite (filter_cons_False P), (filter_cons_True Q) by done. simpl. lia.
  - rewrite (filter_cons_False (λ x, P x ∨ Q x)) by tauto.
    rewrite (filter_cons_False P), (filter_cons_False Q) by done. done.
Qed.

Lemma length_filter_ext {A} (P Q : A → Prop)
    `{∀ x, Decision (P x)} `{∀ x, Decision (Q x)} (l : list A) :
  (∀ x, x ∈ l → P x ↔ Q x) → length (filter P l) = length (filter Q l).
Proof.
  induction l as [|a l IH]; intros Hiff; [done|].
  assert (IH' : length (filter P l) = length (filter Q l))
    by (apply IH; intros x Hx; by apply Hiff, list_elem_of_further).
  pose proof (Hiff a (list_elem_of_here _ _)) as Ha.
  destruct (decide (P a)) as [HP|HP].
  - rewrite (filter_cons_True P), (filter_cons_True Q) by tauto. simpl. lia.
  - rewrite (filter_cons_False P), (filter_cons_False Q) by tauto. done.
Qed.

(** Grouping by a key loses no row and counts none twice. *)
Lemma sum_filter_by_key {A K} `{EqDecision K} (f : A → K) (keys : list K) (l : list A) :
  NoDup keys →
  sum_list ((λ k, length (filter (λ x, f x = k) l)) <$> keys) =
  length (filter (λ x, f x ∈ keys) l).
Proof.
  induction 1 as [|k ks Hk Hnd IH].
  - simpl. rewrite filter_none; [done|]. intros x _ Hx. by apply elem_of_nil in Hx.
  - rewrite fmap_cons.
    change (sum_list (?a :: ?l')) with (a + sum_list l')%nat. rewrite IH.
    rewrite <- (length_filter_or (λ x, f x = k) (λ x, f x ∈ ks)).
    + apply length_filter_ext. intros x _. rewrite elem_of_cons. done.
    + intros x -> Hx. done.
Qed.

Lemma length_filter_fmap {A B} (g : A → B) (P : B → Prop)
    `{∀ y, Decision (P y)} (l : list A) :
  length (filter P (g <$> l)) = length (filter (λ x, P (g x)) l).
Proof.
  induction l as [|a l IH]; [done|]. rewrite fmap_cons.
  destruct (decide (P (g a))) as [HP|HP].
  - rewrite (filter_cons_True P), (filter_cons_True (λ x, P (g x))) by done.
    simpl. by rewrite IH.
  - rewrite (filter_cons_False P), (filter_cons_False (λ x, P (g x))) by done. done.
Qed.

(** On a table without a missing stock, the counts of the records add up
    to the number of news items that have a date that parses and a
    headline: no headline is counted twice, none is lost. *)
Theorem aggregate_daily_sentiment_total
    (parse_datetime : string → option Timestamp) (polarity_of : pyobj → Qc)
    (news : list news_row) :
  Forall (λ r, is_null (stock r) = false) news →
  Z_sum (news_count <$> aggregate_daily_sentiment parse_datetime polarity_of news) =
  Z.of_nat (length (filter (λ r, is_Some (to_datetime_coerce parse_datetime (date r)) ∧
                                 is_null (headline r) = false) news)).
Proof.
  intros _. unfold aggregate_daily_sentiment.
  set (rows := score_news parse_datetime polarity_of <$> news).
  rewrite <- list_fmap_compose.
  set (L := filter (λ r, is_null (headline (n_row r)) = false) rows).
  assert (Hcount : ∀ k, news_count (aggregate_group rows k) =
                        Z.of_nat (length (filter (λ r, group_key r = Some k) L))).
  { intros k. cbn [aggregate_group news_count]. unfold count_headlines, group_of, L.
    f_equal. rewrite !list_filter_filter. apply length_filter_ext. tauto. }
  assert (Hsum : ∀ keys,
            Z_sum ((news_count ∘ aggregate_group rows) <$> keys) =
            Z.of_nat (sum_list ((λ ok, length (filter (λ r, group_key r = ok) L))
                                  <$> (Some <$> keys)))).
  { induction keys as [|k keys IH]; [done|].
    rewrite !fmap_cons. cbn [Z_sum foldr]. fold (Z_sum ((news_count ∘ aggregate_group rows) <$> keys)).
    rewrite IH. unfold compose at 1. rewrite Hcount.
    change (sum_list (?a :: ?l')) with (a + sum_list l')%nat. lia. }
  rewrite Hsum. f_equal.
  rewrite (sum_filter_by_key group_key (Some <$> group_keys rows) L)
    by (apply (NoDup_fmap_2 Some), NoDup_group_keys).
  unfold L. rewrite list_filter_filter. unfold rows. rewrite length_filter_fmap.
  apply length_filter_ext. intros r Hr. cbn [score_news n_row].
  rewrite group_key_score. split.
  - intros [Hin Hnull]. split; [|done].
    apply list_elem_of_fmap in Hin as (k & Hk & _).
    destruct (to_datetime_coerce parse_datetime (date r)); [by eexists | discriminate].
  - intros [[ts Hts] Hnull]. split; [|done]. rewrite Hts. simpl.
    apply list_elem_of_fmap_2. apply elem_of_group_keys.
    exists (score_news parse_datetime polarity_of r). split.
    + by apply list_elem_of_fmap_2.
    + by rewrite group_key_score, Hts.
Qed.

Lemma aggregate_daily_sentiment_total_witness :
  Z_sum (news_count <$> aggregate_daily_sentiment iso_date compute_polarity sample_news) =
  Z.of_nat (length (filter (λ r, is_Some (to_datetime_coerce iso_date (date r)) ∧
                                 is_null (headline r) = false) sample_news)).
Proof.
  apply (aggregate_daily_sentiment_total iso_date compute_polarity sample_news).
  repeat constructor.
Defined.

(** ** The orders used for sorting *)

Lemma string_compare_trans (a b c : string) :
  String.compare a b ≠ Gt → String.compare b c ≠ Gt → String.compare a c ≠ Gt.
Proof.
  revert b c. induction a as [|x a IH]; intros [|y b] [|z c]; simpl; try congruence.
  unfold Ascii.compare.
  destruct (N.compare_spec (N_of_ascii x) (N_of_ascii y)) as [Hxy|Hxy|Hxy];
    destruct (N.compare_spec (N_of_ascii y) (N_of_ascii z)) as [Hyz|Hyz|Hyz];
    destruct (N.compare_spec (N_of_ascii x) (N_of_ascii z)) as [Hxz|Hxz|Hxz];
    try congruence; try lia.
  apply IH.
Qed.

Lemma string_leb_ngt a b : string_leb a b = true ↔ String.compare a b ≠ Gt.
Proof. unfold string_leb, String.leb. destruct (String.compare a b); split; congruence. Qed.

Lemma string_leb_trans a b c :
  string_leb a b = true → string_leb b c = true → string_leb a c = true.
Proof. rewrite !string_leb_ngt. apply string_compare_trans. Qed.

Lemma string_leb_total a b : string_leb a b = false → string_leb b a = true.
Proof.
  intros H. destruct (String.leb_total a b) as [H'|H']; [|done].
  unfold string_leb in H. congruence.
Qed.

Lemma string_leb_antisym a b :
  string_leb a b = true → string_leb b a = true → a = b.
Proof. apply String.leb_antisym. Qed.

Lemma Timestamp_leb_le a b :
  Timestamp_leb a b = true ↔
  (ts_day a < ts_day b ∨ (ts_day a = ts_day b ∧ ts_time a ≤ ts_time b))%Z.
Proof.
  unfold Timestamp_leb.
  rewrite orb_true_iff, andb_true_iff, Z.ltb_lt, Z.eqb_eq, Z.leb_le. done.
Qed.

Lemma date_leb_trans a b c :
  date_leb a b = true → date_leb b c = true → date_leb a c = true.
Proof.
  destruct a as [a|], b as [b|], c as [c|]; simpl; try done.
  rewrite !Timestamp_leb_le. lia.
Qed.

Lemma date_leb_total a b : date_leb a b = false → date_leb b a = true.
Proof.
  destruct a as [a|], b as [b|]; simpl; try done.
  intros H. apply Timestamp_leb_le.
  destruct (Timestamp_leb a b) eqn:Hab; [done|].
  assert (Hn : ¬ (ts_day a < ts_day b ∨ (ts_day a = ts_day b ∧ ts_time a ≤ ts_time b))%Z).
  { intros Hl. apply Timestamp_leb_le in Hl. congruence. }
  lia.
Qed.

Lemma StronglySorted_lookup {A} (R : A → A → Prop) (l : list A) i j x y :
  StronglySorted R l → (i < j)%nat → l !! i = Some x → l !! j = Some y → R x y.
Proof.
  intros Hs. revert i j. induction Hs as [|a l Hs IH Hall]; intros i j Hij Hx Hy.
  - by rewrite lookup_nil in Hx.
  - destruct j as [|j]; [lia|]. destruct i as [|i].
    + simpl in Hx, Hy. injection Hx as <-.
      apply (proj1 (Forall_forall _ _) Hall). by eapply list_elem_of_lookup_2.
    + simpl in Hx, Hy. apply (IH i j); [lia|done|done].
Qed.

Section lex_order.
Context {A B : Type} `{EqDecision A} (lebA : A → A → bool) (lebB : B → B → bool).
Hypothesis lebA_trans : ∀ a b c, lebA a b = true → lebA b c = true → lebA a c = true.
Hypothesis lebA_antisym : ∀ a b, lebA a b = true → lebA b a = true → a = b.
Hypothesis lebA_total : ∀ a b, lebA a b = false → lebA b a = true.
Hypothesis lebB_trans : ∀ a b c, lebB a b = true → lebB b c = true → lebB a c = true.
Hypothesis lebB_total : ∀ a b, lebB a b = false → lebB b a = true.

Lemma lex_leb_total (a b : A * B) :
  lex_leb lebA lebB a b = false → lex_leb lebA lebB b a = true.
Proof.
  unfold lex_leb. repeat case_decide; try congruence.
  - apply lebB_total.
  - apply lebA_total.
Qed.

Lemma lex_leb_trans (a b c : A * B) :
  lex_leb lebA lebB a b = true → lex_leb lebA lebB b c = true →
  lex_leb lebA lebB a c = true.
Proof.
  unfold lex_leb. destruct a as [a1 a2], b as [b1 b2], c as [c1 c2]. simpl.
  repeat case_decide; subst; try congruence; intros Hab Hbc.
  - by eapply lebB_trans.
  - exfalso. by eauto using lebA_antisym.
  - by eapply lebA_trans.
Qed.

(** In a sorted table the rows of one first component stand together: a
    row whose neighbour before it has another first component is the first
    of its group. *)
Lemma lex_sorted_group_start (l : list (A * B)) (i j : nat) x y z :
  Sorted (λ a b, lex_leb lebA lebB a b = true) l →
  (j < i)%nat → l !! j = Some x → l !! i = Some y → l !! S i = Some z →
  y.1 ≠ z.1 → x.1 ≠ z.1.
Proof.
  intros Hs Hji Hx Hy Hz Hne Heq.
  assert (HT : Transitive (λ a b : A * B, lex_leb lebA lebB a b = true))
    by (intros a b c; apply lex_leb_trans).
  apply (Sorted_StronglySorted _) in Hs.
  assert (Hxy : lex_leb lebA lebB x y = true)
    by (by apply (StronglySorted_lookup _ l j i x y Hs)).
  assert (Hyz : lex_leb lebA lebB y z = true)
    by (apply (StronglySorted_lookup _ l i (S i) y z Hs); (lia || done)).
  unfold lex_leb in Hxy, Hyz. rewrite decide_False in Hyz by done.
  destruct (decide (x.1 = y.1)) as [Hxy1|Hxy1]; [congruence|].
  apply Hne. apply lebA_antisym; [done|]. by rewrite <- Heq.
Qed.
End lex_order.

(** ** [aggregate_daily_sentiment]: the order of the records *)

Lemma Z_leb_total (a b : Z) : (a <=? b)%Z = false → (b <=? a)%Z = true.
Proof. rewrite Z.leb_gt, Z.leb_le. lia. Qed.

Lemma date_leb_midnight (a b : Z) :
  date_leb (Some {| ts_day := a; ts_time := 0 |}) (Some {| ts_day := b; ts_time := 0 |})
  = (a <=? b)%Z.
Proof.
  simpl. apply eq_true_iff_eq. rewrite Timestamp_leb_le, Z.leb_le. simpl. lia.
Qed.

(** The records come in ascending order of ticker and, within a ticker,
    of day: [groupby] sorts its keys. *)
Theorem aggregate_daily_sentiment_sorted
    (parse_datetime : string → option Timestamp) (polarity_of : pyobj → Qc)
    (news : list news_row) :
  Sorted (λ a b, lex_leb string_leb date_leb (sentiment_key a) (sentiment_key b) = true)
         (aggregate_daily_sentiment parse_datetime polarity_of news).
Proof.
  unfold aggregate_daily_sentiment, group_keys.
  eapply Sorted_fmap; [|apply (Sorted_sort_by id (lex_leb string_leb Z.leb))].
  - intros [t1 d1] [t2 d2]. unfold lex_leb, sentiment_key.
    cbn [aggregate_group s_ticker s_Date fst snd id].
    intros H. repeat case_decide; try done.
    by rewrite date_leb_midnight.
  - apply lex_leb_total; [apply string_leb_total|apply Z_leb_total].
Qed.

(** ** [prepare_price_df] *)

Lemma to_datetime_cell_Some parse_datetime x d :
  to_datetime_cell parse_datetime x = Some d → d = to_datetime_coerce parse_datetime x.
Proof.
  destruct x as [| |s]; simpl; try (by intros [= <-]).
  destruct (parse_datetime s); by intros [= <-].
Qed.

(** Where [to_datetime] returns, it returns what the coercing variant
    returns. *)
Lemma to_datetime_Some parse_datetime col dates :
  to_datetime parse_datetime col = Some dates →
  dates = to_datetime_coerce parse_datetime <$> col.
Proof.
  unfold to_datetime. intros H. apply mapM_Some_1 in H.
  induction H as [|x d col dates Hx _ IH]; [done|].
  rewrite fmap_cons. f_equal; [by apply to_datetime_cell_Some|done].
Qed.

Lemma to_datetime_is_Some parse_datetime col :
  is_Some (to_datetime parse_datetime col) ↔
  ∀ s, PyStr s ∈ col → is_Some (parse_datetime s).
Proof.
  unfold to_datetime. rewrite mapM_is_Some, Forall_forall. split.
  - intros H s Hs. specialize (H _ Hs). unfold compose in H. simpl in H.
    destruct (parse_datetime s); [by eexists|]. by destruct H.
  - intros H [| |s] Hx; unfold compose; simpl; try (by eexists).
    destruct (H s Hx) as [t ->]. by eexists.
Qed.

Lemma length_group_pct_change seen rows :
  length (group_pct_change seen rows) = length rows.
Proof.
  revert seen. induction rows as [|[t c] rows IH]; intros seen; [done|].
  simpl. by rewrite IH.
Qed.

(** The return of a row is taken over the latest row before it that has
    its ticker. *)
Lemma lookup_group_pct_change seen rows i t c :
  rows !! i = Some (t, c) →
  group_pct_change seen rows !! i =
    Some (match list_find (λ e, e.1 = t) (reverse (take i rows) ++ seen) with
          | Some (_, (_, c0)) => fsub (fdiv c c0) (Fin 1)
          | None => NaN
          end).
Proof.
  revert seen i. induction rows as [|[t0 c0] rows IH]; intros seen i Hi.
  - by rewrite lookup_nil in Hi.
  - destruct i as [|i].
    + simpl in Hi. injection Hi as -> ->. done.
    + simpl in Hi. cbn [group_pct_change]. rewrite lookup_cons.
      rewrite (IH _ _ Hi). cbn [take]. rewrite reverse_cons, <- app_assoc. done.
Qed.

Lemma Sorted_fmap_inv {A B} (f : A → B) (R : relation B) (l : list A) :
  Sorted R (f <$> l) → Sorted (λ x y, R (f x) (f y)) l.
Proof.
  induction l as [|a l IH]; [constructor|].
  rewrite fmap_cons. intros H. apply Sorted_inv in H as [Hs Hhd].
  constructor; [by apply IH|].
  destruct l as [|b l]; [constructor|]. rewrite fmap_cons in Hhd.
  apply HdRel_inv in Hhd. by constructor.
Qed.

(** The table [prepare_price_df] returns, when it returns: the rows with
    their parsed dates and upper-cased tickers, sorted, each with its
    return. *)
Lemma prepare_price_df_Some parse_datetime price_df out :
  prepare_price_df parse_datetime price_df = Some out →
  let rows := (λ r, {| p_ticker := upper (py_str (r_ticker r));
                       p_Date := to_datetime_coerce parse_datetime (r_Date r);
                       p_Close := r_Close r;
                       p_Other := r_Other r;
                       daily_return := NaN |}) <$> price_df in
  let sorted := sort_by price_key (lex_leb string_leb date_leb) rows in
  let ret := group_pct_change [] ((λ r, (p_ticker r, p_Close r)) <$> sorted) in
  out = zip_with (λ r x, {| p_ticker := p_ticker r;
                            p_Date := p_Date r;
                            p_Close := p_Close r;
                            p_Other := p_Other r;
                            daily_return := x |}) sorted ret.
Proof.
  intros H rows sorted ret. subst rows sorted ret. unfold prepare_price_df in H.
  destruct (to_datetime parse_datetime (r_Date <$> price_df)) as [dates|] eqn:Hd;
    [|discriminate].
  apply to_datetime_Some in Hd. subst dates. simpl in H. injection H as <-.
  rewrite <- list_fmap_compose, zip_with_fmap_r, zip_with_diag. done.
Qed.

(** [prepare_price_df] returns a table exactly when every date that is a
    string can be parsed; a missing date does not end the run. *)
Theorem prepare_price_df_succeeds_iff
    (parse_datetime : string → option Timestamp) (price_df : list raw_price_row) :
  is_Some (prepare_price_df parse_datetime price_df) ↔
  ∀ r s, r ∈ price_df → r_Date r = PyStr s → is_Some (parse_datetime s).
Proof.
  split.
  - intros [out Hout] r s Hr Hs.
    destruct (parse_datetime s) as [t|] eqn:Ht; [by eexists|].
    by rewrite (prepare_price_df_raises _ _ r s Hr Hs Ht) in Hout.
  - intros H.
    assert (Hd : is_Some (to_datetime parse_datetime (r_Date <$> price_df))).
    { apply to_datetime_is_Some. intros s Hs.
      apply list_elem_of_fmap in Hs as (r & Hs & Hr). by apply (H r s). }
    destruct Hd as [dates Hd]. unfold prepare_price_df. rewrite Hd. by eexists.
Qed.

Lemma fmap_zip_with_l {A B C} (f : A → C) (g : A → B → A) (l : list A) (k : list B) :
  (∀ a b, f (g a b) = f a) → length l = length k →
  f <$> zip_with g l k = f <$> l.
Proof.
  intros Hf. revert k. induction l as [|a l IH]; intros [|b k] Hlen; try done.
  simpl in Hlen. simpl. rewrite Hf. f_equal. apply IH. lia.
Qed.

(** On a table whose tickers are strings of ASCII characters, the table
    returned has the rows of the table given, each with its ticker in upper
    case and its date parsed, in ascending order of ticker and, within a
    ticker, of date, a missing date last. *)
Theorem prepare_price_df_rows
    (parse_datetime : string → option Timestamp) (price_df : list raw_price_row)
    (out : list price_row) :
  Forall (λ r, is_ascii_str (r_ticker r) = true) price_df →
  prepare_price_df parse_datetime price_df = Some out →
  length out = length price_df ∧
  Sorted (λ a b, lex_leb string_leb date_leb (price_key a) (price_key b) = true) out ∧
  (λ p, (p_ticker p, p_Date p, p_Close p, p_Other p)) <$> out ≡ₚ
  (λ r, (upper (py_str (r_ticker r)), to_datetime_coerce parse_datetime (r_Date r),
         r_Close r, r_Other r)) <$> price_df.
Proof.
  intros _ H. apply prepare_price_df_Some in H. cbv zeta in H.
  set (rows := _ <$> price_df) in H.
  set (sorted := sort_by _ _ rows) in H.
  assert (Hlen : length sorted =
                 length (group_pct_change [] ((λ r, (p_ticker r, p_Close r)) <$> sorted)))
    by (by rewrite length_group_pct_change, length_fmap).
  split_and!.
  - rewrite H, length_zip_with, <- Hlen, Nat.min_id.
    unfold sorted. rewrite length_sort_by. unfold rows. by rewrite length_fmap.
  - apply (Sorted_fmap_inv price_key
             (λ a b, lex_leb string_leb date_leb a b = true)).
    rewrite H, (fmap_zip_with_l price_key) by done.
    apply (Sorted_fmap price_key
             (λ a b, lex_leb string_leb date_leb (price_key a) (price_key b) = true));
      [done|].
    apply (Sorted_sort_by price_key (lex_leb string_leb date_leb)).
    apply lex_leb_total; [apply string_leb_total|apply date_leb_total].
  - rewrite H, (fmap_zip_with_l (λ p, (p_ticker p, p_Date p, p_Close p, p_Other p)))
      by done.
    unfold sorted. rewrite sort_by_Permutation. unfold rows.
    by rewrite <- list_fmap_compose.
Qed.

Lemma prepare_price_df_rows_witness :
  let out := default [] (prepare_price_df iso_date sample_prices) in
  length out = length sample_prices ∧
  Sorted (λ a b, lex_leb string_leb date_leb (price_key a) (price_key b) = true) out ∧
  (λ p, (p_ticker p, p_Date p, p_Close p, p_Other p)) <$> out ≡ₚ
  (λ r, (upper (py_str (r_ticker r)), to_datetime_coerce iso_date (r_Date r),
         r_Close r, r_Other r)) <$> sample_prices.
Proof.
  apply (prepare_price_df_rows iso_date sample_prices).
  - repeat constructor.
  - reflexivity.
Defined.

(** On a table whose tickers are strings of ASCII characters and whose
    [Close] column has no missing value (where all versions of pandas
    agree on the groups and on [pct_change]): the first row of the table
    returned has no return.  Any other row has the return over the row just
    before it when the two have the same ticker, [Close / Close_before - 1],
    and no return when they have not: a return never spans two tickers. *)
Theorem prepare_price_df_returns
    (parse_datetime : string → option Timestamp) (price_df : list raw_price_row)
    (out : list price_row) :
  Forall (λ r, is_ascii_str (r_ticker r) = true) price_df →
  Forall (λ r, is_observation (r_Close r) = true) price_df →
  prepare_price_df parse_datetime price_df = Some out →
  (∀ z, out !! 0%nat = Some z → daily_return z = NaN) ∧
  (∀ i y z, out !! i = Some y → out !! S i = Some z →
     daily_return z =
       if decide (p_ticker y = p_ticker z)
       then fsub (fdiv (p_Close z) (p_Close y)) (Fin 1)
       else NaN).
Proof.
  intros _ _ H. apply prepare_price_df_Some in H. cbv zeta in H.
  set (rows := _ <$> price_df) in H.
  set (sorted := sort_by _ _ rows) in H.
  set (keys := (λ r, (p_ticker r, p_Close r)) <$> sorted) in H.
  assert (Hsorted : Sorted (λ a b, lex_leb string_leb date_leb a b = true)
                           (price_key <$> sorted)).
  { apply (Sorted_fmap price_key
             (λ a b, lex_leb string_leb date_leb (price_key a) (price_key b) = true));
      [done|].
    apply (Sorted_sort_by price_key (lex_leb string_leb date_leb)).
    apply lex_leb_total; [apply string_leb_total|apply date_leb_total]. }
  assert (Hrow : ∀ i z, out !! i = Some z →
            ∃ r, sorted !! i = Some r ∧ p_ticker z = p_ticker r ∧
                 p_Close z = p_Close r ∧
                 group_pct_change [] keys !! i = Some (daily_return z)).
  { intros i z Hz. rewrite H, lookup_zip_with in Hz.
    destruct (sorted !! i) as [r|] eqn:Hr; [|done]. simpl in Hz.
    destruct (group_pct_change [] keys !! i) as [x|] eqn:Hx; [|done].
    simpl in Hz. injection Hz as <-. by exists r. }
  split.
  - intros z Hz. destruct (Hrow _ _ Hz) as (r & Hr & _ & _ & Hret).
    rewrite (lookup_group_pct_change [] keys 0 (p_ticker r) (p_Close r)) in Hret
      by (unfold keys; by rewrite list_lookup_fmap, Hr).
    simpl in Hret. by injection Hret as <-.
  - intros i y z Hy Hz.
    destruct (Hrow _ _ Hy) as (ry & Hry & Hty & Hcy & _).
    destruct (Hrow _ _ Hz) as (rz & Hrz & Htz & Hcz & Hret).
    rewrite (lookup_group_pct_change [] keys (S i) (p_ticker rz) (p_Close rz)) in Hret
      by (unfold keys; by rewrite list_lookup_fmap, Hrz).
    injection Hret as <-.
    assert (Hky : keys !! i = Some (p_ticker ry, p_Close ry))
      by (unfold keys; by rewrite list_lookup_fmap, Hry).
    rewrite (take_S_r _ _ _ Hky), reverse_snoc, app_nil_r.
    rewrite Hty, Htz, Hcy, Hcz.
    destruct (decide (p_ticker ry = p_ticker rz)) as [Heq|Hne].
    + cbn [list_find]. simpl. by rewrite decide_True by done.
    + assert (Hnone : list_find (λ e : string * float, e.1 = p_ticker rz)
                        ((p_ticker ry, p_Close ry) :: reverse (take i keys)) = None).
      { apply list_find_None, Forall_cons. split; [done|].
        apply Forall_forall. intros e He Hbad.
        rewrite elem_of_reverse in He. apply list_elem_of_lookup in He as [j Hj].
        apply lookup_take_Some in Hj as [Hj Hji].
        unfold keys in Hj. rewrite list_lookup_fmap in Hj.
        destruct (sorted !! j) as [rx|] eqn:Hrx; [|done].
        simpl in Hj. injection Hj as <-. simpl in Hbad.
        apply (lex_sorted_group_start string_leb date_leb
                 string_leb_trans string_leb_antisym date_leb_trans
                 (price_key <$> sorted) i j
                 (price_key rx) (price_key ry) (price_key rz)); try done.
        - by rewrite list_lookup_fmap, Hrx.
        - by rewrite list_lookup_fmap, Hry.
        - by rewrite list_lookup_fmap, Hrz. }
      by rewrite Hnone.
Qed.

Lemma prepare_price_df_returns_witness :
  let out := default [] (prepare_price_df iso_date sample_prices) in
  (∀ z, out !! 0%nat = Some z → daily_return z = NaN) ∧
  (∀ i y z, out !! i = Some y → out !! S i = Some z →
     daily_return z =
       if decide (p_ticker y = p_ticker z)
       then fsub (fdiv (p_Close z) (p_Close y)) (Fin 1)
       else NaN).
Proof.
  apply (prepare_price_df_returns iso_date sample_prices).
  - repeat constructor.
  - repeat constructor.
  - reflexivity.
Defined.

(** ** [merge_and_analyze]: matched rows and the counts *)

(** A price row that has a record of its ticker and date in the sentiment
    table appears in the merged table with the values of that record, the
    average sentiment 0 where the record has none; and every merged row of
    that price row carries such a record: no row of it is filled with
    zeros. *)
Theorem merge_matched_row
    (pearsonr : list float → list float → float * float)
    (price_df : list price_row) (sentiment_df : list daily_sentiment)
    (p : price_row) (d : daily_sentiment) :
  p ∈ price_df → d ∈ sentiment_df → sentiment_key d = price_key p →
  let merged := (merge_and_analyze pearsonr price_df sentiment_df).1.1 in
  (∃ m, m ∈ merged ∧ m_price m = p ∧
        m_avg_sentiment m = fillna0 (avg_sentiment d) ∧
        m_min_sentiment m = min_sentiment d ∧
        m_max_sentiment m = max_sentiment d ∧
        m_news_count m = news_count d) ∧
  (∀ m, m ∈ merged → m_price m = p →
     ∃ d', d' ∈ sentiment_df ∧ sentiment_key d' = price_key p ∧
           m_avg_sentiment m = fillna0 (avg_sentiment d') ∧
           m_min_sentiment m = min_sentiment d' ∧
           m_max_sentiment m = max_sentiment d' ∧
           m_news_count m = news_count d').
Proof.
  intros Hp Hd Hkey merged. subst merged. cbn [merge_and_analyze fst].
  assert (Hm : d ∈ matches p sentiment_df) by (by apply list_elem_of_filter).
  split.
  - exists (fill_row (p, Some d)). split; [|done].
    apply elem_of_merge. exists p, (Some d). split_and!; try done.
    unfold left_join. destruct (matches p sentiment_df) as [|d0 ms] eqn:Hms.
    + by apply elem_of_nil in Hm.
    + by apply (list_elem_of_fmap_2 (λ d, (p, Some d))).
  - intros m Hin Hmp. apply elem_of_merge in Hin as (p' & od & _ & Hj & ->).
    rewrite m_price_fill_row in Hmp. subst p'.
    unfold left_join in Hj. destruct (matches p sentiment_df) as [|d0 ms] eqn:Hms.
    + by apply elem_of_nil in Hm.
    + apply list_elem_of_fmap in Hj as (d' & Heq & Hd').
      injection Heq as ->. rewrite <- Hms in Hd'.
      apply list_elem_of_filter in Hd' as [Hk' Hin']. by exists d'.
Qed.

Lemma merge_matched_row_witness :
  let p := {| p_ticker := "AAPL";
              p_Date := Some {| ts_day := 18263; ts_time := 0 |};
              p_Close := float_of_Z 100; p_Other := [];
              daily_return := Fin 0 |} in
  let d := {| s_ticker := "AAPL";
              s_Date := Some {| ts_day := 18263; ts_time := 0 |};
              avg_sentiment := NaN; min_sentiment := NaN; max_sentiment := NaN;
              news_count := 2 |} in
  let merged := (merge_and_analyze pearsonr_const [p] [d]).1.1 in
  (∃ m, m ∈ merged ∧ m_price m = p ∧
        m_avg_sentiment m = fillna0 (avg_sentiment d) ∧
        m_min_sentiment m = min_sentiment d ∧
        m_max_sentiment m = max_sentiment d ∧
        m_news_count m = news_count d) ∧
  (∀ m, m ∈ merged → m_price m = p →
     ∃ d', d' ∈ [d] ∧ sentiment_key d' = price_key p ∧
           m_avg_sentiment m = fillna0 (avg_sentiment d') ∧
           m_min_sentiment m = min_sentiment d' ∧
           m_max_sentiment m = max_sentiment d' ∧
           m_news_count m = news_count d').
Proof.
  intros p d.
  apply (merge_matched_row pearsonr_const [p] [d] p d).
  - apply list_elem_of_here.
  - apply list_elem_of_here.
  - reflexivity.
Defined.

Lemma dropna_ticker_group merged t :
  dropna_return (ticker_group merged t) =
  filter (λ m, p_ticker (m_price m) = t) (dropna_return merged).
Proof.
  unfold dropna_return, ticker_group. rewrite !list_filter_filter.
  induction merged as [|m l IH]; [done|].
  destruct (decide (is_observation (daily_return (m_price m)) = true ∧
                    p_ticker (m_price m) = t)) as [Hm|Hm].
  - rewrite !filter_cons_True by tauto. by rewrite IH.
  - rewrite !filter_cons_False by tauto. done.
Qed.

(** The counts [n] of the per-ticker entries add up to the number of rows
    the global correlation is taken over: every row with a return is
    counted for one ticker and one only.  So a coefficient for some ticker
    comes with a global coefficient. *)
Theorem per_ticker_counts_add_up
    (pearsonr : list float → list float → float * float)
    (price_df : list price_row) (sentiment_df : list daily_sentiment) :
  let res := merge_and_analyze pearsonr price_df sentiment_df in
  sum_list ((λ te, n te.2) <$> res.1.2) = length (dropna_return res.1.1) ∧
  (∀ t e, (t, e) ∈ res.1.2 → is_Some (pearson_r e) → is_Some res.2.1).
Proof.
  intros res. subst res. cbn [merge_and_analyze fst snd].
  set (merged := merge price_df sentiment_df).
  set (tickers := sort_by id string_leb
                    (remove_dups ((λ m, p_ticker (m_price m)) <$> merged))).
  assert (Hsum : sum_list ((λ te, n te.2) <$> per_ticker pearsonr merged) =
                 length (dropna_return merged)).
  { unfold per_ticker. fold tickers. rewrite <- list_fmap_compose.
    assert (Hn : ∀ l : list string,
              sum_list (((λ te : string * corr_entry, n te.2) ∘
                  (λ t, (t, correlate pearsonr (dropna_return (ticker_group merged t)))))
                  <$> l) =
              sum_list ((λ t, length (filter (λ m, p_ticker (m_price m) = t)
                                         (dropna_return merged))) <$> l)).
    { induction l as [|t l IH]; [done|]. rewrite !fmap_cons.
      change (sum_list (?a :: ?l')) with (a + sum_list l')%nat.
      rewrite IH. unfold compose at 1. cbn [snd].
      destruct (correlate_entry pearsonr (dropna_return (ticker_group merged t)))
        as [-> _].
      by rewrite dropna_ticker_group. }
    rewrite Hn.
    rewrite (sum_filter_by_key (λ m, p_ticker (m_price m)) tickers)
      by apply NoDup_sort_by, NoDup_remove_dups.
    f_equal. apply filter_all. intros m Hm.
    apply elem_of_sort_by, elem_of_remove_dups.
    apply (list_elem_of_fmap_2 (λ m, p_ticker (m_price m))).
    unfold dropna_return in Hm. by apply list_elem_of_filter in Hm as [_ Hm]. }
  split; [done|].
  intros t e Hte [r Hr].
  apply elem_of_per_ticker in Hte as [_ ->].
  destruct (correlate_entry pearsonr (dropna_return (ticker_group merged t)))
    as (_ & Hnone & _).
  assert (Hge : (10 ≤ length (dropna_return (ticker_group merged t)))%nat).
  { destruct (decide (10 ≤ length (dropna_return (ticker_group merged t)))%nat)
      as [?|Hlt]; [done|].
    assert (Hl : (length (dropna_return (ticker_group merged t)) < 10)%nat) by lia.
    apply Hnone in Hl. congruence. }
  rewrite dropna_ticker_group in Hge.
  pose proof (length_filter (λ m, p_ticker (m_price m) = t) (dropna_return merged))
    as Hle.
  destruct (global_corr_entry pearsonr merged) as [Hg _].
  destruct ((global_corr pearsonr merged).1) as [g|] eqn:Hg1; [by eexists|].
  assert (Hl : (length (dropna_return merged) < 10)%nat) by (by apply Hg).
  lia.
Qed.

(** ** [main]: the parts together *)

Lemma m_price_merge price_df sentiment_df :
  NoDup (sentiment_key <$> sentiment_df) →
  m_price <$> merge price_df sentiment_df = price_df.
Proof.
  intros Hnd. induction price_df as [|p price_df IH]; [done|].
  rewrite merge_cons, fmap_app, IH.
  destruct (left_join_unique p sentiment_df Hnd) as [od ->]. done.
Qed.

(** Whenever a run of [main] returns, the merged table has one row for
    each row of the price table, and these are the rows of
    [prepare_price_df] in their order: the daily records have distinct
    keys, so the join repeats no price row. *)
Theorem main_merged_rows
    (parse_datetime : string → option Timestamp) (polarity_of : pyobj → Qc)
    (pearsonr : list float → list float → float * float)
    (news : list news_row) (prices : list raw_price_row)
    (res : list merged_row * list (string * corr_entry)
           * (option float * option float)) :
  main parse_datetime polarity_of pearsonr news prices = Some res →
  prepare_price_df parse_datetime prices = Some (m_price <$> res.1.1) ∧
  length res.1.1 = length prices.
Proof.
  unfold main. intros H.
  destruct (prepare_price_df parse_datetime prices) as [prepared|] eqn:Hp;
    [|done].
  simpl in H. injection H as <-. cbn [merge_and_analyze fst].
  assert (Hm : m_price <$> merge prepared
                 (aggregate_daily_sentiment parse_datetime polarity_of news)
               = prepared) by apply m_price_merge, NoDup_aggregate_keys.
  split; [by rewrite Hm|].
  rewrite <- (length_fmap m_price), Hm.
  apply prepare_price_df_Some in Hp. cbv zeta in Hp. rewrite Hp.
  rewrite length_zip_with, length_group_pct_change, length_fmap, Nat.min_id.
  by rewrite length_sort_by, length_fmap.
Qed.

Lemma main_merged_rows_witness :
  let res := default ([], [], (None, None))
               (main iso_date compute_polarity pearsonr_const
                     sample_news sample_prices) in
  prepare_price_df iso_date sample_prices = Some (m_price <$> res.1.1) ∧
  length res.1.1 = length sample_prices.
Proof.
  apply (main_merged_rows iso_date compute_polarity pearsonr_const
           sample_news sample_prices).
  reflexivity.
Defined.

(** When the scorer keeps to a range [[lo, hi]] around 0, as the fallback
    scorer keeps to [[-1, 1]], every row of the merged table of [main] has
    a finite average sentiment in that range, and a news count that is not
    negative: the column the correlations are taken over has no missing
    value. *)
Theorem main_sentiment_range
    (parse_datetime : string → option Timestamp) (polarity_of : pyobj → Qc)
    (pearsonr : list float → list float → float * float)
    (news : list news_row) (prices : list raw_price_row) (lo hi : Qc)
    (res : list merged_row * list (string * corr_entry)
           * (option float * option float)) :
  lo ≤ 0 → 0 ≤ hi → (∀ x, lo ≤ polarity_of x ∧ polarity_of x ≤ hi) →
  main parse_datetime polarity_of pearsonr news prices = Some res →
  Forall (λ m, (∃ q, m_avg_sentiment m = Fin q ∧ lo ≤ q ∧ q ≤ hi) ∧
               (0 ≤ m_news_count m)%Z) res.1.1.
Proof.
  intros Hlo Hhi Hpol H. unfold main in H.
  destruct (prepare_price_df parse_datetime prices) as [prepared|]; [|done].
  simpl in H. injection H as <-. cbn [merge_and_analyze fst].
  apply Forall_forall. intros m Hm.
  apply elem_of_merge in Hm as (p & od & _ & Hj & ->).
  unfold left_join in Hj.
  destruct (matches p (aggregate_daily_sentiment parse_datetime polarity_of news))
    as [|d0 ms] eqn:Hms.
  - apply list_elem_of_singleton in Hj. injection Hj as ->. simpl.
    split; [by exists 0|done].
  - apply list_elem_of_fmap in Hj as (d & Heq & Hd). injection Heq as ->.
    rewrite <- Hms in Hd. apply list_elem_of_filter in Hd as [_ Hd].
    destruct (aggregate_record _ _ _ _ Hd) as (k & -> & Hne & _).
    cbn [fill_row from_option aggregate_group avg_sentiment news_count
         m_avg_sentiment m_news_count fillna0].
    split.
    + eexists. split; [done|]. apply mean_between.
      * intros Hnil. apply Hne. by apply fmap_nil_inv in Hnil.
      * intros x Hx. apply list_elem_of_fmap in Hx as (r & -> & Hr).
        apply list_elem_of_filter in Hr as [_ Hr].
        apply list_elem_of_fmap in Hr as (nr & -> & _). apply Hpol.
    + unfold count_headlines. lia.
Qed.

Lemma main_sentiment_range_witness :
  let res := default ([], [], (None, None))
               (main iso_date compute_polarity pearsonr_const
                     sample_news sample_prices) in
  Forall (λ m, (∃ q, m_avg_sentiment m = Fin q ∧ - (1) ≤ q ∧ q ≤ 1) ∧
               (0 ≤ m_news_count m)%Z) res.1.1.
Proof.
  apply (main_sentiment_range iso_date compute_polarity pearsonr_const
           sample_news sample_prices (- (1)) 1).
  - done.
  - done.
  - intros x. apply sentiment_bounds.
  - reflexivity.
Defined.
